(** * ShieldBattery lobby service ([server/lib/wsapi/lobbies.js])

    A shallow embedding of the [LobbyApi] class: the registry tables it
    owns, the commands it exposes over the websocket API, the diff engine
    [_publishLobbyDiff] and the countdown / load handshake of
    [startCountdown].

    Conventions.
    - Immutable.js [Map]s are [gmap]s, [Set]s are [gset]s, [List]s are lists.
    - JavaScript [===] on immutable records is rendered by decidable
      structural equality.
    - A command is a computation in the monad [M]: it threads the registry
      and may throw; the registry reached at the throw is kept, since the
      class assigns its fields one by one.
    - Everything the class does to a collaborator (pub-sub, sockets, timers)
      is appended to the [effects] log of the registry, oldest first. *)

From Stdlib Require Import ZArith List Bool Lia Sorted.
From stdpp Require Import base option list gmap strings sorting.
Import ListNotations.

Local Open Scope Z_scope.
Local Open Scope string_scope.
Local Open Scope list_scope.

(** ** Data model *)

(** The [type] field of a slot. *)
Inductive SlotType :=
| open | closed | human | computer | observer
| controlledOpen | controlledClosed | umsComputer.

#[global] Instance SlotType_eq_dec : EqDecision SlotType.
Proof. solve_decision. Defined.

(** A slot record. [slot_userId], [slot_controlledBy] and [slot_playerId]
    are absent ([None]) where the JavaScript record holds [null]. *)
Record Slot := {
  slot_type : SlotType;
  slot_name : string;
  slot_race : string;
  slot_id : string;
  slot_userId : option N;
  slot_hasForcedRace : bool;
  slot_playerId : option N;
  slot_controlledBy : option string;
}.

#[global] Instance Slot_eq_dec : EqDecision Slot.
Proof. solve_decision. Defined.

Record Team := {
  team_isObserver : bool;
  team_slots : list Slot;
}.

#[global] Instance Team_eq_dec : EqDecision Team.
Proof. solve_decision. Defined.

(** The part of a map's metadata the lobby service reads:
    [mapInfo.id] and [mapInfo.mapData.slots]. *)
Record MapInfo := {
  map_id : string;
  map_slots : Z;
}.

#[global] Instance MapInfo_eq_dec : EqDecision MapInfo.
Proof. solve_decision. Defined.

Record Lobby := {
  lobby_name : string;
  lobby_map : option MapInfo;
  lobby_gameType : string;
  lobby_gameSubType : Z;
  lobby_host : Slot;
  lobby_teams : list Team;
}.

#[global] Instance Lobby_eq_dec : EqDecision Lobby.
Proof. solve_decision. Defined.

(** [lobby.set('map', mapInfo)]; [None] is an [undefined] map. *)
Definition set_map (l : Lobby) (m : option MapInfo) : Lobby :=
  {| lobby_name := lobby_name l; lobby_map := m;
     lobby_gameType := lobby_gameType l;
     lobby_gameSubType := lobby_gameSubType l;
     lobby_host := lobby_host l; lobby_teams := lobby_teams l |}.

(** A game client of a user, as [clientSockets] and the activity registry
    hand it out: [client.name], [client.userId], [client.clientId]. *)
Record Client := {
  client_name : string;
  client_userId : N;
  client_clientId : string;
}.

#[global] Instance Client_eq_dec : EqDecision Client.
Proof. solve_decision. Defined.

#[global] Instance Client_countable : Countable Client.
Proof.
  refine (inj_countable'
            (fun c => (client_name c, client_userId c, client_clientId c))
            (fun t => Build_Client t.1.1 t.1.2 t.2) _).
  by intros [].
Defined.

(** A user of [userSockets]: [user.name] and [user.session.userId]. *)
Record User := {
  user_name : string;
  user_userId : N;
}.

(** A websocket connection, identified by [socket.id]. *)
Definition SocketId := string.
Definition GameId := string.

(** A JavaScript string as its sequence of UTF-16 code units; [length] and
    [slice] count code units. *)
Definition CodeUnit := N.
Definition JsString := list CodeUnit.

(** ** Errors *)

(** The [http-errors] classes the service throws, and the two kinds of
    error that reach a caller without one: a [TypeError] of the runtime
    (a property read on [undefined]) and a plain [Error] thrown by a
    lobby transition function that the command does not wrap. *)
Inductive ErrorKind :=
| BadRequest | Unauthorized | Forbidden | NotFound | Conflict
| TypeError | PlainError.

#[global] Instance ErrorKind_eq_dec : EqDecision ErrorKind.
Proof. solve_decision. Defined.

Record Error := mkError {
  err_kind : ErrorKind;
  err_message : string;
}.

#[global] Instance Error_eq_dec : EqDecision Error.
Proof. solve_decision. Defined.

(** ** [common/lobbies] *)

Module CommonLobbies.

(** Modelled from the spec: [common/lobbies.js] is not part of the
    sources at hand.  [getLobbySlots] lists every slot of the lobby,
    team after team. *)
Definition getLobbySlots (l : Lobby) : list Slot :=
  flat_map team_slots (lobby_teams l).

Definition indexed {A} (l : list A) : list (nat * A) :=
  combine (seq 0 (length l)) l.

(** Modelled from the spec: the slots with their coordinates
    [(teamIndex, slotIndex, slot)], in team-then-slot order. *)
Definition getLobbySlotsWithIndexes (l : Lobby) : list (nat * nat * Slot) :=
  flat_map
    (fun it : nat * Team =>
       map (fun js : nat * Slot => (it.1, js.1, js.2))
           (indexed (team_slots it.2)))
    (indexed (lobby_teams l)).

(** Modelled from the spec: the slots of type [human]. *)
Definition getHumanSlots (l : Lobby) : list Slot :=
  filter (fun s => slot_type s = human) (getLobbySlots l).

(** Modelled from the spec: the first slot, in team-then-slot order,
    whose name is [name]; [None] stands for the empty array the
    JavaScript function returns when there is none. *)
Definition findSlotByName (l : Lobby) (name : string)
  : option (nat * nat * Slot) :=
  List.find (fun e : nat * nat * Slot => bool_decide (slot_name e.2 = name))
            (getLobbySlotsWithIndexes l).

(** Modelled from the spec: as [findSlotByName], by slot id. *)
Definition findSlotById (l : Lobby) (id : string)
  : option (nat * nat * Slot) :=
  List.find (fun e : nat * nat * Slot => bool_decide (slot_id e.2 = id))
            (getLobbySlotsWithIndexes l).

(** Modelled from the spec: the observer team with its index, if the
    lobby has one. *)
Definition getObserverTeam (l : Lobby) : option (nat * Team) :=
  List.find (fun it : nat * Team => team_isObserver it.2)
            (indexed (lobby_teams l)).

Definition isPlayer (s : Slot) : bool :=
  bool_decide (slot_type s = human) || bool_decide (slot_type s = computer).

(** Modelled from the spec: at least two teams, the observer team
    excluded, each hold a human or computer slot. *)
Definition hasOpposingSides (l : Lobby) : bool :=
  bool_decide
    (2 <= length (filter (fun t : Team =>
                            negb (team_isObserver t)
                            && existsb isPlayer (team_slots t))
                         (lobby_teams l)))%nat.

End CommonLobbies.
Import CommonLobbies.

(** [lobby.teams.get(teamIndex).slots.get(slotIndex)] *)
Definition slotAt (l : Lobby) (teamIndex slotIndex : nat) : option Slot :=
  team ← lobby_teams l !! teamIndex; team_slots team !! slotIndex.

(** ** Sub-type validation *)

(** [checkSubTypeValidity(gameType, gameSubType = 0, numSlots)]: [None] for
    an absent ([undefined]) sub-type, which the default parameter turns
    into [0].  The result is the error thrown, if any. *)
Definition checkSubTypeValidity (gameType : string) (gameSubType : option Z)
    (numSlots : Z) : option Error :=
  let gameSubType := default 0 gameSubType in
  if bool_decide (gameType = "topVBottom") then
    if bool_decide (gameSubType < 1) || bool_decide (gameSubType > numSlots - 1)
    then Some (mkError BadRequest "Invalid game sub-type")
    else None
  else if bool_decide (gameType = "teamMelee")
          || bool_decide (gameType = "teamFfa") then
    if bool_decide (gameSubType < 2)
       || bool_decide (gameSubType > Z.min 4 numSlots)
    then Some (mkError BadRequest "Invalid game sub-type")
    else None
  else None.

(** ** Published messages *)

(** What [Lobbies.toSummaryJson(lobby)] returns.  The function is kept
    symbolic: a summary records the snapshot it was made from. *)
Inductive Summary := SummaryOf (lobby : Lobby).

Definition toSummaryJson (l : Lobby) : Summary := SummaryOf l.

(** The entries of a [diff] message, one constructor per [type]. *)
Inductive DiffEvent :=
| EvHostChange (host : Slot)
| EvKick (player : Slot)
| EvBan (player : Slot)
| EvLeave (player : Slot)
| EvSlotDeleted (teamIndex : nat) (slotIndex : option nat)
| EvSlotCreate (teamIndex slotIndex : nat) (slot : Slot)
| EvSlotChange (teamIndex slotIndex : nat) (player : Slot)
| EvRaceChange (teamIndex slotIndex : nat) (newRace : string).

(** The [setup] object of the game loader: only [setup.gameId] is read. *)
Record Setup := { setup_gameId : option GameId }.

(** Messages on the lobby channels, by [type], and on the lobby list, by
    [action]. *)
Inductive Message :=
| MsgStatus (lobby : option Summary)
| MsgChat (time : Z) (from : string) (text : JsString)
| MsgDiff (diffEvents : list DiffEvent)
| MsgLeave (player : option Slot)
| MsgStartCountdown
| MsgCancelCountdown
| MsgSetupGame (setup : Setup) (resultCode : option string)
| MsgSetRoutes (routes : string) (gameId : GameId)
| MsgCancelLoading
| MsgGameStarted
| MsgAllowStart (gameId : option GameId)
| ListFull (payload : list Summary)
| ListAdd (payload : Summary)
| ListUpdate (payload : Summary)
| ListDelete (payload : string).

(** [MOUNT_BASE], [_getPath], [_getUserPath] and [_getClientPath]. *)
Inductive Path :=
| MountBase
| LobbyPath (lobbyName : string)
| UserPath (lobbyName userName : string)
| ClientPath (lobbyName : string) (userId : N) (clientId : string).

Definition _getPath (l : Lobby) : Path := LobbyPath (lobby_name l).
Definition _getUserPath (l : Lobby) (username : string) : Path :=
  UserPath (lobby_name l) username.
Definition _getClientPath (l : Lobby) (c : Client) : Path :=
  ClientPath (lobby_name l) (client_userId c) (client_clientId c).

(** The two timeouts of [startCountdown]. *)
Inductive TimerName := countdownTimerId | allowStartTimerId.

(** The per-team player lists of [gameConfig]. *)
Record ConfigPlayer := {
  cfg_name : string;
  cfg_race : string;
  cfg_isComputer : bool;
}.

(** Calls into the collaborators, in the order they are made. *)
Inductive Effect :=
| Publish (path : Path) (data : Message)
| NydusSubscribe (socket : SocketId) (path : Path) (initial : Message)
| NydusUnsubscribe (socket : SocketId) (path : Path)
| SocketOnceClose (socket : SocketId)
| SocketRemoveCloseListener (socket : SocketId)
| ClientSubscribe (client : Client) (path : Path)
| ClientUnsubscribe (client : Client) (path : Path)
| UserSubscribe (userName : string) (path : Path)
| UserUnsubscribe (userName : string) (path : Path)
| SetTimeout (timer : TimerName) (deferred : nat) (ms : Z)
| ClearTimeout (timer : TimerName) (deferred : nat)
| RejectDeferred (deferred : nat)
| LoadGame (players : list Slot) (mapId : string)
           (teams : list (list ConfigPlayer)).

(** ** The registry *)

(** [Countdown]: the deferred [timer], by identity. *)
Record Countdown := { timer : nat }.

(** [ListSubscription]: the [count] of subscriptions of a connection. *)
Record ListSubscription := { count : Z }.

(** The fields of [LobbyApi], followed by the state of the activity
    registry ([activeClients], user name to active client) and the log of
    effects.  A value [None] in [lobbies] is a [null] stored under the
    name; a value [None] in [loadingLobbies] is an [undefined] game id. *)
Record Registry := {
  lobbies : gmap string (option Lobby);
  lobbyClients : gmap Client string;
  lobbyBannedUsers : gmap string (list string);
  lobbyCountdowns : gmap string Countdown;
  loadingLobbies : gmap string (option GameId);
  subscribedSockets : gmap SocketId ListSubscription;
  activeClients : gmap string Client;
  effects : list Effect;
}.

(** [new LobbyApi(...)] *)
Definition emptyRegistry : Registry :=
  {| lobbies := ∅; lobbyClients := ∅; lobbyBannedUsers := ∅;
     lobbyCountdowns := ∅; loadingLobbies := ∅; subscribedSockets := ∅;
     activeClients := ∅; effects := [] |}.

Definition set_lobbies
    (f : gmap string (option Lobby) -> gmap string (option Lobby))
    (r : Registry) : Registry :=
  {| lobbies := f (lobbies r); lobbyClients := lobbyClients r;
     lobbyBannedUsers := lobbyBannedUsers r;
     lobbyCountdowns := lobbyCountdowns r;
     loadingLobbies := loadingLobbies r;
     subscribedSockets := subscribedSockets r;
     activeClients := activeClients r; effects := effects r |}.

Definition set_lobbyClients (f : gmap Client string -> gmap Client string)
    (r : Registry) : Registry :=
  {| lobbies := lobbies r; lobbyClients := f (lobbyClients r);
     lobbyBannedUsers := lobbyBannedUsers r;
     lobbyCountdowns := lobbyCountdowns r;
     loadingLobbies := loadingLobbies r;
     subscribedSockets := subscribedSockets r;
     activeClients := activeClients r; effects := effects r |}.

Definition set_lobbyBannedUsers
    (f : gmap string (list string) -> gmap string (list string))
    (r : Registry) : Registry :=
  {| lobbies := lobbies r; lobbyClients := lobbyClients r;
     lobbyBannedUsers := f (lobbyBannedUsers r);
     lobbyCountdowns := lobbyCountdowns r;
     loadingLobbies := loadingLobbies r;
     subscribedSockets := subscribedSockets r;
     activeClients := activeClients r; effects := effects r |}.

Definition set_lobbyCountdowns
    (f : gmap string Countdown -> gmap string Countdown)
    (r : Registry) : Registry :=
  {| lobbies := lobbies r; lobbyClients := lobbyClients r;
     lobbyBannedUsers := lobbyBannedUsers r;
     lobbyCountdowns := f (lobbyCountdowns r);
     loadingLobbies := loadingLobbies r;
     subscribedSockets := subscribedSockets r;
     activeClients := activeClients r; effects := effects r |}.

Definition set_loadingLobbies
    (f : gmap string (option GameId) -> gmap string (option GameId))
    (r : Registry) : Registry :=
  {| lobbies := lobbies r; lobbyClients := lobbyClients r;
     lobbyBannedUsers := lobbyBannedUsers r;
     lobbyCountdowns := lobbyCountdowns r;
     loadingLobbies := f (loadingLobbies r);
     subscribedSockets := subscribedSockets r;
     activeClients := activeClients r; effects := effects r |}.

Definition set_subscribedSockets
    (f : gmap SocketId ListSubscription -> gmap SocketId ListSubscription)
    (r : Registry) : Registry :=
  {| lobbies := lobbies r; lobbyClients := lobbyClients r;
     lobbyBannedUsers := lobbyBannedUsers r;
     lobbyCountdowns := lobbyCountdowns r;
     loadingLobbies := loadingLobbies r;
     subscribedSockets := f (subscribedSockets r);
     activeClients := activeClients r; effects := effects r |}.

Definition set_activeClients
    (f : gmap string Client -> gmap string Client)
    (r : Registry) : Registry :=
  {| lobbies := lobbies r; lobbyClients := lobbyClients r;
     lobbyBannedUsers := lobbyBannedUsers r;
     lobbyCountdowns := lobbyCountdowns r;
     loadingLobbies := loadingLobbies r;
     subscribedSockets := subscribedSockets r;
     activeClients := f (activeClients r); effects := effects r |}.

Definition add_effects (es : list Effect) (r : Registry) : Registry :=
  {| lobbies := lobbies r; lobbyClients := lobbyClients r;
     lobbyBannedUsers := lobbyBannedUsers r;
     lobbyCountdowns := lobbyCountdowns r;
     loadingLobbies := loadingLobbies r;
     subscribedSockets := subscribedSockets r;
     activeClients := activeClients r; effects := effects r ++ es |}.

(** ** The command monad *)

(** A computation over the registry that returns a value or throws. *)
Definition M (A : Type) : Type := Registry -> (Error + A) * Registry.

Definition ret {A} (a : A) : M A := fun st => (inr a, st).

Definition bind {A B} (m : M A) (k : A -> M B) : M B :=
  fun st =>
    match m st with
    | (inl e, st') => (inl e, st')
    | (inr a, st') => k a st'
    end.

Definition throwE {A} (e : Error) : M A := fun st => (inl e, st).

Definition throw {A} (k : ErrorKind) (msg : string) : M A :=
  throwE (mkError k msg).

Definition gets {A} (f : Registry -> A) : M A := fun st => (inr (f st), st).

Definition modify (f : Registry -> Registry) : M unit :=
  fun st => (inr tt, f st).

(** [try { m } catch (err) { h err }] *)
Definition tryCatch {A} (m : M A) (h : Error -> M A) : M A :=
  fun st =>
    match m st with
    | (inl e, st') => h e st'
    | (inr a, st') => (inr a, st')
    end.

Declare Scope m_scope.
Delimit Scope m_scope with M.
Notation "'call' x <- m ; k" := (bind m (fun x => k))
  (at level 10, x pattern, m at level 100, k at level 200,
   format "'[v' 'call'  x  <-  m ; '/' k ']'") : m_scope.
Notation "'exec' m ; k" := (bind m (fun _ => k))
  (at level 10, m at level 100, k at level 200,
   format "'[v' 'exec'  m ; '/' k ']'") : m_scope.
Local Open Scope m_scope.

Definition when (b : bool) (m : M unit) : M unit :=
  if b then m else ret tt.

Fixpoint forEach {A} (l : list A) (f : A -> M unit) : M unit :=
  match l with
  | [] => ret tt
  | x :: l' => exec f x; forEach l' f
  end.

Definition emit (e : Effect) : M unit := modify (add_effects [e]).

(** A property read on [undefined] or [null]. *)
Definition undefinedRead {A} : M A :=
  throw TypeError "Cannot read properties of undefined".

(** Use of a value that may be [undefined] at its first property read. *)
Definition defined {A} (o : option A) : M A :=
  match o with
  | Some a => ret a
  | None => undefinedRead
  end.

(** ** Collaborators *)

(** The session layer: [userSockets.getBySocket], [userSockets.getByName]
    and [clientSockets.getCurrentClient]. *)
Record Sessions := {
  getBySocket : SocketId -> option User;
  getByName : string -> option User;
  getCurrentClient : SocketId -> option Client;
}.

(** The lobby transition functions ([lobbies/lobby.js], [Lobbies.*]), the
    slot constructors ([lobbies/slot.js], [Slots.*]) and [isUms] of
    [common/lobbies.js].  None of these modules is among the sources at
    hand, so the service is developed over their interface.  The leading
    [nat] of a function stands for the identifiers it draws for the slots
    it creates.  A function that may throw returns the message of its
    error on the left.  The last argument of [createHuman] holds the
    optional [race], [hasForcedRace] and [playerId]. *)
Class LobbyOps := {
  isUms : string -> bool;
  Lobbies_create :
    nat -> string -> MapInfo -> string -> option Z -> Z -> string -> N ->
    bool -> Lobby;
  findAvailableSlot : Lobby -> Z * Z * option Slot;
  addPlayer : nat -> Lobby -> nat -> nat -> Slot -> Lobby;
  removePlayer : nat -> Lobby -> option (nat * nat * Slot) -> option Lobby;
  movePlayerToSlot :
    nat -> Lobby -> option (nat * nat) -> nat -> nat -> string + Lobby;
  setRace : Lobby -> nat -> nat -> string -> string + Lobby;
  openSlot : nat -> Lobby -> nat -> nat -> string + Lobby;
  closeSlot : nat -> Lobby -> nat -> nat -> string + Lobby;
  makeObserver : nat -> Lobby -> nat -> nat -> string + Lobby;
  removeObserver : nat -> Lobby -> nat -> string + Lobby;
  createHuman :
    nat -> string -> N -> option (string * bool * option N) -> Slot;
  createObserver : nat -> string -> Slot;
  createComputer : nat -> Slot;
}.

(** Modelled from the spec: the activity registry
    ([games/gameplay-activity-registry.js]) is not among the sources.
    [registerActiveClient] refuses a user who is already active. *)
Definition registerActiveClient (userName : string) (client : Client)
  : M bool :=
  call active <- gets activeClients;
  match active !! userName with
  | Some _ => ret false
  | None =>
      exec modify (set_activeClients (insert userName client));
      ret true
  end.

(** Modelled from the spec: [activityRegistry.unregisterClientForUser]. *)
Definition unregisterClientForUser (userName : string) : M unit :=
  modify (set_activeClients (delete userName)).

(** Modelled from the spec: [activityRegistry.getClientForUser]. *)
Definition getClientForUser (userName : string) : M (option Client) :=
  call active <- gets activeClients;
  ret (active !! userName).

(** ** Publishing *)

Definition _publishListChange (m : Message) : M unit :=
  emit (Publish MountBase m).

Definition _publishTo (l : Lobby) (data : Message) : M unit :=
  emit (Publish (_getPath l) data).

Definition _publishToUser (l : Lobby) (username : string) (data : Message)
  : M unit :=
  emit (Publish (_getUserPath l username) data).

(** ** The diff engine *)

Definition Res (A : Type) : Type := Error + A.

Definition typeError {A} : Res A :=
  inl (mkError TypeError "Cannot read properties of undefined").

Fixpoint collect {A B} (f : A -> Res (list B)) (l : list A) : Res (list B) :=
  match l with
  | [] => inr []
  | x :: l' =>
      match f x with
      | inl e => inl e
      | inr ys =>
          match collect f l' with
          | inl e => inl e
          | inr zs => inr (ys ++ zs)
          end
      end
  end.

(** [new Set(slots.map(s => s.id))] *)
Definition idSet (ss : list Slot) : gset string :=
  list_to_set (map slot_id ss).

(** [new Map(getLobbySlotsWithIndexes(l).map(e => [e.slot.id, e]))]: a
    later entry replaces an earlier one with the same id. *)
Definition idSlots (l : Lobby) : gmap string (nat * nat * Slot) :=
  list_to_map
    (reverse (map (fun e : nat * nat * Slot => (slot_id e.2, e))
                  (getLobbySlotsWithIndexes l))).

Section Diff.
Variables (oldLobby newLobby : Lobby).
Variables (kickedUser bannedUser : option string).
Variable (deletedSlotIndex : option nat).

Definition oldSlots : gset string := idSet (getLobbySlots oldLobby).
Definition newSlots : gset string := idSet (getLobbySlots newLobby).
Definition oldHumans : gset string := idSet (getHumanSlots oldLobby).
Definition same : gset string := oldSlots ∩ newSlots.
Definition left : gset string := oldHumans ∖ same.
Definition created : gset string := newSlots ∖ same.

Definition hostEvents : list DiffEvent :=
  if decide (slot_id (lobby_host newLobby) = slot_id (lobby_host oldLobby))
  then []
  else [EvHostChange (lobby_host newLobby)].

(** The body of the loop over [left]. *)
Definition leftEvent (id : string) : Res (list DiffEvent) :=
  match idSlots oldLobby !! id with
  | None => typeError
  | Some (_, _, player) =>
      if decide (kickedUser = Some (slot_name player))
      then inr [EvKick player]
      else if decide (bannedUser = Some (slot_name player))
      then inr [EvBan player]
      else inr [EvLeave player]
  end.

(** The body of the loop over the team indexes of the old lobby. *)
Definition deletedEvent (it : nat * Team) : Res (list DiffEvent) :=
  match lobby_teams newLobby !! it.1 with
  | None => typeError
  | Some newTeam =>
      if decide (length (team_slots newTeam) < length (team_slots it.2))%nat
      then inr [EvSlotDeleted it.1 deletedSlotIndex]
      else inr []
  end.

(** The body of the loop over [created]. *)
Definition createdEvent (id : string) : Res (list DiffEvent) :=
  match idSlots newLobby !! id with
  | None => typeError
  | Some (teamIndex, slotIndex, slot) =>
      inr [EvSlotCreate teamIndex slotIndex slot]
  end.

(** The body of the loop over [same]. *)
Definition sameEvent (id : string) : Res (list DiffEvent) :=
  match idSlots oldLobby !! id, idSlots newLobby !! id with
  | Some (oldTeamIndex, oldSlotIndex, oldSlot),
    Some (newTeamIndex, newSlotIndex, newSlot) =>
      let samePlace :=
        bool_decide (oldTeamIndex = newTeamIndex)
        && bool_decide (oldSlotIndex = newSlotIndex) in
      if samePlace && bool_decide (oldSlot = newSlot) then inr []
      else
        inr ((if negb samePlace
                 && bool_decide (slot_id oldSlot = slot_id newSlot)
              then [EvSlotChange newTeamIndex newSlotIndex newSlot]
              else [])
             ++
             (if samePlace
                 && negb (bool_decide (slot_race oldSlot = slot_race newSlot))
              then [EvRaceChange newTeamIndex newSlotIndex
                                 (slot_race newSlot)]
              else []))
  | _, _ => typeError
  end.

(** The list [diffEvents] that [_publishLobbyDiff] builds, or the error
    it throws while building it.  The sets are walked in the order of
    [elements]; Immutable.js walks them in an order of its own. *)
Definition diffEvents : Res (list DiffEvent) :=
  match collect leftEvent (elements left) with
  | inl e => inl e
  | inr lefts =>
      match collect deletedEvent (indexed (lobby_teams oldLobby)) with
      | inl e => inl e
      | inr deleteds =>
          match collect createdEvent (elements created) with
          | inl e => inl e
          | inr createds =>
              match collect sameEvent (elements same) with
              | inl e => inl e
              | inr sames =>
                  inr (hostEvents ++ lefts ++ deleteds ++ createds ++ sames)
              end
          end
      end
  end.

(** [_publishLobbyDiff(oldLobby, newLobby, kickedUser, bannedUser,
    deletedSlotIndex)] *)
Definition _publishLobbyDiff : M unit :=
  if decide (oldLobby = newLobby) then ret tt
  else
    match diffEvents with
    | inl e => throwE e
    | inr evs =>
        exec when (negb (bool_decide (length evs = 0%nat)))
                  (_publishTo newLobby (MsgDiff evs));
        _publishListChange (ListUpdate (toSummaryJson newLobby))
    end.

End Diff.

(** ** The commands of [LobbyApi] *)

(** [o] is truthy: a string that is neither [null] nor empty. *)
Definition truthy (o : option string) : option string :=
  match o with
  | Some s => if decide (s = "") then None else Some s
  | None => None
  end.

Definition REMOVAL_TYPE_NORMAL : Z := 0.
Definition REMOVAL_TYPE_KICK : Z := 1.
Definition REMOVAL_TYPE_BAN : Z := 2.

Section Api.
Context {ops : LobbyOps}.
(** The session layer at the time of the call. *)
Variable sess : Sessions.
(** [(await getMapInfo([map], userId))[0]]: the map found, if any. *)
Variable getMapInfo : string -> option N -> option MapInfo.

Definition getUser (socket : SocketId) : M User :=
  match getBySocket sess socket with
  | Some user => ret user
  | None => throw Unauthorized "authorization required"
  end.

Definition getUserByName (name : string) : M User :=
  match getByName sess name with
  | Some user => ret user
  | None => throw BadRequest "user not online"
  end.

Definition getActiveClientForUser (name : string) : M Client :=
  call client <- getClientForUser name;
  match client with
  | Some c => ret c
  | None => throw BadRequest "no active client for user"
  end.

Definition getClient (socket : SocketId) : M Client :=
  match getCurrentClient sess socket with
  | Some client => ret client
  | None => throw Unauthorized "authorization required"
  end.

(** [this.lobbies.get(name)]: the lobby, or [None] for [undefined] and
    for a stored [null]. *)
Definition lobbyAt (st : Registry) (name : string) : option Lobby :=
  mjoin (lobbies st !! name).

(** The result may be [undefined]; the caller fails at its first
    property read. *)
Definition getLobbyForClient (client : Client) : M (option Lobby) :=
  call clients <- gets lobbyClients;
  match clients !! client with
  | None => throw BadRequest "must be in a lobby"
  | Some name => gets (fun st => lobbyAt st name)
  end.

Definition ensureIsLobbyHost (lobby : Lobby) (player : option Slot)
  : M unit :=
  call player <- defined player;
  if decide (slot_id player = slot_id (lobby_host lobby)) then ret tt
  else throw Unauthorized "must be a lobby host".

Definition ensureLobbyNotLoading (lobby : Lobby) : M unit :=
  call loading <- gets loadingLobbies;
  if decide (is_Some (loading !! lobby_name lobby))
  then throw Conflict "lobby has already started"
  else ret tt.

Definition ensureLobbyNotTransient (lobby : Lobby) : M unit :=
  call countdowns <- gets lobbyCountdowns;
  if decide (is_Some (countdowns !! lobby_name lobby))
  then throw Conflict "lobby is counting down"
  else
    call loading <- gets loadingLobbies;
    if decide (is_Some (loading !! lobby_name lobby))
    then throw Conflict "lobby has already started"
    else ret tt.

Definition _publishToClient (lobby : Lobby) (username : string)
    (data : Message) : M unit :=
  call client <- getActiveClientForUser username;
  emit (Publish (_getClientPath lobby client) data).

(** *** Lobby list subscriptions *)

(** [Lobbies.toSummaryJson] over [this.lobbies.valueSeq()]; a stored
    [null] makes the summary fail on its first property read. *)
Definition summaries : M (list Summary) :=
  call ls <- gets lobbies;
  match mapM (fun kv : string * option Lobby => kv.2) (map_to_list ls) with
  | Some lobbies => ret (map toSummaryJson lobbies)
  | None => undefinedRead
  end.

Definition subscribe (socket : SocketId) : M unit :=
  call subs <- gets subscribedSockets;
  match subs !! socket with
  | Some _ =>
      modify (set_subscribedSockets
                (alter (fun s => {| count := count s + 1 |}) socket))
  | None =>
      call summary <- summaries;
      exec emit (NydusSubscribe socket MountBase (ListFull summary));
      exec emit (SocketOnceClose socket);
      modify (set_subscribedSockets (insert socket {| count := 1 |}))
  end.

(** The [close] listener that [subscribe] installs on the socket. *)
Definition onClose (socket : SocketId) : M unit :=
  exec emit (NydusUnsubscribe socket MountBase);
  modify (set_subscribedSockets (delete socket)).

Definition unsubscribe (socket : SocketId) : M unit :=
  call subs <- gets subscribedSockets;
  match subs !! socket with
  | None => throw Conflict "not subscribed"
  | Some subscription =>
      if decide (count subscription = 1) then
        exec emit (NydusUnsubscribe socket MountBase);
        exec modify (set_subscribedSockets (delete socket));
        emit (SocketRemoveCloseListener socket)
      else
        modify (set_subscribedSockets
                  (alter (fun s => {| count := count s - 1 |}) socket))
  end.

(** *** Creating and joining *)

Definition _subscribeClientToLobby (lobby : Lobby) (user : User)
    (client : Client) : M unit :=
  exec emit (ClientSubscribe client (_getPath lobby));
  exec emit (UserSubscribe (user_name user)
                           (_getUserPath lobby (user_name user)));
  emit (ClientSubscribe client (_getClientPath lobby client)).

(** [create]: the body [{name, map, gameType, gameSubType}] has passed
    [validateBody].  The suspension at [await getMapInfo] is not
    modelled: the call runs in one piece. *)
Definition create (seed : nat) (socket : SocketId) (name map : string)
    (gameType : string) (gameSubType : option Z) : M unit :=
  call user <- getUser socket;
  call client <- getClient socket;
  call ls <- gets lobbies;
  if decide (is_Some (ls !! name))
  then throw Conflict "already another lobby with that name"
  else
    match getMapInfo map (Some (user_userId user)) with
    | None => throw BadRequest "invalid map"
    | Some mapInfo =>
        match checkSubTypeValidity gameType gameSubType (map_slots mapInfo)
        with
        | Some e => throwE e
        | None =>
            let numSlots :=
              if decide (gameType = "oneVOne") then 2
              else if decide (gameType = "teamMelee") then 8
              else if decide (gameType = "teamFfa") then 8
              else map_slots mapInfo in
            let lobby :=
              Lobbies_create seed name mapInfo gameType gameSubType numSlots
                             (client_name client) (client_userId client)
                             false in
            call registered <-
              registerActiveClient (user_name user) client;
            if negb registered
            then throw Conflict
                       "user is already active in a gameplay activity"
            else
              exec modify (set_lobbies (insert name (Some lobby)));
              exec modify (set_lobbyClients (insert client name));
              exec _subscribeClientToLobby lobby user client;
              _publishListChange (ListAdd (toSummaryJson lobby))
        end
    end.

(** The slot a joining client gets. *)
Definition joiningPlayer (seed : nat) (lobby : Lobby) (client : Client)
    (availableSlot : option Slot) : M Slot :=
  let asPlayer : M Slot :=
    if isUms (lobby_gameType lobby) then
      call available <- defined availableSlot;
      ret (createHuman seed (client_name client) (client_userId client)
                       (Some (slot_race available, true,
                              slot_playerId available)))
    else
      ret (createHuman seed (client_name client) (client_userId client)
                       None) in
  match getObserverTeam lobby with
  | Some (_, observerTeam) =>
      call available <- defined availableSlot;
      if existsb (fun s => bool_decide (slot_id s = slot_id available))
                 (team_slots observerTeam)
      then ret (createObserver seed (client_name client))
      else asPlayer
  | None => asPlayer
  end.

(** [join]; the suspension at [await getMapInfo] is not modelled. *)
Definition join (seed : nat) (socket : SocketId) (name : string)
  : M unit :=
  call user <- getUser socket;
  call client <- getClient socket;
  call ls <- gets lobbies;
  match ls !! name with
  | None => throw NotFound "no lobby found with that name"
  | Some stored =>
      call lobby <- defined stored;
      exec ensureLobbyNotTransient lobby;
      call bans <- gets lobbyBannedUsers;
      if bool_decide (client_name client
                        ∈ default [] (bans !! lobby_name lobby))
      then throw Conflict "user has been banned from this lobby"
      else
        let '(teamIndex, slotIndex, availableSlot) :=
          findAvailableSlot lobby in
        if bool_decide (teamIndex < 0) || bool_decide (slotIndex < 0)
        then throw Conflict "lobby is full"
        else
          call player <- joiningPlayer seed lobby client availableSlot;
          let updated :=
            addPlayer seed lobby (Z.to_nat teamIndex) (Z.to_nat slotIndex)
                      player in
          call registered <- registerActiveClient (user_name user) client;
          if negb registered
          then throw Conflict
                     "user is already active in a gameplay activity"
          else
            call map <- defined (lobby_map lobby);
            let mapInfo :=
              getMapInfo (map_id map) (slot_userId (lobby_host lobby)) in
            let updated := set_map updated mapInfo in
            exec modify (set_lobbies (insert name (Some updated)));
            exec modify (set_lobbyClients (insert client name));
            exec _publishLobbyDiff lobby updated None None None;
            _subscribeClientToLobby lobby user client
  end.

(** *** Chat *)

(** [sendChat]: [time] is [Date.now()], [text] the body's text, which
    has passed [validateBody]. *)
Definition sendChat (time : Z) (socket : SocketId) (text : JsString)
  : M unit :=
  call client <- getClient socket;
  call lobby <- getLobbyForClient client;
  let text :=
    if decide (500 < length text)%nat then take 500 text else text in
  call lobby <- defined lobby;
  _publishTo lobby (MsgChat time (client_name client) text).

(** *** Slot commands *)

(** The third component of a [findSlotByName] / [findSlotById] result. *)
Definition slotOf (found : option (nat * nat * Slot)) : option Slot :=
  snd <$> found.

Definition placeOf (found : option (nat * nat * Slot))
  : option (nat * nat) :=
  fst <$> found.

Definition commit (lobby updated : Lobby) : M unit :=
  modify (set_lobbies (insert (lobby_name lobby) (Some updated))).

Definition addComputer (seed : nat) (socket : SocketId) (slotId : string)
  : M unit :=
  call client <- getClient socket;
  call lobby <- getLobbyForClient client;
  call lobby <- defined lobby;
  let player := slotOf (findSlotByName lobby (client_name client)) in
  exec ensureIsLobbyHost lobby player;
  exec ensureLobbyNotTransient lobby;
  if isUms (lobby_gameType lobby)
  then throw BadRequest ("invalid game type: " +:+ lobby_gameType lobby)
  else
    match findSlotById lobby slotId with
    | None => throw BadRequest "invalid id"
    | Some (teamIndex, slotIndex, slotToAddComputer) =>
        if negb (bool_decide (slot_type slotToAddComputer = open))
           && negb (bool_decide (slot_type slotToAddComputer = closed))
        then throw BadRequest "invalid slot type"
        else
          let computer := createComputer seed in
          let updated := addPlayer seed lobby teamIndex slotIndex computer in
          exec commit lobby updated;
          _publishLobbyDiff lobby updated None None None
    end.

(** [changeSlot].  [sourceSlot === destSlot] compares two slots of one
    snapshot: they are the same object when found at the same place. *)
Definition changeSlot (seed : nat) (socket : SocketId) (slotId : string)
  : M unit :=
  call client <- getClient socket;
  call lobby <- getLobbyForClient client;
  call lobby <- defined lobby;
  exec ensureLobbyNotTransient lobby;
  let source := findSlotByName lobby (client_name client) in
  match findSlotById lobby slotId with
  | None => throw BadRequest "invalid id"
  | Some (destTeamIndex, destSlotIndex, destSlot) =>
      if negb (bool_decide (slot_type destSlot = open))
         && negb (bool_decide (slot_type destSlot = controlledOpen))
      then throw BadRequest "invalid destination slot type"
      else if decide (source = Some (destTeamIndex, destSlotIndex, destSlot))
      then throw Conflict "already in that slot"
      else
        match movePlayerToSlot seed lobby (placeOf source)
                               destTeamIndex destSlotIndex with
        | inl message => throw BadRequest message
        | inr updated =>
            exec commit lobby updated;
            _publishLobbyDiff lobby updated None None None
        end
  end.

(** The permission checks of [setRace] on the slot found. *)
Definition mayChangeRace (lobby : Lobby) (player : option Slot)
    (slotToSetRace : Slot) : M unit :=
  if decide (slot_type slotToSetRace = computer) then
    ensureIsLobbyHost lobby player
  else
    match truthy (slot_controlledBy slotToSetRace) with
    | Some controller =>
        call player <- defined player;
        if decide (controller = slot_id player) then ret tt
        else throw Forbidden "must control a slot to set its race"
    | None =>
        call player <- defined player;
        if negb (bool_decide (slot_id slotToSetRace = slot_id player))
        then throw Forbidden "cannot set other user's races"
        else if slot_hasForcedRace slotToSetRace
        then throw Forbidden
                   "this slot has a forced race and cannot be changed"
        else ret tt
    end.

Definition setRaceCommand (socket : SocketId) (id race : string)
  : M unit :=
  call client <- getClient socket;
  call lobby <- getLobbyForClient client;
  call lobby <- defined lobby;
  exec ensureLobbyNotLoading lobby;
  let player := slotOf (findSlotByName lobby (client_name client)) in
  match findSlotById lobby id with
  | None => throw BadRequest "invalid id"
  | Some (teamIndex, slotIndex, slotToSetRace) =>
      if negb (bool_decide (slot_type slotToSetRace = computer))
         && negb (bool_decide (slot_type slotToSetRace = human))
         && negb (bool_decide (slot_type slotToSetRace = controlledOpen))
         && negb (bool_decide (slot_type slotToSetRace = controlledClosed))
      then throw BadRequest "invalid slot type"
      else
        exec mayChangeRace lobby player slotToSetRace;
        match setRace lobby teamIndex slotIndex race with
        | inl message => throw PlainError message
        | inr updatedLobby =>
            exec commit lobby updatedLobby;
            _publishLobbyDiff lobby updatedLobby None None None
        end
  end.

Definition openSlotCommand (seed : nat) (socket : SocketId)
    (slotId : string) : M unit :=
  call client <- getClient socket;
  call lobby <- getLobbyForClient client;
  call lobby <- defined lobby;
  let player := slotOf (findSlotByName lobby (client_name client)) in
  exec ensureIsLobbyHost lobby player;
  exec ensureLobbyNotTransient lobby;
  match findSlotById lobby slotId with
  | None => throw BadRequest "invalid slot id"
  | Some (teamIndex, slotIndex, slotToOpen) =>
      if bool_decide (slot_type slotToOpen = open)
         || bool_decide (slot_type slotToOpen = controlledOpen)
         || bool_decide (slot_type slotToOpen = umsComputer)
      then throw BadRequest "invalid slot type"
      else
        match openSlot seed lobby teamIndex slotIndex with
        | inl message => throw BadRequest message
        | inr updated =>
            exec commit lobby updated;
            _publishLobbyDiff lobby updated None None None
        end
  end.

(** *** Removing players *)

(** Cancels the countdown if one was occurring (no-op if it was not). *)
Definition _maybeCancelCountdown (lobby : Lobby) : M unit :=
  call countdowns <- gets lobbyCountdowns;
  match countdowns !! lobby_name lobby with
  | None => ret tt
  | Some countdown =>
      exec emit (RejectDeferred (timer countdown));
      exec modify (set_lobbyCountdowns (delete (lobby_name lobby)));
      exec _publishTo lobby MsgCancelCountdown;
      _publishListChange (ListAdd (toSummaryJson lobby))
  end.

(** [_removeClientFromLobby(lobby, userName, removalType)]; the lobby
    may be [undefined], which shows at [findSlotByName]. *)
Definition _removeClientFromLobby (seed : nat) (lobby : option Lobby)
    (userName : string) (removalType : Z) : M unit :=
  call user <- getUserByName userName;
  call client <- getActiveClientForUser userName;
  call lobby <- defined lobby;
  let found := findSlotByName lobby userName in
  let updatedLobby := removePlayer seed lobby found in
  exec match updatedLobby with
       | None =>
           exec _publishTo lobby (MsgLeave (slotOf found));
           exec modify (set_lobbies (delete (lobby_name lobby)));
           exec modify (set_lobbyBannedUsers (delete (lobby_name lobby)));
           _publishListChange (ListDelete (lobby_name lobby))
       | Some updatedLobby =>
           exec commit lobby updatedLobby;
           _publishLobbyDiff lobby updatedLobby
             (if decide (removalType = REMOVAL_TYPE_KICK)
              then Some userName else None)
             (if decide (removalType = REMOVAL_TYPE_BAN)
              then Some userName else None)
             None
       end;
  exec modify (set_lobbyClients (delete client));
  exec unregisterClientForUser userName;
  exec _publishToUser lobby userName (MsgStatus None);
  exec _maybeCancelCountdown lobby;
  call loading <- gets loadingLobbies;
  exec when (bool_decide (is_Some (loading !! lobby_name lobby)))
            (_publishToUser lobby userName MsgCancelLoading);
  exec emit (UserUnsubscribe userName (_getUserPath lobby userName));
  exec emit (ClientUnsubscribe client (_getClientPath lobby client));
  emit (ClientUnsubscribe client (_getPath lobby)).

(** [_kickPlayerFromLobby].  For a computer the result of
    [removePlayer] is stored as it is, a [null] included, and
    [_publishLobbyDiff] then fails on [null]. *)
Definition _kickPlayerFromLobby (seed : nat) (lobby : Lobby)
    (teamIndex slotIndex : nat) (playerToKick : Slot) : M unit :=
  if decide (slot_type playerToKick = computer) then
    let updated :=
      removePlayer seed lobby (Some (teamIndex, slotIndex, playerToKick)) in
    exec modify (set_lobbies (insert (lobby_name lobby) updated));
    call updated <- defined updated;
    _publishLobbyDiff lobby updated None None None
  else if bool_decide (slot_type playerToKick = human)
          || bool_decide (slot_type playerToKick = observer) then
    _removeClientFromLobby seed (Some lobby) (slot_name playerToKick)
                           REMOVAL_TYPE_KICK
  else ret tt.

(** [closeSlot].  When the kick has deleted the lobby,
    [Lobbies.closeSlot] is called on [undefined]; its failure is caught
    and rethrown as [BadRequest] like any other. *)
Definition closeSlotCommand (seed : nat) (socket : SocketId)
    (slotId : string) : M unit :=
  call user <- getUser socket;
  call client <- getClient socket;
  call lobby <- getLobbyForClient client;
  call lobby <- defined lobby;
  let player := slotOf (findSlotByName lobby (client_name client)) in
  exec ensureIsLobbyHost lobby player;
  exec ensureLobbyNotTransient lobby;
  match findSlotById lobby slotId with
  | None => throw BadRequest "invalid slot id"
  | Some (teamIndex, slotIndex, slotToClose) =>
      if bool_decide (slot_type slotToClose = closed)
         || bool_decide (slot_type slotToClose = controlledClosed)
         || bool_decide (slot_type slotToClose = umsComputer)
      then throw BadRequest "invalid slot type"
      else
        exec when (bool_decide (slot_type slotToClose = human)
                   || bool_decide (slot_type slotToClose = computer)
                   || bool_decide (slot_type slotToClose = observer))
                  (_kickPlayerFromLobby seed lobby teamIndex slotIndex
                                        slotToClose);
        call afterKick <- gets (fun st => lobbyAt st (lobby_name lobby));
        match afterKick with
        | None => throw BadRequest "Cannot read properties of undefined"
        | Some afterKick =>
            match closeSlot seed afterKick teamIndex slotIndex with
            | inl message => throw BadRequest message
            | inr updated =>
                exec commit lobby updated;
                _publishLobbyDiff afterKick updated None None None
            end
        end
  end.

Definition kickPlayer (seed : nat) (socket : SocketId) (slotId : string)
  : M unit :=
  call user <- getUser socket;
  call client <- getClient socket;
  call lobby <- getLobbyForClient client;
  call lobby <- defined lobby;
  let player := slotOf (findSlotByName lobby (client_name client)) in
  exec ensureIsLobbyHost lobby player;
  exec ensureLobbyNotTransient lobby;
  match findSlotById lobby slotId with
  | None => throw BadRequest "invalid slot id"
  | Some (teamIndex, slotIndex, playerToKick) =>
      if negb (bool_decide (slot_type playerToKick = human))
         && negb (bool_decide (slot_type playerToKick = computer))
         && negb (bool_decide (slot_type playerToKick = observer))
      then throw BadRequest "invalid slot type"
      else
        _kickPlayerFromLobby seed lobby teamIndex slotIndex playerToKick
  end.

Definition banPlayer (seed : nat) (socket : SocketId) (slotId : string)
  : M unit :=
  call client <- getClient socket;
  call lobby <- getLobbyForClient client;
  call lobby <- defined lobby;
  let player := slotOf (findSlotByName lobby (client_name client)) in
  exec ensureIsLobbyHost lobby player;
  exec ensureLobbyNotTransient lobby;
  match findSlotById lobby slotId with
  | None => throw BadRequest "invalid slot id"
  | Some (_, _, playerToBan) =>
      if negb (bool_decide (slot_type playerToBan = human))
      then throw BadRequest "invalid slot type"
      else
        exec modify
             (set_lobbyBannedUsers
                (fun bans =>
                   <[lobby_name lobby :=
                       default [] (bans !! lobby_name lobby)
                       ++ [slot_name playerToBan]]> bans));
        _removeClientFromLobby seed (Some lobby) (slot_name playerToBan)
                               REMOVAL_TYPE_BAN
  end.

Definition makeObserverCommand (seed : nat) (socket : SocketId)
    (slotId : string) : M unit :=
  call client <- getClient socket;
  call lobby <- getLobbyForClient client;
  call lobby <- defined lobby;
  let player := slotOf (findSlotByName lobby (client_name client)) in
  exec ensureIsLobbyHost lobby player;
  exec ensureLobbyNotTransient lobby;
  match findSlotById lobby slotId with
  | None => throw BadRequest "invalid slot id"
  | Some (teamIndex, slotIndex, slot) =>
      match makeObserver seed lobby teamIndex slotIndex with
      | inl message => throw BadRequest message
      | inr updated =>
          exec commit lobby updated;
          _publishLobbyDiff lobby updated None None (Some slotIndex)
      end
  end.

Definition removeObserverCommand (seed : nat) (socket : SocketId)
    (slotId : string) : M unit :=
  call client <- getClient socket;
  call lobby <- getLobbyForClient client;
  call lobby <- defined lobby;
  let player := slotOf (findSlotByName lobby (client_name client)) in
  exec ensureIsLobbyHost lobby player;
  exec ensureLobbyNotTransient lobby;
  match findSlotById lobby slotId with
  | None => throw BadRequest "invalid slot id"
  | Some (teamIndex, slotIndex, slot) =>
      call team <- defined (lobby_teams lobby !! teamIndex);
      if negb (team_isObserver team)
      then throw BadRequest "Slot is not in the observer team"
      else
        match removeObserver seed lobby slotIndex with
        | inl message => throw BadRequest message
        | inr updated =>
            exec commit lobby updated;
            _publishLobbyDiff lobby updated None None (Some slotIndex)
        end
  end.

Definition leave (seed : nat) (socket : SocketId) : M unit :=
  call user <- getUser socket;
  call client <- getActiveClientForUser (user_name user);
  call lobby <- getLobbyForClient client;
  _removeClientFromLobby seed lobby (user_name user) REMOVAL_TYPE_NORMAL.

(** The clean-up that [_subscribeClientToLobby] registers for a client
    that goes away. *)
Definition clientGone (seed : nat) (lobbyName userName : string) : M unit :=
  call lobby <- gets (fun st => lobbyAt st lobbyName);
  _removeClientFromLobby seed lobby userName REMOVAL_TYPE_NORMAL.

(** [getLobbyState]: the [lobbyState] of the answer. *)
Definition getLobbyState (socket : SocketId) (lobbyName : string)
  : M string :=
  exec getClient socket;
  call st <- gets (fun st => st);
  if negb (bool_decide (is_Some (lobbies st !! lobbyName)))
  then ret "nonexistent"
  else if bool_decide (is_Some (lobbyCountdowns st !! lobbyName))
  then ret "countingDown"
  else if bool_decide (is_Some (loadingLobbies st !! lobbyName))
  then ret "hasStarted"
  else ret "exists".

(** *** The countdown and load handshake *)

(** The state of a promise. *)
Inductive Settled := pending | resolved | rejected.

#[global] Instance Settled_eq_dec : EqDecision Settled.
Proof. solve_decision. Defined.

(** A timeout handle held in a variable of [startCountdown]: not yet
    set, waiting to fire, fired, or cleared and set to [null]. *)
Inductive Handle := unset | waiting | fired | cleared.

#[global] Instance Handle_eq_dec : EqDecision Handle.
Proof. solve_decision. Defined.

(** One call of [startCountdown] that has reached its [try] block: the
    lobby snapshot it closed over, its deferred [countdownTimer] (by
    identity and by state), the promise [gameLoaded] of the loader, the
    two timeout handles, the variable [gameId], and what the call has
    returned: [None] while it awaits, [Some None] once it has returned
    normally, [Some (Some e)] once it has thrown [e]. *)
Record Handshake := {
  hs_lobby : Lobby;
  hs_deferred : nat;
  hs_countdownTimer : Settled;
  hs_gameLoaded : Settled;
  hs_countdownTimerId : Handle;
  hs_allowStartTimerId : Handle;
  hs_gameId : option GameId;
  hs_returned : option (option Error);
}.

Definition set_countdownTimer (s : Settled) (hs : Handshake) : Handshake :=
  {| hs_lobby := hs_lobby hs; hs_deferred := hs_deferred hs;
     hs_countdownTimer := s; hs_gameLoaded := hs_gameLoaded hs;
     hs_countdownTimerId := hs_countdownTimerId hs;
     hs_allowStartTimerId := hs_allowStartTimerId hs;
     hs_gameId := hs_gameId hs; hs_returned := hs_returned hs |}.

Definition set_gameLoaded (s : Settled) (hs : Handshake) : Handshake :=
  {| hs_lobby := hs_lobby hs; hs_deferred := hs_deferred hs;
     hs_countdownTimer := hs_countdownTimer hs; hs_gameLoaded := s;
     hs_countdownTimerId := hs_countdownTimerId hs;
     hs_allowStartTimerId := hs_allowStartTimerId hs;
     hs_gameId := hs_gameId hs; hs_returned := hs_returned hs |}.

Definition set_countdownTimerId (h : Handle) (hs : Handshake) : Handshake :=
  {| hs_lobby := hs_lobby hs; hs_deferred := hs_deferred hs;
     hs_countdownTimer := hs_countdownTimer hs;
     hs_gameLoaded := hs_gameLoaded hs;
     hs_countdownTimerId := h;
     hs_allowStartTimerId := hs_allowStartTimerId hs;
     hs_gameId := hs_gameId hs; hs_returned := hs_returned hs |}.

Definition set_allowStartTimerId (h : Handle) (hs : Handshake)
  : Handshake :=
  {| hs_lobby := hs_lobby hs; hs_deferred := hs_deferred hs;
     hs_countdownTimer := hs_countdownTimer hs;
     hs_gameLoaded := hs_gameLoaded hs;
     hs_countdownTimerId := hs_countdownTimerId hs;
     hs_allowStartTimerId := h;
     hs_gameId := hs_gameId hs; hs_returned := hs_returned hs |}.

Definition set_gameId (g : option GameId) (hs : Handshake) : Handshake :=
  {| hs_lobby := hs_lobby hs; hs_deferred := hs_deferred hs;
     hs_countdownTimer := hs_countdownTimer hs;
     hs_gameLoaded := hs_gameLoaded hs;
     hs_countdownTimerId := hs_countdownTimerId hs;
     hs_allowStartTimerId := hs_allowStartTimerId hs;
     hs_gameId := g; hs_returned := hs_returned hs |}.

Definition set_returned (r : option (option Error)) (hs : Handshake)
  : Handshake :=
  {| hs_lobby := hs_lobby hs; hs_deferred := hs_deferred hs;
     hs_countdownTimer := hs_countdownTimer hs;
     hs_gameLoaded := hs_gameLoaded hs;
     hs_countdownTimerId := hs_countdownTimerId hs;
     hs_allowStartTimerId := hs_allowStartTimerId hs;
     hs_gameId := hs_gameId hs; hs_returned := r |}.

Definition _onGameSetup (lobby : Lobby) (setup : Setup)
    (resultCodes : gmap string string) : M unit :=
  exec modify (set_loadingLobbies
                 (insert (lobby_name lobby) (setup_gameId setup)));
  let players := map slot_name (getHumanSlots lobby) in
  forEach players
    (fun player =>
       _publishToClient lobby player
         (MsgSetupGame setup (resultCodes !! player))).

Definition _onRoutesSet (lobby : Lobby) (playerName routes : string)
    (gameId : GameId) : M unit :=
  _publishToClient lobby playerName (MsgSetRoutes routes gameId).

Definition _onLoadingCanceled (lobby : Lobby) : M unit :=
  exec modify (set_loadingLobbies (delete (lobby_name lobby)));
  exec _publishTo lobby MsgCancelLoading;
  _publishListChange (ListAdd (toSummaryJson lobby)).

Definition _onGameLoaded (lobby : Lobby) : M unit :=
  exec _publishTo lobby MsgGameStarted;
  call active <- gets activeClients;
  let clients := map (fun p => active !! slot_name p) (getHumanSlots lobby) in
  exec forEach clients
    (fun client =>
       call client <- defined client;
       call user <- getUserByName (client_name client);
       exec _publishToUser lobby (user_name user) (MsgStatus None);
       exec emit (UserUnsubscribe (user_name user)
                                  (_getUserPath lobby (user_name user)));
       exec emit (ClientUnsubscribe client (_getPath lobby));
       exec emit (ClientUnsubscribe client (_getClientPath lobby client));
       exec modify (set_lobbyClients (delete client));
       unregisterClientForUser (user_name user));
  exec modify (set_lobbies (delete (lobby_name lobby)));
  modify (set_loadingLobbies (delete (lobby_name lobby))).

(** [gameConfig.teams] *)
Definition gameConfigTeams (lobby : Lobby) : list (list ConfigPlayer) :=
  map (fun team =>
         map (fun s =>
                {| cfg_name := slot_name s; cfg_race := slot_race s;
                   cfg_isComputer :=
                     bool_decide (slot_type s = computer)
                     || bool_decide (slot_type s = umsComputer) |})
             (filter (fun s : Slot =>
                        bool_decide (slot_type s = human)
                        || bool_decide (slot_type s = computer)
                        || bool_decide (slot_type s = umsComputer))
                     (team_slots team)))
      (lobby_teams lobby).

(** The [catch] block: [_maybeCancelCountdown] rejects the deferred
    found in the table, which is the handshake's own when the
    identities agree. *)
Definition rollback (hs : Handshake) : M Handshake :=
  call countdowns <- gets lobbyCountdowns;
  exec _maybeCancelCountdown (hs_lobby hs);
  exec _onLoadingCanceled (hs_lobby hs);
  match countdowns !! lobby_name (hs_lobby hs) with
  | Some countdown =>
      if decide (timer countdown = hs_deferred hs
                 /\ hs_countdownTimer hs = pending)
      then ret (set_countdownTimer rejected hs)
      else ret hs
  | None => ret hs
  end.

Definition clearHandle (name : TimerName) (deferred : nat) (h : Handle)
  : M Handle :=
  match h with
  | unset | cleared => ret h
  | waiting | fired => exec emit (ClearTimeout name deferred); ret cleared
  end.

(** The [finally] block; [thrown] is the error that leaves the
    function, if any. *)
Definition finally (thrown : option Error) (hs : Handshake) : M Handshake :=
  call h1 <- clearHandle countdownTimerId (hs_deferred hs)
                         (hs_countdownTimerId hs);
  call h2 <- clearHandle allowStartTimerId (hs_deferred hs)
                         (hs_allowStartTimerId hs);
  ret (set_returned (Some thrown)
         (set_allowStartTimerId h2 (set_countdownTimerId h1 hs))).

(** [try { body } catch (err) { ... } finally { ... }] around the rest
    of the function; [hs] is the state the [catch] block sees. *)
Definition settle (body : M Handshake) (hs : Handshake) : M Handshake :=
  fun st =>
    match tryCatch body (fun _ => rollback hs) st with
    | (inr hs', st') => finally None hs' st'
    | (inl e, st') => finally (Some e) hs st'
    end.

(** Both promises of [Promise.all] have resolved. *)
Definition loaded (hs : Handshake) : M Handshake :=
  settle (exec _onGameLoaded (hs_lobby hs); ret hs) hs.

(** One of the promises of [Promise.all] has rejected. *)
Definition failed (hs : Handshake) : M Handshake :=
  settle (throw PlainError "rejected") hs.

(** [startCountdown] up to its [await]: the checks, the countdown
    record, and the call of the loader.  [deferred] names the deferred
    made by [createDeferred()]; [loaderThrows] is the error, if any,
    that [gameLoader.loadGame] throws at once.  An error of the checks
    leaves through the caller; after them the call yields a handshake. *)
Definition startCountdown (deferred : nat) (loaderThrows : option Error)
    (socket : SocketId) : M Handshake :=
  call client <- getClient socket;
  call lobby <- getLobbyForClient client;
  call lobby <- defined lobby;
  if negb (hasOpposingSides lobby)
  then throw BadRequest "must have at least 2 opposing sides"
  else
    let player := slotOf (findSlotByName lobby (client_name client)) in
    exec ensureIsLobbyHost lobby player;
    exec ensureLobbyNotTransient lobby;
    exec emit (SetTimeout countdownTimerId deferred 5000);
    exec modify (set_lobbyCountdowns
                   (insert (lobby_name lobby) {| timer := deferred |}));
    exec _publishTo lobby MsgStartCountdown;
    exec _publishListChange (ListDelete (lobby_name lobby));
    let hs :=
      {| hs_lobby := lobby; hs_deferred := deferred;
         hs_countdownTimer := pending; hs_gameLoaded := pending;
         hs_countdownTimerId := waiting; hs_allowStartTimerId := unset;
         hs_gameId := None; hs_returned := None |} in
    fun st =>
      match (call map <- defined (lobby_map lobby);
             exec emit (LoadGame (getHumanSlots lobby) (map_id map)
                                 (gameConfigTeams lobby));
             match loaderThrows with
             | Some e => throwE e
             | None => ret hs
             end) st with
      | (inr hs, st') => (inr hs, st')
      | (inl e, st') => settle (throwE e) hs st'
      end.

(** What happens to a handshake. *)
Inductive HandshakeEvent :=
| CountdownElapsed
| CountdownCancelled
| GameSetup (setup : Setup) (resultCodes : gmap string string)
| RoutesSet (playerName routes : string) (forGameId : GameId)
| GameLoaded
| GameLoadFailed
| AllowStartElapsed.

Definition awaiting (hs : Handshake) : bool :=
  bool_decide (hs_returned hs = None).

(** A callback of the loader: an error it throws leaves through the
    loader and not through [startCountdown]. *)
Definition callback (m : M unit) : M unit :=
  tryCatch m (fun _ => ret tt).

(** The handshake's reaction to an event.
    - [CountdownElapsed]: the 5000 ms timeout fires and resolves
      [countdownTimer]; its [then] callback arms the 2000 ms timeout and
      deletes the countdown record; [Promise.all] resolves if the game
      has loaded.
    - [CountdownCancelled]: [_maybeCancelCountdown], run by some
      command, has rejected [countdownTimer].
    - [GameSetup], [RoutesSet]: the callbacks [onGameSetup] and
      [onRoutesSet].
    - [GameLoaded], [GameLoadFailed]: the promise of the loader settles.
    - [AllowStartElapsed]: the 2000 ms timeout fires. *)
Definition handshakeStep (hs : Handshake) (ev : HandshakeEvent)
  : M Handshake :=
  match ev with
  | CountdownElapsed =>
      match hs_countdownTimerId hs with
      | waiting =>
          let hs := set_countdownTimerId fired hs in
          match hs_countdownTimer hs with
          | pending =>
              let hs := set_countdownTimer resolved hs in
              exec emit (SetTimeout allowStartTimerId (hs_deferred hs) 2000);
              let hs := set_allowStartTimerId waiting hs in
              exec modify (set_lobbyCountdowns
                             (delete (lobby_name (hs_lobby hs))));
              if awaiting hs
                 && bool_decide (hs_gameLoaded hs = resolved)
              then loaded hs else ret hs
          | _ => ret hs
          end
      | _ => ret hs
      end
  | CountdownCancelled =>
      match hs_countdownTimer hs with
      | pending =>
          let hs := set_countdownTimer rejected hs in
          if awaiting hs then failed hs else ret hs
      | _ => ret hs
      end
  | GameSetup setup resultCodes =>
      let hs := set_gameId (setup_gameId setup) hs in
      exec callback (_onGameSetup (hs_lobby hs) setup resultCodes);
      ret hs
  | RoutesSet playerName routes forGameId =>
      let hs := set_gameId (Some forGameId) hs in
      exec callback (_onRoutesSet (hs_lobby hs) playerName routes forGameId);
      ret hs
  | GameLoaded =>
      match hs_gameLoaded hs with
      | pending =>
          let hs := set_gameLoaded resolved hs in
          if awaiting hs
             && bool_decide (hs_countdownTimer hs = resolved)
          then loaded hs else ret hs
      | _ => ret hs
      end
  | GameLoadFailed =>
      match hs_gameLoaded hs with
      | pending =>
          let hs := set_gameLoaded rejected hs in
          if awaiting hs then failed hs else ret hs
      | _ => ret hs
      end
  | AllowStartElapsed =>
      match hs_allowStartTimerId hs with
      | waiting =>
          exec _publishTo (hs_lobby hs) (MsgAllowStart (hs_gameId hs));
          ret (set_allowStartTimerId fired hs)
      | _ => ret hs
      end
  end.

(** A handshake driven through a list of events. *)
Fixpoint handshakeRun (hs : Handshake) (evs : list HandshakeEvent)
  : M Handshake :=
  match evs with
  | [] => ret hs
  | ev :: evs' =>
      call hs' <- handshakeStep hs ev;
      handshakeRun hs' evs'
  end.

End Api.


(** ** A reference implementation of the transition functions *)

Module SampleLobbies.

(** Modelled from the spec: [lobbies/lobby.js] and [lobbies/slot.js] are
    not among the sources.  The definitions below follow section 4.2 of
    the design for lobbies without an observer team (the service creates
    every lobby with [allowObservers = false]); they instantiate
    [LobbyOps] for the concrete runs of this file. *)
Fixpoint tally (n : nat) : string :=
  match n with
  | O => ""
  | S n => "i" +:+ tally n
  end.

(** The [k]-th identifier drawn under [seed]. *)
Definition freshId (seed k : nat) : string :=
  "slot-" +:+ tally seed +:+ "-" +:+ tally k.

Definition emptySlot (type : SlotType) (name id : string) : Slot :=
  {| slot_type := type; slot_name := name; slot_race := "r"; slot_id := id;
     slot_userId := None; slot_hasForcedRace := false;
     slot_playerId := None; slot_controlledBy := None |}.

Definition createOpen (seed k : nat) : Slot :=
  emptySlot open "Open" (freshId seed k).

Definition createClosed (seed k : nat) : Slot :=
  emptySlot closed "Closed" (freshId seed k).

Definition createHuman (seed : nat) (name : string) (userId : N)
    (extra : option (string * bool * option N)) : Slot :=
  {| slot_type := human; slot_name := name;
     slot_race := match extra with Some (r, _, _) => r | None => "r" end;
     slot_id := freshId seed 0; slot_userId := Some userId;
     slot_hasForcedRace :=
       match extra with Some (_, f, _) => f | None => false end;
     slot_playerId := match extra with Some (_, _, p) => p | None => None end;
     slot_controlledBy := None |}.

Definition createObserver (seed : nat) (name : string) : Slot :=
  emptySlot observer name (freshId seed 0).

Definition createComputer (seed : nat) : Slot :=
  emptySlot computer "Computer" (freshId seed 0).

(** [lobby.setIn(['teams', teamIndex, 'slots', slotIndex], slot)] *)
Definition setSlot (l : Lobby) (teamIndex slotIndex : nat) (s : Slot)
  : Lobby :=
  {| lobby_name := lobby_name l; lobby_map := lobby_map l;
     lobby_gameType := lobby_gameType l;
     lobby_gameSubType := lobby_gameSubType l;
     lobby_host := lobby_host l;
     lobby_teams :=
       alter (fun t => {| team_isObserver := team_isObserver t;
                          team_slots := <[slotIndex := s]> (team_slots t) |})
             teamIndex (lobby_teams l) |}.

Definition setHost (l : Lobby) (host : Slot) : Lobby :=
  {| lobby_name := lobby_name l; lobby_map := lobby_map l;
     lobby_gameType := lobby_gameType l;
     lobby_gameSubType := lobby_gameSubType l;
     lobby_host := host; lobby_teams := lobby_teams l |}.

(** The sizes of the teams of a new lobby. *)
Definition teamSizes (gameType : string) (gameSubType : Z) (numSlots : Z)
  : list nat :=
  if decide (gameType = "topVBottom") then
    [Z.to_nat gameSubType; Z.to_nat (numSlots - gameSubType)]
  else if bool_decide (gameType = "teamMelee")
          || bool_decide (gameType = "teamFfa") then
    replicate (Z.to_nat gameSubType) (Z.to_nat (numSlots / gameSubType))
  else [Z.to_nat numSlots].

Fixpoint openTeams (seed k : nat) (sizes : list nat) : list Team :=
  match sizes with
  | [] => []
  | n :: sizes' =>
      {| team_isObserver := false;
         team_slots := map (fun i => createOpen seed (k + i)) (seq 0 n) |}
      :: openTeams seed (k + n) sizes'
  end.

(** The host takes the first slot of the first team. *)
Definition seatHost (host : Slot) (teams : list Team) : list Team :=
  match teams with
  | [] => [{| team_isObserver := false; team_slots := [host] |}]
  | t :: teams' =>
      {| team_isObserver := team_isObserver t;
         team_slots := host :: tail (team_slots t) |} :: teams'
  end.

Definition create (seed : nat) (name : string) (map : MapInfo)
    (gameType : string) (gameSubType : option Z) (numSlots : Z)
    (hostName : string) (hostUserId : N) (allowObservers : bool) : Lobby :=
  let host := createHuman seed hostName hostUserId None in
  {| lobby_name := name; lobby_map := Some map; lobby_gameType := gameType;
     lobby_gameSubType := default 0 gameSubType; lobby_host := host;
     lobby_teams :=
       seatHost host
         (openTeams seed 1
            (teamSizes gameType (default 0 gameSubType) numSlots)) |}.

Definition findAvailableSlot (l : Lobby) : Z * Z * option Slot :=
  match List.find (fun e : nat * nat * Slot =>
                     bool_decide (slot_type e.2 = open)
                     || bool_decide (slot_type e.2 = controlledOpen))
                  (getLobbySlotsWithIndexes l) with
  | Some (teamIndex, slotIndex, slot) =>
      (Z.of_nat teamIndex, Z.of_nat slotIndex, Some slot)
  | None => (-1, -1, None)
  end.

Definition addPlayer (seed : nat) (l : Lobby) (teamIndex slotIndex : nat)
    (player : Slot) : Lobby :=
  setSlot l teamIndex slotIndex player.

(** The removed seat reverts to a fresh open slot; the host moves to the
    first human left; a lobby left without humans is reported empty. *)
Definition removePlayer (seed : nat) (l : Lobby)
    (found : option (nat * nat * Slot)) : option Lobby :=
  let updated :=
    match found with
    | Some (teamIndex, slotIndex, _) =>
        setSlot l teamIndex slotIndex (createOpen seed 1)
    | None => l
    end in
  match getHumanSlots updated with
  | [] => None
  | newHost :: _ =>
      match found with
      | Some (_, _, removed) =>
          if decide (slot_id removed = slot_id (lobby_host l))
          then Some (setHost updated newHost)
          else Some updated
      | None => Some updated
      end
  end.

Definition movePlayerToSlot (seed : nat) (l : Lobby)
    (source : option (nat * nat)) (destTeamIndex destSlotIndex : nat)
  : string + Lobby :=
  match source with
  | None => inl "player not found"
  | Some (sourceTeamIndex, sourceSlotIndex) =>
      match slotAt l sourceTeamIndex sourceSlotIndex,
            slotAt l destTeamIndex destSlotIndex with
      | Some player, Some dest =>
          if bool_decide (slot_type dest = open)
             || bool_decide (slot_type dest = controlledOpen)
          then
            inr (setSlot
                   (setSlot l sourceTeamIndex sourceSlotIndex
                            (createOpen seed 1))
                   destTeamIndex destSlotIndex player)
          else inl "destination slot is not open"
      | _, _ => inl "invalid slot"
      end
  end.

Definition withRace (s : Slot) (race : string) : Slot :=
  {| slot_type := slot_type s; slot_name := slot_name s; slot_race := race;
     slot_id := slot_id s; slot_userId := slot_userId s;
     slot_hasForcedRace := slot_hasForcedRace s;
     slot_playerId := slot_playerId s;
     slot_controlledBy := slot_controlledBy s |}.

Definition setRace (l : Lobby) (teamIndex slotIndex : nat) (race : string)
  : string + Lobby :=
  match slotAt l teamIndex slotIndex with
  | None => inl "invalid slot"
  | Some s =>
      if slot_hasForcedRace s then inl "slot has a forced race"
      else if bool_decide (slot_type s = human)
              || bool_decide (slot_type s = computer)
      then inr (setSlot l teamIndex slotIndex (withRace s race))
      else inl "slot cannot hold a race"
  end.

Definition openSlot (seed : nat) (l : Lobby) (teamIndex slotIndex : nat)
  : string + Lobby :=
  match slotAt l teamIndex slotIndex with
  | Some s =>
      if decide (slot_type s = closed)
      then inr (setSlot l teamIndex slotIndex (createOpen seed 1))
      else inl "trying to open an invalid slot type"
  | None => inl "invalid slot"
  end.

Definition closeSlot (seed : nat) (l : Lobby) (teamIndex slotIndex : nat)
  : string + Lobby :=
  match slotAt l teamIndex slotIndex with
  | Some s =>
      if decide (slot_type s = open)
      then inr (setSlot l teamIndex slotIndex (createClosed seed 1))
      else inl "trying to close an invalid slot type"
  | None => inl "invalid slot"
  end.

Definition makeObserver (seed : nat) (l : Lobby) (teamIndex slotIndex : nat)
  : string + Lobby :=
  inl "Lobby doesn't allow observers".

Definition removeObserver (seed : nat) (l : Lobby) (slotIndex : nat)
  : string + Lobby :=
  inl "Lobby doesn't allow observers".

Definition ops : LobbyOps :=
  Build_LobbyOps
    (fun gameType => bool_decide (gameType = "ums"))
    create findAvailableSlot addPlayer removePlayer movePlayerToSlot
    setRace openSlot closeSlot makeObserver removeObserver
    createHuman createObserver createComputer.

End SampleLobbies.

(** ** Predicates of the statements *)

(** The sub-type [s] is in range for [gameType] on a map of [numSlots]
    slots: 1 to [numSlots - 1] for top-vs-bottom, 2 to [min 4 numSlots]
    for the team modes. *)
Definition subTypeInRange (gameType : string) (s numSlots : Z) : Prop :=
  (gameType = "topVBottom" -> 1 <= s <= numSlots - 1)
  /\ (gameType = "teamMelee" \/ gameType = "teamFfa" ->
      2 <= s <= Z.min 4 numSlots).

#[global] Instance subTypeInRange_dec gameType s numSlots :
  Decision (subTypeInRange gameType s numSlots).
Proof. unfold subTypeInRange. apply _. Defined.

(** The place of an event kind in the order of a diff: the host change,
    the departures, the deleted slots, the created slots, the changes of
    slots that stay. *)
Definition phase (e : DiffEvent) : nat :=
  match e with
  | EvHostChange _ => 0
  | EvKick _ | EvBan _ | EvLeave _ => 1
  | EvSlotDeleted _ _ => 2
  | EvSlotCreate _ _ _ => 3
  | EvSlotChange _ _ _ | EvRaceChange _ _ _ => 4
  end.

Definition isHostChange (e : DiffEvent) : bool :=
  match e with EvHostChange _ => true | _ => false end.

(** [kick], [ban] and [leave] events. *)
Definition isDeparture (e : DiffEvent) : bool :=
  match e with
  | EvKick _ | EvBan _ | EvLeave _ => true
  | _ => false
  end.

(** The event of a departed player, chosen by the name of the player:
    [kick] for the kicked user, [ban] for the banned user, [leave]
    otherwise. *)
Definition departureByName (kickedUser bannedUser : option string)
    (player : Slot) : DiffEvent :=
  if decide (kickedUser = Some (slot_name player)) then EvKick player
  else if decide (bannedUser = Some (slot_name player)) then EvBan player
  else EvLeave player.

(** The choice C4 words: by the id of the departed slot. *)
Definition departureById (kickedHint bannedHint : option string)
    (player : Slot) : DiffEvent :=
  if decide (kickedHint = Some (slot_id player)) then EvKick player
  else if decide (bannedHint = Some (slot_id player)) then EvBan player
  else EvLeave player.

(** The lobby is in a transient state: it has a countdown record or a
    loading entry. *)
Definition countingDown (st : Registry) (lobby : Lobby) : Prop :=
  is_Some (lobbyCountdowns st !! lobby_name lobby).

Definition loading (st : Registry) (lobby : Lobby) : Prop :=
  is_Some (loadingLobbies st !! lobby_name lobby).

(** The error of [ensureLobbyNotTransient] in a transient state. *)
Definition transientRefusal (st : Registry) (lobby : Lobby) : Error :=
  if decide (countingDown st lobby)
  then mkError Conflict "lobby is counting down"
  else mkError Conflict "lobby has already started".

(** What [_maybeCancelCountdown] does to the collaborators. *)
Definition cancelCountdownEffects (st : Registry) (lobby : Lobby)
  : list Effect :=
  match lobbyCountdowns st !! lobby_name lobby with
  | Some countdown =>
      [RejectDeferred (timer countdown);
       Publish (_getPath lobby) MsgCancelCountdown;
       Publish MountBase (ListAdd (toSummaryJson lobby))]
  | None => []
  end.

(** The registry once [_removeClientFromLobby] has run its second half,
    from the deletion of the client in [lobbyClients] on: the client and
    the user are released, the countdown is cancelled if there is one, and
    the loading entry stays. *)
Definition released (lobby : Lobby) (userName : string) (client : Client)
    (st : Registry) : Registry :=
  {| lobbies := lobbies st;
     lobbyClients := delete client (lobbyClients st);
     lobbyBannedUsers := lobbyBannedUsers st;
     lobbyCountdowns := delete (lobby_name lobby) (lobbyCountdowns st);
     loadingLobbies := loadingLobbies st;
     subscribedSockets := subscribedSockets st;
     activeClients := delete userName (activeClients st);
     effects :=
       effects st
       ++ [Publish (_getUserPath lobby userName) (MsgStatus None)]
       ++ cancelCountdownEffects st lobby
       ++ (if decide (loading st lobby)
           then [Publish (_getUserPath lobby userName) MsgCancelLoading]
           else [])
       ++ [UserUnsubscribe userName (_getUserPath lobby userName);
           ClientUnsubscribe client (_getClientPath lobby client);
           ClientUnsubscribe client (_getPath lobby)] |}.

(** The registry once the last human has been removed: the first branch
    of [_removeClientFromLobby]. *)
Definition emptied (lobby : Lobby) (player : option Slot) (st : Registry)
  : Registry :=
  {| lobbies := delete (lobby_name lobby) (lobbies st);
     lobbyClients := lobbyClients st;
     lobbyBannedUsers := delete (lobby_name lobby) (lobbyBannedUsers st);
     lobbyCountdowns := lobbyCountdowns st;
     loadingLobbies := loadingLobbies st;
     subscribedSockets := subscribedSockets st;
     activeClients := activeClients st;
     effects :=
       effects st
       ++ [Publish (_getPath lobby) (MsgLeave player);
           Publish MountBase (ListDelete (lobby_name lobby))] |}.

(** What [_publishLobbyDiff] publishes for a list of events. *)
Definition diffEffects (newLobby : Lobby) (evs : list DiffEvent)
  : list Effect :=
  match evs with
  | [] => []
  | _ => [Publish (_getPath newLobby) (MsgDiff evs)]
  end
  ++ [Publish MountBase (ListUpdate (toSummaryJson newLobby))].

(** What the [finally] block of [startCountdown] does to the timers. *)
Definition clearEffects (hs : Handshake) : list Effect :=
  match hs_countdownTimerId hs with
  | waiting | fired => [ClearTimeout countdownTimerId (hs_deferred hs)]
  | unset | cleared => []
  end
  ++ match hs_allowStartTimerId hs with
     | waiting | fired => [ClearTimeout allowStartTimerId (hs_deferred hs)]
     | unset | cleared => []
     end.

Definition clearedHandle (h : Handle) : Handle :=
  match h with
  | waiting | fired => cleared
  | unset | cleared => h
  end.

(** The handshake once its [finally] block has run. *)
Definition finished (thrown : option Error) (hs : Handshake) : Handshake :=
  set_returned (Some thrown)
    (set_allowStartTimerId (clearedHandle (hs_allowStartTimerId hs))
       (set_countdownTimerId (clearedHandle (hs_countdownTimerId hs)) hs)).

(** The registry once a failure of the handshake has been caught in [st]:
    the countdown is cancelled if there is one, the loading entry is
    cleared, the lobby is put back on the list, the timers are cleared. *)
Definition rolledBack (hs : Handshake) (st : Registry) : Registry :=
  {| lobbies := lobbies st;
     lobbyClients := lobbyClients st;
     lobbyBannedUsers := lobbyBannedUsers st;
     lobbyCountdowns :=
       delete (lobby_name (hs_lobby hs)) (lobbyCountdowns st);
     loadingLobbies := delete (lobby_name (hs_lobby hs)) (loadingLobbies st);
     subscribedSockets := subscribedSockets st;
     activeClients := activeClients st;
     effects :=
       effects st
       ++ cancelCountdownEffects st (hs_lobby hs)
       ++ [Publish (_getPath (hs_lobby hs)) MsgCancelLoading;
           Publish MountBase (ListAdd (toSummaryJson (hs_lobby hs)))]
       ++ clearEffects hs |}.

Definition isCancelCountdown (e : Effect) : bool :=
  match e with
  | Publish _ MsgCancelCountdown => true
  | _ => false
  end.

Definition isAllowStart (e : Effect) : bool :=
  match e with
  | Publish _ (MsgAllowStart _) => true
  | _ => false
  end.

Definition isGameStarted (e : Effect) : bool :=
  match e with
  | Publish _ MsgGameStarted => true
  | _ => false
  end.

(** ** A small world for concrete runs *)

(** ** The service as a transition system *)

(** The lobby has a human slot. *)
Definition hasHuman (l : Lobby) : Prop := getHumanSlots l <> [].

(** What the design (section 4.2) says of the transition functions, as
    far as human slots go: a lobby they return holds a human; a seat
    taken by [addPlayer] or opened, closed or moved to was not a human's;
    [removePlayer] reports the lobby empty when the removed player was the
    only human, and does not when a human stays. *)
Record LobbyLaws (ops : LobbyOps) : Prop := {
  law_create :
    forall seed name map gameType gameSubType numSlots hostName hostUserId
           allowObservers,
      hasHuman (Lobbies_create seed name map gameType gameSubType numSlots
                               hostName hostUserId allowObservers);
  law_findAvailableSlot :
    forall l teamIndex slotIndex available,
      findAvailableSlot l = (teamIndex, slotIndex, available) ->
      0 <= teamIndex -> 0 <= slotIndex ->
      exists s, slotAt l (Z.to_nat teamIndex) (Z.to_nat slotIndex) = Some s
                /\ slot_type s <> human;
  law_addPlayer :
    forall seed l teamIndex slotIndex s player,
      hasHuman l -> slotAt l teamIndex slotIndex = Some s ->
      slot_type s <> human ->
      hasHuman (addPlayer seed l teamIndex slotIndex player);
  law_removePlayer :
    forall seed l found l',
      removePlayer seed l found = Some l' -> hasHuman l';
  law_removePlayer_last :
    forall seed l teamIndex slotIndex player,
      slotAt l teamIndex slotIndex = Some player ->
      getHumanSlots l = [player] ->
      removePlayer seed l (Some (teamIndex, slotIndex, player)) = None;
  law_removePlayer_other :
    forall seed l teamIndex slotIndex player,
      hasHuman l -> slotAt l teamIndex slotIndex = Some player ->
      slot_type player <> human ->
      is_Some (removePlayer seed l (Some (teamIndex, slotIndex, player)));
  law_movePlayerToSlot :
    forall seed l source destTeamIndex destSlotIndex l',
      hasHuman l ->
      movePlayerToSlot seed l source destTeamIndex destSlotIndex = inr l' ->
      hasHuman l';
  law_setRace :
    forall l teamIndex slotIndex race l',
      hasHuman l -> setRace l teamIndex slotIndex race = inr l' ->
      hasHuman l';
  law_openSlot :
    forall seed l teamIndex slotIndex l',
      hasHuman l -> openSlot seed l teamIndex slotIndex = inr l' ->
      hasHuman l';
  law_closeSlot :
    forall seed l teamIndex slotIndex l',
      hasHuman l -> closeSlot seed l teamIndex slotIndex = inr l' ->
      hasHuman l';
  law_makeObserver :
    forall seed l teamIndex slotIndex l',
      hasHuman l -> makeObserver seed l teamIndex slotIndex = inr l' ->
      hasHuman l';
  law_removeObserver :
    forall seed l slotIndex l',
      hasHuman l -> removeObserver seed l slotIndex = inr l' ->
      hasHuman l';
}.

(** Every call the service answers: the API commands, the event handlers
    it installs ([Close] for a closed socket, [ClientGone] for a client
    that went away, [HandshakeEvt] for an event of a pending
    [startCountdown]), and [ActivityChanged] for the other subsystems
    that register and unregister clients in the activity registry. *)
Inductive Command :=
| Subscribe (socket : SocketId)
| Unsubscribe (socket : SocketId)
| Close (socket : SocketId)
| Create (seed : nat) (socket : SocketId) (name map gameType : string)
         (gameSubType : option Z)
| Join (seed : nat) (socket : SocketId) (name : string)
| SendChat (time : Z) (socket : SocketId) (text : JsString)
| AddComputer (seed : nat) (socket : SocketId) (slotId : string)
| ChangeSlot (seed : nat) (socket : SocketId) (slotId : string)
| SetRace (socket : SocketId) (id race : string)
| OpenSlot (seed : nat) (socket : SocketId) (slotId : string)
| CloseSlot (seed : nat) (socket : SocketId) (slotId : string)
| KickPlayer (seed : nat) (socket : SocketId) (slotId : string)
| BanPlayer (seed : nat) (socket : SocketId) (slotId : string)
| MakeObserver (seed : nat) (socket : SocketId) (slotId : string)
| RemoveObserver (seed : nat) (socket : SocketId) (slotId : string)
| Leave (seed : nat) (socket : SocketId)
| ClientGone (seed : nat) (lobbyName userName : string)
| GetLobbyState (socket : SocketId) (lobbyName : string)
| StartCountdown (deferred : nat) (loaderThrows : option Error)
                 (socket : SocketId)
| HandshakeEvt (hs : Handshake) (ev : HandshakeEvent)
| ActivityChanged (active : gmap string Client).

Definition ignore {A} (m : M A) : M unit := exec m; ret tt.

Definition perform {ops : LobbyOps} (sess : Sessions)
    (getMapInfo : string -> option N -> option MapInfo) (c : Command)
  : M unit :=
  match c with
  | Subscribe socket => subscribe socket
  | Unsubscribe socket => unsubscribe socket
  | Close socket => onClose socket
  | Create seed socket name map gameType gameSubType =>
      create sess getMapInfo seed socket name map gameType gameSubType
  | Join seed socket name => join sess getMapInfo seed socket name
  | SendChat time socket text => sendChat sess time socket text
  | AddComputer seed socket slotId => addComputer sess seed socket slotId
  | ChangeSlot seed socket slotId => changeSlot sess seed socket slotId
  | SetRace socket id race => setRaceCommand sess socket id race
  | OpenSlot seed socket slotId => openSlotCommand sess seed socket slotId
  | CloseSlot seed socket slotId => closeSlotCommand sess seed socket slotId
  | KickPlayer seed socket slotId => kickPlayer sess seed socket slotId
  | BanPlayer seed socket slotId => banPlayer sess seed socket slotId
  | MakeObserver seed socket slotId =>
      makeObserverCommand sess seed socket slotId
  | RemoveObserver seed socket slotId =>
      removeObserverCommand sess seed socket slotId
  | Leave seed socket => leave sess seed socket
  | ClientGone seed lobbyName userName =>
      clientGone sess seed lobbyName userName
  | GetLobbyState socket lobbyName =>
      ignore (getLobbyState sess socket lobbyName)
  | StartCountdown deferred loaderThrows socket =>
      ignore (startCountdown sess deferred loaderThrows socket)
  | HandshakeEvt hs ev => ignore (handshakeStep sess hs ev)
  | ActivityChanged active => modify (set_activeClients (fun _ => active))
  end.

(** The registries the service can reach from its initial state, the
    session layer and the maps being what they are at each call. *)
Inductive Reachable {ops : LobbyOps} : Registry -> Prop :=
| reachable_init : Reachable emptyRegistry
| reachable_step st sess getMapInfo c r st' :
    Reachable st ->
    perform sess getMapInfo c st = (r, st') ->
    Reachable st'.

(** Every entry of the lobby table is a lobby with a human slot. *)
Definition humansEverywhere (st : Registry) : Prop :=
  forall name stored,
    lobbies st !! name = Some stored ->
    exists l, stored = Some l /\ hasHuman l.

(** ** Specifications of the computations *)

(** [m] keeps [humansEverywhere], on a result as on an error, and its
    results satisfy [post]. *)
Definition keeps {A} (m : M A) (post : A -> Prop) : Prop :=
  forall st r st',
    humansEverywhere st -> m st = (r, st') ->
    humansEverywhere st' /\ forall a, r = inr a -> post a.

(** [m] leaves the lobby table alone. *)
Definition silent {A} (m : M A) : Prop :=
  forall st r st', m st = (r, st') -> lobbies st' = lobbies st.

(** ** Frames and failures of the computations *)

(** [m] never changes what [f] reads of the registry, whether it returns
    or throws. *)
Definition preserves {A F} (f : Registry -> F) (m : M A) : Prop :=
  forall st r st', m st = (r, st') -> f st' = f st.

(** [m] changes nothing at all. *)
Definition reads {A} (m : M A) : Prop := preserves (fun st => st) m.

(** Every error [m] throws satisfies [P]. *)
Definition failsWith {A} (P : Error -> Prop) (m : M A) : Prop :=
  forall st e st', m st = (inl e, st') -> P e.

(** [m] never throws. *)
Definition faultless {A} (m : M A) : Prop := failsWith (fun _ => False) m.

(** An error of the runtime, as opposed to one the service throws on
    purpose. *)
Definition isTypeError (e : Error) : Prop := err_kind e = TypeError.

(** When [m] throws an error of the service, the registry is what it was
    before [m] ran, the log of effects included. *)
Definition failsClean {A} (m : M A) : Prop :=
  forall st e st', m st = (inl e, st') -> ~ isTypeError e -> st' = st.

(** The commands that have written nothing by the time they throw an
    error of the service: all but [closeSlot], which may have kicked the
    occupant, and [banPlayer], which has extended the ban list. *)
Definition writesLast (c : Command) : bool :=
  match c with
  | CloseSlot _ _ _ | BanPlayer _ _ _ => false
  | _ => true
  end.

(** [m] run [n] times in a row, until it throws. *)
Fixpoint times (n : nat) (m : M unit) : M unit :=
  match n with
  | O => ret tt
  | S n' => exec m; times n' m
  end.

(** No [null] is stored in the table of lobbies. *)
Definition noNullLobby (st : Registry) : Prop :=
  forall name, lobbies st !! name <> Some None.

(** Every list subscription that is held counts at least one
    [subscribe]. *)
Definition countsPositive (st : Registry) : Prop :=
  forall socket sub,
    subscribedSockets st !! socket = Some sub -> 1 <= count sub.

(** The players [_onGameLoaded] can release: each human of the lobby
    has an active client, whose user is online. *)
Definition allPresent (sess : Sessions) (lobby : Lobby) (st : Registry)
  : Prop :=
  forall p,
    p ∈ getHumanSlots lobby ->
    exists client user,
      activeClients st !! slot_name p = Some client
      /\ getByName sess (client_name client) = Some user.

(** The active clients of the humans of a lobby, and the names of the
    users of these clients. *)
Definition clientsOf (lobby : Lobby) (st : Registry) : list Client :=
  omap (fun p => activeClients st !! slot_name p) (getHumanSlots lobby).

Definition usersOf (sess : Sessions) (clients : list Client) : list string :=
  omap (fun c => user_name <$> getByName sess (client_name c)) clients.

(** Whatever [m] does, the calls it adds to the log all satisfy [P], and
    a value it returns satisfies [post]. *)
Definition logs {A} (P : Effect -> Prop) (post : A -> Prop) (m : M A)
  : Prop :=
  forall st r st',
    m st = (r, st') ->
    (exists new, effects st' = effects st ++ new /\ Forall P new)
    /\ forall a, r = inr a -> post a.

(** A call that is neither the [gameStarted] nor the [allowStart]
    message. *)
Definition routine (e : Effect) : Prop :=
  isGameStarted e = false /\ isAllowStart e = false.

(** What a run of the handshake has added to the log of [st]. *)
Definition added (st st' : Registry) : list Effect :=
  drop (length (effects st)) (effects st').

(** The number of [allowStart] messages a handshake may still send: one
    while the 2000 ms timeout is waiting, or while the 5000 ms timeout
    that arms it is waiting for a countdown that is still pending. *)
Definition mayAllowStart (hs : Handshake) : nat :=
  if decide (hs_allowStartTimerId hs = waiting) then 1
  else if decide (hs_countdownTimerId hs = waiting
                  /\ hs_countdownTimer hs = pending) then 1
  else 0.

(** The 2000 ms timeout is armed by the 5000 ms one: they never wait
    together. *)
Definition armedInTurn (hs : Handshake) : Prop :=
  hs_allowStartTimerId hs = waiting -> hs_countdownTimerId hs <> waiting.

(** The two tables that few calls write: the list subscriptions and the
    ban lists. *)
Definition tables (st : Registry) :=
  (subscribedSockets st, lobbyBannedUsers st).

(** Whether it returns or throws, [m] leaves each ban list as it was or
    drops it whole. *)
Definition bansNobody {A} (m : M A) : Prop :=
  forall st r st',
    m st = (r, st') -> lobbyBannedUsers st' ⊆ lobbyBannedUsers st.

Definition isBanPlayer (c : Command) : bool :=
  match c with
  | BanPlayer _ _ _ => true
  | _ => false
  end.

Module Scenario.

Definition aliceUser : User := {| user_name := "alice"; user_userId := 1 |}.
Definition bobUser : User := {| user_name := "bob"; user_userId := 2 |}.

Definition alice : Client :=
  {| client_name := "alice"; client_userId := 1; client_clientId := "a1" |}.
Definition bob : Client :=
  {| client_name := "bob"; client_userId := 2; client_clientId := "b1" |}.

(** Alice and Bob are connected, each on a socket of their own. *)
Definition sessions : Sessions :=
  {| getBySocket := fun socket =>
       if decide (socket = "sock-alice") then Some aliceUser
       else if decide (socket = "sock-bob") then Some bobUser
       else None;
     getByName := fun name =>
       if decide (name = "alice") then Some aliceUser
       else if decide (name = "bob") then Some bobUser
       else None;
     getCurrentClient := fun socket =>
       if decide (socket = "sock-alice") then Some alice
       else if decide (socket = "sock-bob") then Some bob
       else None |}.

(** The same sockets at a moment when [userSockets] no longer knows Bob
    by name. *)
Definition sessionsBobOffline : Sessions :=
  {| getBySocket := getBySocket sessions;
     getByName := fun name =>
       if decide (name = "alice") then Some aliceUser else None;
     getCurrentClient := getCurrentClient sessions |}.

(** One map is known, with four slots. *)
Definition maps (map : string) (userId : option N) : option MapInfo :=
  if decide (map = "lt") then Some {| map_id := "lt"; map_slots := 4 |}
  else None.

Definition state (r : (Error + unit) * Registry) : Registry := r.2.

(** Alice has created the top-vs-bottom lobby "A" (one seat against
    three). *)
Definition created : Registry :=
  state (create (ops := SampleLobbies.ops) sessions maps 1 "sock-alice"
                "A" "lt" "topVBottom" (Some 1) emptyRegistry).

(** The lobby "A" as the table of [created] holds it, Alice alone in
    it. *)
Definition lobbyOfAlice : Lobby :=
  default (SampleLobbies.create 0 "" {| map_id := ""; map_slots := 0 |}
                                "" None 0 "" 0 false)
          (lobbyAt created "A").

(** Bob has joined it. *)
Definition formed : Registry :=
  state (join (ops := SampleLobbies.ops) sessions maps 2 "sock-bob" "A"
              created).

(** The lobby "A" as the table of [formed] holds it. *)
Definition lobbyA : Lobby :=
  default (SampleLobbies.create 0 "" {| map_id := ""; map_slots := 0 |}
                                "" None 0 "" 0 false)
          (lobbyAt formed "A").

Definition aliceSlot : Slot := SampleLobbies.createHuman 1 "alice" 1 None.
Definition bobSlot : Slot := SampleLobbies.createHuman 2 "bob" 2 None.

(** The lobby "A" once Bob has been removed from it. *)
Definition lobbyAWithoutBob : Lobby :=
  default lobbyA
    (SampleLobbies.removePlayer 3 lobbyA (findSlotByName lobbyA "bob")).

(** Alice has started the countdown of "A". *)
Definition countdownStarted : (Error + Handshake) * Registry :=
  startCountdown sessions 7 None "sock-alice" formed.

Definition inCountdown : Registry := countdownStarted.2.

(** The handshake of that call, as it awaits the timer and the loader. *)
Definition handshake : Handshake :=
  {| hs_lobby := lobbyA; hs_deferred := 7;
     hs_countdownTimer := pending; hs_gameLoaded := pending;
     hs_countdownTimerId := waiting; hs_allowStartTimerId := unset;
     hs_gameId := None; hs_returned := None |}.

(** The loader announces the game "g1" to both players. *)
Definition gameSetup : HandshakeEvent :=
  GameSetup {| setup_gameId := Some "g1" |} ∅.

Definition run (evs : list HandshakeEvent) : (Error + Handshake) * Registry :=
  handshakeRun sessions handshake evs inCountdown.

(** The effects of a run, after those of the countdown's start. *)
Definition effectsOf (evs : list HandshakeEvent) : list Effect :=
  drop (length (effects inCountdown)) (effects (run evs).2).
End Scenario.

(** ** Further lobbies for the examples *)

Module Cases.

(** The lobby "A" once Alice has taken the race "z". *)
Definition raced : Lobby :=
  default Scenario.lobbyA
    (match SampleLobbies.setRace Scenario.lobbyA 0 0 "z" with
     | inr l => Some l
     | inl _ => None
     end).

(** The lobby "A" with every team cut down to two slots. *)
Definition shrunk : Lobby :=
  {| lobby_name := lobby_name Scenario.lobbyA;
     lobby_map := lobby_map Scenario.lobbyA;
     lobby_gameType := lobby_gameType Scenario.lobbyA;
     lobby_gameSubType := lobby_gameSubType Scenario.lobbyA;
     lobby_host := lobby_host Scenario.lobbyA;
     lobby_teams :=
       map (fun t => {| team_isObserver := team_isObserver t;
                        team_slots := take 2 (team_slots t) |})
           (lobby_teams Scenario.lobbyA) |}.

End Cases.

(** * Properties *)

(** Splits a conjunction into its parts, and nothing else. *)
Ltac split_all :=
  repeat match goal with |- _ /\ _ => split end.

(** ** Sub-type validation and lobby creation *)

Lemma checkSubTypeValidity_None gameType gameSubType numSlots :
  checkSubTypeValidity gameType gameSubType numSlots = None
  <-> subTypeInRange gameType (default 0 gameSubType) numSlots.
Proof.
  unfold checkSubTypeValidity, subTypeInRange.
  generalize (default 0 gameSubType); intros s.
  repeat case_bool_decide; simpl; subst;
    (split; [intros E; try discriminate E | intros [R1 R2]]);
    try reflexivity.
  all: try (split; intros; try lia; destruct_or?; simplify_eq; lia).
  all: try (specialize (R1 eq_refl); lia).
  all: try (specialize (R2 (or_introl eq_refl)); lia).
  all: try (specialize (R2 (or_intror eq_refl)); lia).
  all: try (split; intros; try lia; destruct_or?; simplify_eq; tauto).
Qed.

Lemma checkSubTypeValidity_Some gameType gameSubType numSlots e :
  checkSubTypeValidity gameType gameSubType numSlots = Some e ->
  e = mkError BadRequest "Invalid game sub-type".
Proof.
  unfold checkSubTypeValidity.
  repeat case_bool_decide; simpl; intros; simplify_eq; reflexivity.
Qed.

Lemma registerActiveClient_kind userName client st st' (e : Error) :
  registerActiveClient userName client st <> (inl e, st').
Proof.
  unfold registerActiveClient. cbn [bind gets].
  destruct (activeClients st !! userName); cbv [ret bind modify]; congruence.
Qed.

(** C8, as the code has it.  [checkSubTypeValidity] throws, and then
    [BadRequest], exactly when the sub-type (0 when absent) is out of range
    for the game type on a map of [numSlots] slots.  For a caller whose
    user and client resolve, [create] fails with [BadRequest] exactly when
    the name is free and either the map is not found or the sub-type is out
    of range for the slots of the map; the registry is then left as it was.
    With the name taken it fails with [Conflict].  In particular a
    [teamMelee] lobby with sub-type 0, on a free name and a known map,
    fails with [BadRequest]. *)
Theorem create_BadRequest_exactly
    (ops : LobbyOps) sess getMapInfo seed socket name map gameType
    gameSubType st user client :
  getBySocket sess socket = Some user ->
  getCurrentClient sess socket = Some client ->
  let outcome :=
    create sess getMapInfo seed socket name map gameType gameSubType st in
  let rejected :=
    lobbies st !! name = None
    /\ match getMapInfo map (Some (user_userId user)) with
       | None => True
       | Some mapInfo =>
           ~ subTypeInRange gameType (default 0 gameSubType)
                            (map_slots mapInfo)
       end in
  (forall numSlots,
     checkSubTypeValidity gameType gameSubType numSlots
     = (if decide (subTypeInRange gameType (default 0 gameSubType) numSlots)
        then None
        else Some (mkError BadRequest "Invalid game sub-type")))
  /\ (rejected -> exists message,
        outcome = (inl (mkError BadRequest message), st))
  /\ (forall e st',
        outcome = (inl e, st') -> err_kind e = BadRequest -> rejected)
  /\ (is_Some (lobbies st !! name) ->
      outcome
      = (inl (mkError Conflict "already another lobby with that name"), st))
  /\ (gameType = "teamMelee" -> default 0 gameSubType = 0 ->
      lobbies st !! name = None ->
      is_Some (getMapInfo map (Some (user_userId user))) ->
      outcome = (inl (mkError BadRequest "Invalid game sub-type"), st)).
Proof.
  intros Hu Hc outcome rejected.
  assert (Hcheck : forall numSlots,
     checkSubTypeValidity gameType gameSubType numSlots
     = (if decide (subTypeInRange gameType (default 0 gameSubType) numSlots)
        then None
        else Some (mkError BadRequest "Invalid game sub-type"))).
  { intros numSlots.
    destruct (decide _) as [Hin | Hout].
    - by apply checkSubTypeValidity_None.
    - destruct (checkSubTypeValidity gameType gameSubType numSlots) as [e|] eqn:E.
      + by rewrite (checkSubTypeValidity_Some _ _ _ _ E).
      + by apply checkSubTypeValidity_None in E. }
  assert (Hout : outcome =
    if decide (is_Some (lobbies st !! name))
    then (inl (mkError Conflict "already another lobby with that name"), st)
    else match getMapInfo map (Some (user_userId user)) with
         | None => (inl (mkError BadRequest "invalid map"), st)
         | Some mapInfo =>
             if decide (subTypeInRange gameType (default 0 gameSubType)
                                       (map_slots mapInfo))
             then outcome
             else (inl (mkError BadRequest "Invalid game sub-type"), st)
         end).
  { subst outcome. unfold create, getUser, getClient.
    rewrite Hu, Hc. cbn [bind ret gets].
    destruct (decide (is_Some (lobbies st !! name))); [reflexivity|].
    destruct (getMapInfo map (Some (user_userId user))) as [mapInfo|];
      [|reflexivity].
    rewrite Hcheck. destruct (decide _); reflexivity. }
  split; [exact Hcheck|].
  split; [|split; [|split]].
  - intros [Hfree Hmap]. rewrite Hout.
    destruct (decide (is_Some (lobbies st !! name))) as [[? Hs]|_];
      [congruence|].
    destruct (getMapInfo map (Some (user_userId user))) as [mapInfo|];
      [|eauto].
    destruct (decide _); [done|eauto].
  - intros e st' Hrun Hkind. subst rejected. rewrite Hout in Hrun.
    destruct (decide (is_Some (lobbies st !! name))) as [Htaken|Hfree].
    { simplify_eq. }
    split; [by apply eq_None_not_Some|].
    destruct (getMapInfo map (Some (user_userId user))) as [mapInfo|] eqn:Em;
      [|done].
    intros Hin. rewrite decide_True in Hrun by done.
    subst outcome. unfold create, getUser, getClient in Hrun.
    rewrite Hu, Hc in Hrun. cbn [bind ret gets] in Hrun.
    rewrite decide_False, Em, Hcheck, decide_True in Hrun by done.
    unfold bind in Hrun.
    destruct (registerActiveClient (user_name user) client st)
      as [[e'|[]] st1] eqn:Er.
    + by apply registerActiveClient_kind in Er.
    + cbv [negb bind modify emit _subscribeClientToLobby
             _publishListChange ret] in Hrun.
      simplify_eq.
    + cbv [negb throw throwE] in Hrun. simplify_eq.
  - intros Htaken. rewrite Hout. by rewrite decide_True.
  - intros -> Hzero Hfree [mapInfo Em]. rewrite Hout.
    rewrite decide_False by (by apply eq_None_not_Some).
    rewrite Em. rewrite decide_False; [done|].
    intros [_ Hr]. specialize (Hr (or_introl eq_refl)). lia.
Qed.

Lemma create_BadRequest_witness :
  create (ops := SampleLobbies.ops) Scenario.sessions Scenario.maps 3
         "sock-alice" "B" "lt" "teamMelee" None Scenario.formed
  = (inl (mkError BadRequest "Invalid game sub-type"), Scenario.formed).
Proof.
  pose proof (create_BadRequest_exactly SampleLobbies.ops Scenario.sessions
                Scenario.maps 3 "sock-alice" "B" "lt" "teamMelee" None
                Scenario.formed Scenario.aliceUser Scenario.alice
                eq_refl eq_refl) as H.
  cbv zeta in H. destruct H as (_ & _ & _ & _ & H).
  apply H; [reflexivity | reflexivity | vm_compute; reflexivity | ].
  vm_compute. eauto.
Defined.

(** C8, as stated, fails on [create]: an unknown map gives [BadRequest]
    although the sub-type 2 is in range for [teamMelee], and a taken
    name gives [Conflict] although the sub-type 0 is out of range. *)
Lemma create_BadRequest_counterexample :
  (create (ops := SampleLobbies.ops) Scenario.sessions Scenario.maps 1
          "sock-alice" "A" "no such map" "teamMelee" (Some 2) emptyRegistry
   = (inl (mkError BadRequest "invalid map"), emptyRegistry)
   /\ subTypeInRange "teamMelee" 2 8)
  /\ (create (ops := SampleLobbies.ops) Scenario.sessions Scenario.maps 1
             "sock-bob" "A" "lt" "teamMelee" (Some 0) Scenario.created
      = (inl (mkError Conflict "already another lobby with that name"),
         Scenario.created)
      /\ ~ subTypeInRange "teamMelee" 0 8).
Proof.
  split; split.
  - vm_compute. reflexivity.
  - split; [discriminate | intros _; lia].
  - vm_compute. reflexivity.
  - intros [_ H]. specialize (H (or_introl eq_refl)). lia.
Qed.

(** ** Lobby list subscriptions *)

Lemma summaries_effects st r st' :
  summaries st = (r, st') -> st' = st.
Proof.
  unfold summaries. cbv [bind gets]. 
  destruct (mapM _ _); cbv [ret undefinedRead throw throwE]; congruence.
Qed.

(** C9.  A connection without a subscription is refused by [unsubscribe]
    with [Conflict].  [subscribe] on a subscribed connection adds one to
    its count and calls no collaborator.  After two calls of [subscribe]
    on a fresh connection the count is 2; one [unsubscribe] lowers it to 1,
    keeps the entry and calls no collaborator; the second [unsubscribe]
    removes the entry and unsubscribes the connection from the list. *)
Theorem subscribe_unsubscribe_refcount (socket : SocketId) (st : Registry) :
  (subscribedSockets st !! socket = None ->
   unsubscribe socket st = (inl (mkError Conflict "not subscribed"), st))
  /\ (forall sub, subscribedSockets st !! socket = Some sub ->
      subscribe socket st
      = (inr tt,
         set_subscribedSockets
           (insert socket {| count := count sub + 1 |}) st))
  /\ (forall st1,
        subscribedSockets st !! socket = None ->
        subscribe socket st = (inr tt, st1) ->
        exists st2 st3 st4,
          subscribe socket st1 = (inr tt, st2)
          /\ subscribedSockets st2 !! socket = Some {| count := 2 |}
          /\ effects st2 = effects st1
          /\ unsubscribe socket st2 = (inr tt, st3)
          /\ subscribedSockets st3 !! socket = Some {| count := 1 |}
          /\ effects st3 = effects st2
          /\ unsubscribe socket st3 = (inr tt, st4)
          /\ subscribedSockets st4 !! socket = None
          /\ effects st4
             = effects st3 ++ [NydusUnsubscribe socket MountBase;
                               SocketRemoveCloseListener socket]).
Proof.
  split; [|split].
  - intros Hnone. unfold unsubscribe. cbv [bind gets]. by rewrite Hnone.
  - intros sub Hsub. unfold subscribe. cbv [bind gets]. rewrite Hsub.
    cbv [modify]. f_equal. destruct st; cbv [set_subscribedSockets]; simpl in *.
    f_equal. apply map_eq; intros k.
    destruct (decide (k = socket)) as [->|Hne].
    + rewrite lookup_alter_eq, lookup_insert_eq, Hsub. reflexivity.
    + rewrite lookup_alter_ne, lookup_insert_ne by done. reflexivity.
  - intros st1 Hnone Hsub1.
    unfold subscribe in Hsub1. cbv [bind gets] in Hsub1. rewrite Hnone in Hsub1.
    destruct (summaries st) as [[e|summary] st0] eqn:Es; [discriminate|].
    apply summaries_effects in Es. subst st0.
    cbv [emit modify] in Hsub1. simpl in Hsub1. simplify_eq.
    eexists _, _, _.
    split; [|split; [|split; [|split; [|split; [|split; [|split; [|split]]]]]]].
    + unfold subscribe. cbv [bind gets]. simpl.
      rewrite lookup_insert_eq. cbv [modify]. reflexivity.
    + simpl. rewrite alter_insert_eq, lookup_insert_eq. reflexivity.
    + reflexivity.
    + unfold unsubscribe. cbv [bind gets]. simpl.
      rewrite alter_insert_eq, lookup_insert_eq. simpl.
      cbv [modify]. reflexivity.
    + simpl. rewrite !alter_insert_eq, lookup_insert_eq. reflexivity.
    + reflexivity.
    + unfold unsubscribe. cbv [bind gets]. simpl.
      rewrite !alter_insert_eq, lookup_insert_eq. simpl.
      cbv [modify emit]. reflexivity.
    + simpl. apply lookup_delete_eq.
    + simpl. rewrite <- app_assoc. reflexivity.
Qed.

Lemma subscribe_unsubscribe_witness :
  exists st1 st2 st3 st4,
    subscribe "sock-bob" Scenario.formed = (inr tt, st1)
    /\ subscribe "sock-bob" st1 = (inr tt, st2)
    /\ unsubscribe "sock-bob" st2 = (inr tt, st3)
    /\ subscribedSockets st3 !! "sock-bob" = Some {| count := 1 |}
    /\ unsubscribe "sock-bob" st3 = (inr tt, st4)
    /\ subscribedSockets st4 !! "sock-bob" = None.
Proof.
  pose (st1 := (subscribe "sock-bob" Scenario.formed).2).
  assert (H1 : subscribe "sock-bob" Scenario.formed = (inr tt, st1))
    by (vm_compute; reflexivity).
  destruct (subscribe_unsubscribe_refcount "sock-bob" Scenario.formed)
    as (_ & _ & H).
  destruct (H st1 eq_refl H1)
    as (st2 & st3 & st4 & H2 & _ & _ & H3 & H4 & _ & H5 & H6 & _).
  exists st1, st2, st3, st4. repeat split; assumption.
Defined.

(** ** Chat *)

(** C10.  For a client that is in a lobby, [sendChat] publishes one [chat]
    message on the channel of the lobby; it carries the name of the client
    and a text of at most 500 code units: the first 500 of a longer text,
    the text itself otherwise. *)
Theorem sendChat_truncates_text
    sess (time : Z) (socket : SocketId) (text : JsString) (st : Registry)
    (client : Client) (name : string) (lobby : Lobby) :
  getCurrentClient sess socket = Some client ->
  lobbyClients st !! client = Some name ->
  lobbies st !! name = Some (Some lobby) ->
  exists sent,
    sendChat sess time socket text st
    = (inr tt,
       add_effects
         [Publish (LobbyPath (lobby_name lobby))
                  (MsgChat time (client_name client) sent)] st)
    /\ (length sent <= 500)%nat
    /\ ((500 < length text)%nat -> sent = take 500 text)
    /\ ((length text <= 500)%nat -> sent = text).
Proof.
  intros Hc Hin Hl.
  exists (if decide (500 < length text)%nat then take 500 text else text).
  split.
  - unfold sendChat, getClient, getLobbyForClient, lobbyAt.
    rewrite Hc. cbv [bind ret gets]. rewrite Hin. rewrite Hl. reflexivity.
  - destruct (decide (500 < length text)%nat) as [Hlong|Hshort].
    + split; [rewrite length_take; lia|]. split; [done|lia].
    + split; [lia|]. split; [lia|done].
Qed.

Lemma sendChat_truncates_witness :
  exists sent,
    sendChat Scenario.sessions 1700000000000 "sock-bob"
             (replicate 501 104%N) Scenario.formed
    = (inr tt,
       add_effects
         [Publish (LobbyPath "A") (MsgChat 1700000000000 "bob" sent)]
         Scenario.formed)
    /\ sent = replicate 500 104%N.
Proof.
  destruct (sendChat_truncates_text Scenario.sessions 1700000000000
              "sock-bob" (replicate 501 104%N) Scenario.formed
              Scenario.bob "A" Scenario.lobbyA)
    as (sent & Hrun & _ & Hlong & _);
    [reflexivity | vm_compute; reflexivity | vm_compute; reflexivity |].
  exists sent. split; [exact Hrun|].
  rewrite Hlong; [vm_compute; reflexivity|].
  rewrite length_replicate. lia.
Defined.

(** ** The diff engine *)

Section CollectFacts.
Context {A B : Type} (f : A -> Res (list B)).

Lemma collect_Forall (P : B -> Prop) l ys :
  collect f l = inr ys ->
  (forall x zs, x ∈ l -> f x = inr zs -> Forall P zs) ->
  Forall P ys.
Proof.
  revert ys. induction l as [|x l IH]; intros ys; simpl.
  - intros [= <-] _. constructor.
  - destruct (f x) as [e|zs] eqn:Ex; [discriminate|].
    destruct (collect f l) as [e|ws]; [discriminate|].
    intros [= <-] Hall. apply Forall_app. split.
    + apply (Hall x); [left | done].
    + apply IH; [done|]. intros y vs Hy. apply Hall. by right.
Qed.

Lemma collect_total l :
  (forall x, x ∈ l -> exists zs, f x = inr zs) ->
  exists ys, collect f l = inr ys.
Proof.
  induction l as [|x l IH]; intros Hall; simpl; [eauto|].
  destruct (Hall x) as [zs ->]; [left|].
  destruct IH as [ws ->]; [|eauto].
  intros y Hy. apply Hall. by right.
Qed.

End CollectFacts.

Lemma StronglySorted_constant {A} (g : A -> nat) (n : nat) (l : list A) :
  Forall (fun x => g x = n) l -> StronglySorted le (map g l).
Proof.
  induction 1 as [|x l Hx Hl IH]; simpl; constructor; [done|].
  apply Forall_forall. intros m Hm.
  apply list_elem_of_fmap in Hm as (y & -> & Hy).
  rewrite Forall_forall in Hl. rewrite Hx, (Hl y); [lia|done].
Qed.

(** *** The slot tables of a lobby *)

Lemma combine_seq_snd {A} (l : list A) start :
  map snd (combine (seq start (length l)) l) = l.
Proof.
  revert start. induction l as [|x l IH]; intros start; simpl; [done|].
  by rewrite IH.
Qed.

Lemma elem_of_combine_seq {A} (l : list A) start i x :
  (i, x) ∈ combine (seq start (length l)) l
  <-> (start <= i)%nat /\ l !! (i - start)%nat = Some x.
Proof.
  revert start. induction l as [|y l IH]; intros start; simpl.
  - rewrite elem_of_nil. split; [done|]. intros [_ H]. done.
  - rewrite elem_of_cons, IH. split.
    + intros [[= -> ->] | [Hle Hl]].
      * split; [lia|]. by replace (start - start)%nat with 0%nat by lia.
      * split; [lia|].
        replace (i - start)%nat with (S (i - S start)) by lia. done.
    + intros [Hle Hl]. destruct (decide (i = start)) as [->|Hne].
      * left. replace (start - start)%nat with 0%nat in Hl by lia.
        simpl in Hl. by simplify_eq.
      * right. split; [lia|].
        replace (i - start)%nat with (S (i - S start)) in Hl by lia. done.
Qed.

Lemma elem_of_indexed {A} (l : list A) i x :
  (i, x) ∈ indexed l <-> l !! i = Some x.
Proof.
  unfold indexed. rewrite elem_of_combine_seq.
  replace (i - 0)%nat with i by lia. split; [by intros [_ ?]|].
  intros H. split; [lia|done].
Qed.

Lemma indexed_snd {A} (l : list A) : map snd (indexed l) = l.
Proof. apply combine_seq_snd. Qed.

(** The slots listed with their coordinates are the slots of the lobby,
    in the same order. *)
Lemma getLobbySlotsWithIndexes_slots l :
  map snd (getLobbySlotsWithIndexes l) = getLobbySlots l.
Proof.
  unfold getLobbySlotsWithIndexes, getLobbySlots.
  rewrite <- (indexed_snd (lobby_teams l)) at 2.
  induction (indexed (lobby_teams l)) as [|[i t] ts IH]; simpl; [done|].
  rewrite map_app, IH. f_equal.
  rewrite map_map. simpl. apply indexed_snd.
Qed.

(** An entry of the list is a slot at its coordinates. *)
Lemma elem_of_getLobbySlotsWithIndexes l teamIndex slotIndex s :
  (teamIndex, slotIndex, s) ∈ getLobbySlotsWithIndexes l
  <-> exists team, lobby_teams l !! teamIndex = Some team
                   /\ team_slots team !! slotIndex = Some s.
Proof.
  unfold getLobbySlotsWithIndexes.
  rewrite list_elem_of_In, in_flat_map. split.
  - intros ([i t] & Hit & Hs). apply list_elem_of_In in Hit, Hs.
    apply elem_of_indexed in Hit. simpl in Hs.
    apply list_elem_of_fmap in Hs as ([j s'] & [= -> -> ->] & Hjs).
    apply elem_of_indexed in Hjs. eauto.
  - intros (team & Ht & Hs). exists (teamIndex, team). split.
    + apply list_elem_of_In. by apply elem_of_indexed.
    + apply list_elem_of_In. simpl. apply list_elem_of_fmap.
      exists (slotIndex, s). split; [done|]. by apply elem_of_indexed.
Qed.

Lemma idSlots_keys l :
  (reverse (map (fun e : nat * nat * Slot => (slot_id e.2, e))
                (getLobbySlotsWithIndexes l))).*1
  = reverse (map slot_id (getLobbySlots l)).
Proof.
  rewrite fmap_reverse. f_equal.
  rewrite <- getLobbySlotsWithIndexes_slots.
  rewrite <- !list_fmap_compose. reflexivity.
Qed.

(** Every id of the lobby has an entry in its table. *)
Lemma idSlots_is_Some l id :
  id ∈ idSet (getLobbySlots l) -> is_Some (idSlots l !! id).
Proof.
  unfold idSet, idSlots. rewrite elem_of_list_to_set. intros Hid.
  apply not_eq_None_Some. intros Hnone.
  apply not_elem_of_list_to_map in Hnone. apply Hnone.
  rewrite idSlots_keys. by apply elem_of_reverse.
Qed.

(** An entry of the table is a slot of the lobby with that id, at its
    coordinates. *)
Lemma idSlots_Some l id teamIndex slotIndex s :
  idSlots l !! id = Some (teamIndex, slotIndex, s) ->
  slot_id s = id
  /\ (teamIndex, slotIndex, s) ∈ getLobbySlotsWithIndexes l.
Proof.
  unfold idSlots. intros H. apply elem_of_list_to_map_2 in H.
  rewrite elem_of_reverse in H.
  apply list_elem_of_fmap in H as (e & Heq & He).
  destruct e as [[ti si] s']. simpl in Heq. simplify_eq. done.
Qed.

Lemma getHumanSlots_subseteq l :
  idSet (getHumanSlots l) ⊆ idSet (getLobbySlots l).
Proof.
  unfold idSet, getHumanSlots. intros id.
  rewrite !elem_of_list_to_set. intros (s & -> & Hs)%list_elem_of_fmap.
  apply list_elem_of_fmap. exists s. split; [done|].
  by apply list_elem_of_filter in Hs as [_ Hs].
Qed.

(** *** The events of a diff *)

Lemma diffEvents_inr old new kicked banned deleted evs :
  diffEvents old new kicked banned deleted = inr evs ->
  exists lefts deleteds createds sames,
    collect (leftEvent old kicked banned) (elements (left old new))
    = inr lefts
    /\ collect (deletedEvent new deleted) (indexed (lobby_teams old))
       = inr deleteds
    /\ collect (createdEvent new) (elements (created old new)) = inr createds
    /\ collect (sameEvent old new) (elements (same old new)) = inr sames
    /\ evs = hostEvents old new ++ lefts ++ deleteds ++ createds ++ sames.
Proof.
  unfold diffEvents.
  destruct (collect (leftEvent _ _ _) _) as [?|lefts]; [discriminate|].
  destruct (collect (deletedEvent _ _) _) as [?|deleteds]; [discriminate|].
  destruct (collect (createdEvent _) _) as [?|createds]; [discriminate|].
  destruct (collect (sameEvent _ _) _) as [?|sames]; [discriminate|].
  intros [= <-]. by eexists _, _, _, _.
Qed.

Lemma hostEvents_phase old new :
  Forall (fun e => phase e = 0%nat) (hostEvents old new)
  /\ (length (hostEvents old new) <= 1)%nat.
Proof.
  unfold hostEvents. destruct (decide _); simpl; split; auto.
Qed.

Lemma leftEvent_phase old kicked banned id evs :
  leftEvent old kicked banned id = inr evs ->
  Forall (fun e => phase e = 1%nat) evs.
Proof.
  unfold leftEvent. destruct (idSlots old !! id) as [[[ti si] p]|];
    [|discriminate].
  repeat destruct (decide _); intros [= <-]; by repeat constructor.
Qed.

Lemma deletedEvent_phase new deleted it evs :
  deletedEvent new deleted it = inr evs ->
  Forall (fun e => phase e = 2%nat) evs.
Proof.
  unfold deletedEvent. destruct (lobby_teams new !! it.1); [|discriminate].
  destruct (decide _); intros [= <-]; by repeat constructor.
Qed.

Lemma createdEvent_phase new id evs :
  createdEvent new id = inr evs ->
  Forall (fun e => phase e = 3%nat) evs.
Proof.
  unfold createdEvent. destruct (idSlots new !! id) as [[[ti si] s]|];
    [|discriminate].
  intros [= <-]; by repeat constructor.
Qed.

Lemma sameEvent_phase old new id evs :
  sameEvent old new id = inr evs ->
  Forall (fun e => phase e = 4%nat) evs.
Proof.
  unfold sameEvent.
  destruct (idSlots old !! id) as [[[oti osi] os]|]; [|discriminate].
  destruct (idSlots new !! id) as [[[nti nsi] ns]|]; [|discriminate].
  destruct (_ && bool_decide (os = ns)); [intros [= <-]; constructor|].
  intros [= <-]. apply Forall_app.
  split; destruct (_ && _); by repeat constructor.
Qed.

(** Without an error the engine needs the new lobby to have a team at
    every team index of the old one. *)
Lemma diffEvents_total old new kicked banned deleted :
  (length (lobby_teams old) <= length (lobby_teams new))%nat ->
  exists evs, diffEvents old new kicked banned deleted = inr evs.
Proof.
  intros Hteams. unfold diffEvents.
  destruct (collect_total (leftEvent old kicked banned)
                          (elements (left old new))) as [lefts ->].
  { intros id Hid. apply elem_of_elements in Hid. unfold left in Hid.
    apply elem_of_difference in Hid as [Hid _].
    apply getHumanSlots_subseteq, idSlots_is_Some in Hid as [[[ti si] p] Hp].
    unfold leftEvent. rewrite Hp. repeat destruct (decide _); eauto. }
  destruct (collect_total (deletedEvent new deleted)
                          (indexed (lobby_teams old))) as [deleteds ->].
  { intros [i t] Hit. apply elem_of_indexed in Hit.
    apply lookup_lt_Some in Hit. unfold deletedEvent. simpl.
    destruct (lookup_lt_is_Some_2 (lobby_teams new) i) as [t' ->]; [lia|].
    destruct (decide _); eauto. }
  destruct (collect_total (createdEvent new)
                          (elements (created old new))) as [createds ->].
  { intros id Hid. apply elem_of_elements in Hid. unfold created in Hid.
    apply elem_of_difference in Hid as [Hid _].
    apply idSlots_is_Some in Hid as [[[ti si] p] Hp].
    unfold createdEvent. rewrite Hp. eauto. }
  destruct (collect_total (sameEvent old new)
                          (elements (same old new))) as [sames ->].
  { intros id Hid. apply elem_of_elements in Hid. unfold same in Hid.
    apply elem_of_intersection in Hid as [Ho Hn].
    apply idSlots_is_Some in Ho as [[[oti osi] os] Ho].
    apply idSlots_is_Some in Hn as [[[nti nsi] ns] Hn].
    unfold sameEvent. rewrite Ho, Hn. destruct (_ && bool_decide (os = ns)); eauto. }
  eauto.
Qed.

(** C3.  The list of events the diff engine builds is ordered by kind:
    the host change (at most one), then the departures ([kick], [ban],
    [leave]), then the [slotDeleted] events, then the [slotCreate] events,
    then the [slotChange] and [raceChange] events; the engine builds a
    list whenever the new lobby has a team at every team index of the
    old one. *)
Theorem diffEvents_fixed_order (old new : Lobby)
    (kicked banned : option string) (deleted : option nat) :
  ((length (lobby_teams old) <= length (lobby_teams new))%nat ->
   exists evs, diffEvents old new kicked banned deleted = inr evs)
  /\ (forall evs,
        diffEvents old new kicked banned deleted = inr evs ->
        StronglySorted le (map phase evs)
        /\ (length (filter isHostChange evs) <= 1)%nat).
Proof.
  split; [apply diffEvents_total|].
  intros evs Hevs.
  apply diffEvents_inr in Hevs
    as (lefts & deleteds & createds & sames & Hl & Hd & Hc & Hs & ->).
  destruct (hostEvents_phase old new) as [Hh Hone].
  apply (collect_Forall _ (fun e => phase e = 1%nat)) in Hl;
    [|eauto using leftEvent_phase].
  apply (collect_Forall _ (fun e => phase e = 2%nat)) in Hd;
    [|eauto using deletedEvent_phase].
  apply (collect_Forall _ (fun e => phase e = 3%nat)) in Hc;
    [|eauto using createdEvent_phase].
  apply (collect_Forall _ (fun e => phase e = 4%nat)) in Hs;
    [|eauto using sameEvent_phase].
  rewrite Forall_forall in Hh, Hl, Hd, Hc, Hs.
  split.
  - rewrite !map_app.
    repeat (apply StronglySorted_app_2;
            [ intros m n;
              rewrite ?elem_of_app, !list_elem_of_fmap;
              intros (x & -> & Hx) Hn;
              repeat destruct Hn as [Hn|Hn];
              destruct Hn as (y & -> & Hy);
              first [rewrite (Hh x Hx) | rewrite (Hl x Hx)
                    | rewrite (Hd x Hx) | rewrite (Hc x Hx)];
              first [rewrite (Hl y Hy) | rewrite (Hd y Hy)
                    | rewrite (Hc y Hy) | rewrite (Hs y Hy)]; lia
            | eapply StronglySorted_constant, Forall_forall; eauto | ]).
    eapply StronglySorted_constant, Forall_forall; eauto.
  - rewrite !filter_app, !length_app.
    assert (Hnone : forall l n, n <> 0%nat ->
              (forall e, e ∈ l -> phase e = n) ->
              length (filter isHostChange l) = 0%nat).
    { intros l n Hn Hall. induction l as [|e l IH]; [done|].
      rewrite filter_cons. destruct (decide (isHostChange e)) as [He|He].
      - specialize (Hall e (list_elem_of_here _ _)).
        destruct e; simpl in *; done || lia.
      - apply IH. intros e' He'. apply Hall. by right. }
    rewrite (Hnone lefts 1%nat), (Hnone deleteds 2%nat),
            (Hnone createds 3%nat), (Hnone sames 4%nat) by (done || lia).
    pose proof (length_filter isHostChange (hostEvents old new)). lia.
Qed.

Lemma filter_phase_other (P : DiffEvent -> bool) (n : nat) (l : list DiffEvent) :
  (forall e, phase e = n -> P e = false) ->
  Forall (fun e => phase e = n) l -> filter P l = [].
Proof.
  intros HP. induction 1 as [|e l He Hl IH]; [done|].
  rewrite filter_cons, IH. rewrite (HP e He). done.
Qed.

Lemma collect_leftEvent old kicked banned ids lefts :
  collect (leftEvent old kicked banned) ids = inr lefts ->
  exists players,
    Forall2 (fun id player =>
               exists teamIndex slotIndex,
                 idSlots old !! id = Some (teamIndex, slotIndex, player))
            ids players
    /\ lefts = map (departureByName kicked banned) players.
Proof.
  revert lefts. induction ids as [|id ids IH]; intros lefts; simpl.
  - intros [= <-]. exists []. split; constructor.
  - unfold leftEvent at 1.
    destruct (idSlots old !! id) as [[[ti si] p]|] eqn:Ep; [|discriminate].
    destruct (collect _ ids) as [?|rest];
      [by repeat destruct (decide _)|].
    destruct (IH rest eq_refl) as (players & Hall & ->).
    intros Hl. exists (p :: players). split; [constructor; eauto|].
    unfold departureByName. simpl.
    repeat destruct (decide _); by simplify_eq.
Qed.

(** C4, as the code has it.  The departures of a diff are the ids of the
    human slots of the old lobby that no slot of the new lobby has.  Each
    of them yields one event, for the player the old lobby holds under
    that id: [kick] when the name of the player is the kicked user, [ban]
    when it is the banned user, [leave] otherwise. *)
Theorem diffEvents_departures (old new : Lobby)
    (kicked banned : option string) (deleted : option nat)
    (evs : list DiffEvent) :
  diffEvents old new kicked banned deleted = inr evs ->
  (forall id,
     id ∈ left old new
     <-> (exists s, s ∈ getHumanSlots old /\ slot_id s = id)
         /\ ~ (exists s, s ∈ getLobbySlots new /\ slot_id s = id))
  /\ exists players,
       Forall2 (fun id player =>
                  exists teamIndex slotIndex,
                    idSlots old !! id = Some (teamIndex, slotIndex, player))
               (elements (left old new)) players
       /\ filter isDeparture evs
          = map (departureByName kicked banned) players.
Proof.
  intros Hevs. split.
  - intros id. unfold left, same, oldSlots, newSlots, oldHumans.
    pose proof (getHumanSlots_subseteq old) as Hsub.
    assert (Hmem : forall ss, id ∈ idSet ss
                              <-> exists s, s ∈ ss /\ slot_id s = id).
    { intros ss. unfold idSet. rewrite elem_of_list_to_set, list_elem_of_fmap.
      split; [intros (s & -> & Hs) | intros (s & Hs & <-)]; eauto. }
    rewrite <- !Hmem, elem_of_difference, elem_of_intersection.
    specialize (Hsub id). tauto.
  - apply diffEvents_inr in Hevs
      as (lefts & deleteds & createds & sames & Hl & Hd & Hc & Hs & ->).
    destruct (hostEvents_phase old new) as [Hh _].
    pose proof Hl as Hl'.
    apply (collect_Forall _ (fun e => phase e = 1%nat)) in Hl';
      [|eauto using leftEvent_phase].
    apply (collect_Forall _ (fun e => phase e = 2%nat)) in Hd;
      [|eauto using deletedEvent_phase].
    apply (collect_Forall _ (fun e => phase e = 3%nat)) in Hc;
      [|eauto using createdEvent_phase].
    apply (collect_Forall _ (fun e => phase e = 4%nat)) in Hs;
      [|eauto using sameEvent_phase].
    apply collect_leftEvent in Hl as (players & Hplayers & ->).
    exists players. split; [done|].
    rewrite !filter_app.
    rewrite (filter_phase_other isDeparture 0 (hostEvents old new)),
            (filter_phase_other isDeparture 2 deleteds),
            (filter_phase_other isDeparture 3 createds),
            (filter_phase_other isDeparture 4 sames);
      try done; try (by intros []).
    rewrite app_nil_r. simpl.
    clear. induction players as [|p players IH]; [done|].
    simpl. rewrite filter_cons, IH.
    unfold departureByName. by repeat destruct (decide _).
Qed.

Lemma diffEvents_fixed_order_witness :
  exists evs,
    diffEvents Scenario.lobbyA Scenario.lobbyAWithoutBob (Some "bob") None
               None = inr evs
    /\ StronglySorted le (map phase evs).
Proof.
  destruct (diffEvents_fixed_order Scenario.lobbyA Scenario.lobbyAWithoutBob
              (Some "bob") None None) as [Htotal Horder].
  destruct Htotal as [evs Hevs]; [vm_compute; lia|].
  exists evs. split; [exact Hevs|]. apply (Horder evs Hevs).
Defined.

Lemma diffEvents_departures_witness :
  exists players,
    Forall2 (fun id player =>
               exists teamIndex slotIndex,
                 idSlots Scenario.lobbyA !! id
                 = Some (teamIndex, slotIndex, player))
            (elements (left Scenario.lobbyA Scenario.lobbyAWithoutBob))
            players
    /\ [EvKick Scenario.bobSlot]
       = map (departureByName (Some "bob") None) players.
Proof.
  destruct (diffEvents_departures Scenario.lobbyA Scenario.lobbyAWithoutBob
              (Some "bob") None None
              [EvKick Scenario.bobSlot;
               EvSlotCreate 1 0 (SampleLobbies.createOpen 3 1)])
    as [_ (players & Hplayers & Hevents)]; [vm_compute; reflexivity|].
  exists players. split; [exact Hplayers | exact Hevents].
Defined.

(** C4, as stated, fails: with Bob's slot id as the kicked hint the
    departure of Bob is reported as [leave], where the choice by id gives
    [kick]. *)
Lemma diffEvents_departures_counterexample :
  getHumanSlots Scenario.lobbyA = [Scenario.aliceSlot; Scenario.bobSlot]
  /\ getHumanSlots Scenario.lobbyAWithoutBob = [Scenario.aliceSlot]
  /\ slot_id Scenario.bobSlot = "slot-ii-"
  /\ diffEvents Scenario.lobbyA Scenario.lobbyAWithoutBob
                (Some "slot-ii-") None None
     = inr [EvLeave Scenario.bobSlot;
            EvSlotCreate 1 0 (SampleLobbies.createOpen 3 1)]
  /\ departureById (Some "slot-ii-") None Scenario.bobSlot
     = EvKick Scenario.bobSlot.
Proof. split_all; vm_compute; reflexivity. Qed.

(** ** Running the blocks of the service *)

Lemma registry_ext (r1 r2 : Registry) :
  lobbies r1 = lobbies r2 ->
  lobbyClients r1 = lobbyClients r2 ->
  lobbyBannedUsers r1 = lobbyBannedUsers r2 ->
  lobbyCountdowns r1 = lobbyCountdowns r2 ->
  loadingLobbies r1 = loadingLobbies r2 ->
  subscribedSockets r1 = subscribedSockets r2 ->
  activeClients r1 = activeClients r2 ->
  effects r1 = effects r2 ->
  r1 = r2.
Proof. destruct r1, r2. simpl. by intros -> -> -> -> -> -> -> ->. Qed.

(** The fields of a registry built by the setters, read from the outside
    in. *)
Ltac read_fields :=
  cbn [lobbies lobbyClients lobbyBannedUsers lobbyCountdowns loadingLobbies
       subscribedSockets activeClients effects
       set_lobbies set_lobbyClients set_lobbyBannedUsers
       set_lobbyCountdowns set_loadingLobbies set_subscribedSockets
       set_activeClients add_effects] in *.

(** Equality of two registries reached from the same one. *)
Ltac registry_eq :=
  apply registry_ext; read_fields; rewrite <- ?app_assoc; cbn [app];
  try reflexivity.

Lemma add_effects_app es1 es2 st :
  add_effects es2 (add_effects es1 st) = add_effects (es1 ++ es2) st.
Proof. registry_eq. Qed.

Lemma add_effects_nil st : add_effects [] st = st.
Proof. registry_eq. by rewrite app_nil_r. Qed.

Lemma publishLobbyDiff_run old new kicked banned deleted st :
  _publishLobbyDiff old new kicked banned deleted st
  = if decide (old = new) then (inr tt, st)
    else match diffEvents old new kicked banned deleted with
         | inl e => (inl e, st)
         | inr evs => (inr tt, add_effects (diffEffects new evs) st)
         end.
Proof.
  unfold _publishLobbyDiff. destruct (decide (old = new)); [done|].
  destruct (diffEvents _ _ _ _ _) as [e|evs]; [done|].
  unfold diffEffects, _publishTo, _publishListChange, when, emit.
  cbv [bind modify ret]. destruct evs as [|ev evs]; simpl.
  - done.
  - by rewrite add_effects_app.
Qed.

Lemma maybeCancelCountdown_run lobby st :
  _maybeCancelCountdown lobby st
  = (inr tt,
     set_lobbyCountdowns (delete (lobby_name lobby))
       (add_effects (cancelCountdownEffects st lobby) st)).
Proof.
  unfold _maybeCancelCountdown, cancelCountdownEffects.
  cbv [bind gets]. destruct (lobbyCountdowns st !! lobby_name lobby) eqn:E.
  - cbv [emit _publishTo _publishListChange modify bind].
    f_equal. registry_eq.
  - cbv [ret]. f_equal. registry_eq.
    + symmetry. by apply delete_id.
    + by rewrite app_nil_r.
Qed.

Lemma removeClientFromLobby_run
    (ops : LobbyOps) sess seed lobby userName removalType st user client :
  getByName sess userName = Some user ->
  activeClients st !! userName = Some client ->
  _removeClientFromLobby sess seed (Some lobby) userName removalType st
  = match removePlayer seed lobby (findSlotByName lobby userName) with
    | None =>
        (inr tt,
         released lobby userName client
           (emptied lobby (slotOf (findSlotByName lobby userName)) st))
    | Some updated =>
        match _publishLobbyDiff lobby updated
                (if decide (removalType = REMOVAL_TYPE_KICK)
                 then Some userName else None)
                (if decide (removalType = REMOVAL_TYPE_BAN)
                 then Some userName else None)
                None
                (set_lobbies (insert (lobby_name lobby) (Some updated)) st)
        with
        | (inl e, st1) => (inl e, st1)
        | (inr _, st1) => (inr tt, released lobby userName client st1)
        end
    end.
Proof.
  intros Hu Hc.
  unfold _removeClientFromLobby, getUserByName, getActiveClientForUser,
    getClientForUser.
  rewrite Hu. cbv [bind gets ret defined]. rewrite Hc.
  destruct (removePlayer seed lobby (findSlotByName lobby userName))
    as [updated|].
  - unfold commit. cbv [modify].
    destruct (_publishLobbyDiff _ _ _ _ _ _) as [[e|[]] st1]; [done|].
    unfold unregisterClientForUser, _publishToUser, emit. cbv [modify].
    rewrite maybeCancelCountdown_run. unfold when. read_fields.
    destruct (decide (is_Some (loadingLobbies st1 !! lobby_name lobby)))
      as [Hl|Hl].
    + rewrite (bool_decide_eq_true_2 _ Hl). cbv [bind modify ret].
      f_equal. unfold released, loading, cancelCountdownEffects.
      rewrite (decide_True _ _ Hl). registry_eq.
    + rewrite (bool_decide_eq_false_2 _ Hl). cbv [bind modify ret].
      f_equal. unfold released, loading, cancelCountdownEffects.
      rewrite (decide_False _ _ Hl). registry_eq.
  - unfold _publishTo, _publishListChange, unregisterClientForUser,
      _publishToUser, emit. cbv [modify].
    rewrite maybeCancelCountdown_run. unfold when. read_fields.
    destruct (decide (is_Some (loadingLobbies st !! lobby_name lobby)))
      as [Hl|Hl].
    + rewrite (bool_decide_eq_true_2 _ Hl). cbv [bind modify ret].
      f_equal. unfold released, emptied, loading, cancelCountdownEffects.
      read_fields. rewrite (decide_True _ _ Hl). registry_eq.
    + rewrite (bool_decide_eq_false_2 _ Hl). cbv [bind modify ret].
      f_equal. unfold released, emptied, loading, cancelCountdownEffects.
      read_fields. rewrite (decide_False _ _ Hl). registry_eq.
Qed.

(** ** Commands on a lobby in a transient state *)

Lemma ensureLobbyNotTransient_refuses lobby st :
  countingDown st lobby \/ loading st lobby ->
  ensureLobbyNotTransient lobby st = (inl (transientRefusal st lobby), st).
Proof.
  unfold ensureLobbyNotTransient, transientRefusal, countingDown, loading.
  cbv [bind gets]. intros Htransient.
  destruct (decide (is_Some (lobbyCountdowns st !! lobby_name lobby)));
    [done|].
  destruct (decide (is_Some (loadingLobbies st !! lobby_name lobby)));
    [done|tauto].
Qed.

Lemma ensureLobbyNotLoading_run lobby st :
  ensureLobbyNotLoading lobby st
  = if decide (loading st lobby)
    then (inl (mkError Conflict "lobby has already started"), st)
    else (inr tt, st).
Proof.
  unfold ensureLobbyNotLoading, loading. cbv [bind gets].
  by destruct (decide _).
Qed.

Lemma ensureIsLobbyHost_kind lobby player st e st' :
  ensureIsLobbyHost lobby player st = (inl e, st') ->
  err_kind e <> Conflict.
Proof.
  unfold ensureIsLobbyHost. destruct player as [p|]; cbv [bind defined ret];
    [destruct (decide _)|]; intros [= <- <-]; done.
Qed.

Lemma mayChangeRace_kind lobby player slot st e st' :
  mayChangeRace lobby player slot st = (inl e, st') ->
  err_kind e <> Conflict.
Proof.
  unfold mayChangeRace. destruct (decide _).
  - apply ensureIsLobbyHost_kind.
  - destruct (truthy _); destruct player as [p|]; cbv [bind defined ret];
      repeat (destruct (decide _) || destruct (negb _)
              || destruct (slot_hasForcedRace _));
      intros [= <- <-]; done.
Qed.

Lemma publishLobbyDiff_kind old new kicked banned deleted st e st' :
  _publishLobbyDiff old new kicked banned deleted st = (inl e, st') ->
  err_kind e = TypeError.
Proof.
  rewrite publishLobbyDiff_run. destruct (decide _); [done|].
  destruct (diffEvents _ _ _ _ _) as [e'|evs] eqn:E; [|done].
  intros [= <- <-]. revert E. unfold diffEvents.
  assert (Hcollect : forall A (f : A -> Res (list DiffEvent)) l e0,
            (forall x e1, f x = inl e1 -> err_kind e1 = TypeError) ->
            collect f l = inl e0 -> err_kind e0 = TypeError).
  { intros A f l e0 Hf. induction l as [|x l IH]; simpl; [done|].
    destruct (f x) as [e1|ys] eqn:Ex.
    - intros [= <-]. eauto.
    - destruct (collect f l); [|done]. intros [= <-]. by apply IH. }
  destruct (collect (leftEvent _ _ _) _) eqn:E1.
  { intros [= <-]. eapply Hcollect; [|exact E1].
    intros id e1. unfold leftEvent.
    destruct (idSlots old !! id) as [[[? ?] ?]|];
      repeat destruct (decide _); by intros [= <-]. }
  destruct (collect (deletedEvent _ _) _) eqn:E2.
  { intros [= <-]. eapply Hcollect; [|exact E2].
    intros it e1. unfold deletedEvent.
    destruct (lobby_teams new !! it.1);
      repeat destruct (decide _); by intros [= <-]. }
  destruct (collect (createdEvent _) _) eqn:E3.
  { intros [= <-]. eapply Hcollect; [|exact E3].
    intros id e1. unfold createdEvent.
    destruct (idSlots new !! id) as [[[? ?] ?]|]; by intros [= <-]. }
  destruct (collect (sameEvent _ _) _) eqn:E4; [|done].
  intros [= <-]. eapply Hcollect; [|exact E4].
  intros id e1. unfold sameEvent.
  destruct (idSlots old !! id) as [[[? ?] ?]|];
    destruct (idSlots new !! id) as [[[? ?] ?]|];
    try destruct (_ && bool_decide (_ = _)); by intros [= <-].
Qed.

(** C1, as the code has it.  Let a client be in a lobby that is counting
    down or loading.
    - [changeSlot] by the client, [join] by anyone, and, when the client is
      the host, [addComputer], [openSlot], [closeSlot], [kickPlayer],
      [banPlayer], [makeObserver] and [removeObserver] are all rejected
      with [Conflict] by [ensureLobbyNotTransient], and the registry stays
      as it was.
    - [startCountdown] by the host is rejected the same way when the
      lobby has two opposing sides; when it has not, the check of the
      sides comes first and rejects it with [BadRequest].  The registry
      stays as it was in both cases.
    - [setRace] is rejected with [Conflict] while the lobby is loading;
      while it is only counting down [setRace] never fails with
      [Conflict].
    - [leave] is not rejected: it first applies the removal (the lobby is
      deleted, or stored anew and its diff published) and then releases
      the client, which cancels the countdown if there is one and leaves
      the loading entry in place. *)
Theorem transient_lobby_commands
    (ops : LobbyOps) (sess : Sessions)
    (getMapInfo : string -> option N -> option MapInfo)
    (seed : nat) (socket : SocketId) (st : Registry)
    (user : User) (client : Client) (name : string) (lobby : Lobby) :
  getBySocket sess socket = Some user ->
  getCurrentClient sess socket = Some client ->
  lobbyClients st !! client = Some name ->
  lobbies st !! name = Some (Some lobby) ->
  countingDown st lobby \/ loading st lobby ->
  (forall slotId,
     changeSlot sess seed socket slotId st
     = (inl (transientRefusal st lobby), st))
  /\ (forall joinerSocket joiner joinerClient,
        getBySocket sess joinerSocket = Some joiner ->
        getCurrentClient sess joinerSocket = Some joinerClient ->
        join sess getMapInfo seed joinerSocket name st
        = (inl (transientRefusal st lobby), st))
  /\ (forall seat slotId,
        findSlotByName lobby (client_name client) = Some seat ->
        slot_id seat.2 = slot_id (lobby_host lobby) ->
        addComputer sess seed socket slotId st
        = (inl (transientRefusal st lobby), st)
        /\ openSlotCommand sess seed socket slotId st
           = (inl (transientRefusal st lobby), st)
        /\ closeSlotCommand sess seed socket slotId st
           = (inl (transientRefusal st lobby), st)
        /\ kickPlayer sess seed socket slotId st
           = (inl (transientRefusal st lobby), st)
        /\ banPlayer sess seed socket slotId st
           = (inl (transientRefusal st lobby), st)
        /\ makeObserverCommand sess seed socket slotId st
           = (inl (transientRefusal st lobby), st)
        /\ removeObserverCommand sess seed socket slotId st
           = (inl (transientRefusal st lobby), st)
        /\ (forall deferred loaderThrows,
              startCountdown sess deferred loaderThrows socket st
              = (inl (if hasOpposingSides lobby
                      then transientRefusal st lobby
                      else mkError BadRequest
                             "must have at least 2 opposing sides"),
                 st)))
  /\ (forall id race,
        (loading st lobby ->
         setRaceCommand sess socket id race st
         = (inl (mkError Conflict "lobby has already started"), st))
        /\ (~ loading st lobby ->
            forall e st',
              setRaceCommand sess socket id race st = (inl e, st') ->
              err_kind e <> Conflict))
  /\ (forall online,
        getByName sess (user_name user) = Some online ->
        activeClients st !! user_name user = Some client ->
        leave sess seed socket st
        = match removePlayer seed lobby
                  (findSlotByName lobby (user_name user)) with
          | None =>
              (inr tt,
               released lobby (user_name user) client
                 (emptied lobby
                    (slotOf (findSlotByName lobby (user_name user))) st))
          | Some updated =>
              match _publishLobbyDiff lobby updated None None None
                      (set_lobbies
                         (insert (lobby_name lobby) (Some updated)) st)
              with
              | (inl e, st1) => (inl e, st1)
              | (inr _, st1) =>
                  (inr tt, released lobby (user_name user) client st1)
              end
          end).
Proof.
  intros Hu Hc Hin Hl Htransient.
  pose proof (ensureLobbyNotTransient_refuses lobby st Htransient) as Hguard.
  assert (Hlobby : getLobbyForClient client st = (inr (Some lobby), st)).
  { unfold getLobbyForClient, lobbyAt. cbv [bind gets]. by rewrite Hin, Hl. }
  split; [|split; [|split; [|split]]].
  - intros slotId. unfold changeSlot, getClient. rewrite Hc.
    cbv [bind ret]. rewrite Hlobby. cbv [defined ret]. by rewrite Hguard.
  - intros joinerSocket joiner joinerClient Hju Hjc.
    unfold join, getUser, getClient. rewrite Hju, Hjc.
    cbv [bind ret gets]. rewrite Hl.
    cbv [defined ret]. by rewrite Hguard.
  - intros [[seatTeam seatSlot] host] slotId Hseat Hhost. simpl in Hhost.
    assert (Hhostcheck :
      ensureIsLobbyHost lobby
        (slotOf (findSlotByName lobby (client_name client))) st
      = (inr tt, st)).
    { rewrite Hseat. unfold ensureIsLobbyHost, slotOf. simpl.
      cbv [bind defined ret]. by rewrite decide_True. }
    repeat split.
    + unfold addComputer, getClient. rewrite Hc. cbv [bind ret].
      rewrite Hlobby. cbv [defined ret]. by rewrite Hhostcheck, Hguard.
    + unfold openSlotCommand, getClient. rewrite Hc. cbv [bind ret].
      rewrite Hlobby. cbv [defined ret]. by rewrite Hhostcheck, Hguard.
    + unfold closeSlotCommand, getUser, getClient. rewrite Hu, Hc.
      cbv [bind ret].
      rewrite Hlobby. cbv [defined ret]. by rewrite Hhostcheck, Hguard.
    + unfold kickPlayer, getUser, getClient. rewrite Hu, Hc. cbv [bind ret].
      rewrite Hlobby. cbv [defined ret]. by rewrite Hhostcheck, Hguard.
    + unfold banPlayer, getClient. rewrite Hc. cbv [bind ret].
      rewrite Hlobby. cbv [defined ret]. by rewrite Hhostcheck, Hguard.
    + unfold makeObserverCommand, getClient. rewrite Hc. cbv [bind ret].
      rewrite Hlobby. cbv [defined ret]. by rewrite Hhostcheck, Hguard.
    + unfold removeObserverCommand, getClient. rewrite Hc. cbv [bind ret].
      rewrite Hlobby. cbv [defined ret]. by rewrite Hhostcheck, Hguard.
    + intros deferred loaderThrows.
      unfold startCountdown, getClient. rewrite Hc. cbv [bind ret].
      rewrite Hlobby. cbv [defined ret].
      destruct (hasOpposingSides lobby); simpl; [|done].
      by rewrite Hhostcheck, Hguard.
  - intros id race. split.
    + intros Hloading. unfold setRaceCommand, getClient. rewrite Hc.
      cbv [bind ret]. rewrite Hlobby. cbv [defined ret].
      rewrite ensureLobbyNotLoading_run. by rewrite decide_True.
    + intros Hnot e st'. unfold setRaceCommand, getClient. rewrite Hc.
      cbv [bind ret]. rewrite Hlobby. cbv [defined ret].
      rewrite ensureLobbyNotLoading_run. rewrite decide_False by done.
      destruct (findSlotById lobby id) as [[[ti si] slot]|];
        [|by intros [= <- <-]].
      destruct (_ && _); [by intros [= <- <-]|].
      destruct (mayChangeRace _ _ _ _) as [[e'|[]] st1] eqn:Emay.
      { intros [= <- <-]. by eapply mayChangeRace_kind. }
      destruct (setRace lobby ti si race) as [message|updated];
        [by intros [= <- <-]|].
      unfold commit. cbv [modify].
      destruct (_publishLobbyDiff _ _ _ _ _ _) as [[e'|[]] st2] eqn:Ediff;
        [|done].
      intros [= <- <-]. apply publishLobbyDiff_kind in Ediff.
      rewrite Ediff. done.
  - intros online Honline Hactive.
    unfold leave, getUser, getActiveClientForUser, getClientForUser.
    rewrite Hu. cbv [bind ret gets]. rewrite Hactive.
    change (getLobbyForClient client st) with (getLobbyForClient client st).
    rewrite Hlobby.
    by rewrite (removeClientFromLobby_run ops sess seed lobby
                  (user_name user) REMOVAL_TYPE_NORMAL st online client).
Qed.

Lemma transient_lobby_commands_witness :
  changeSlot (ops := SampleLobbies.ops) Scenario.sessions 4 "sock-bob"
             "slot-i-iii" Scenario.inCountdown
  = (inl (transientRefusal Scenario.inCountdown Scenario.lobbyA),
     Scenario.inCountdown)
  /\ transientRefusal Scenario.inCountdown Scenario.lobbyA
     = mkError Conflict "lobby is counting down".
Proof.
  split; [|vm_compute; reflexivity].
  destruct (transient_lobby_commands SampleLobbies.ops Scenario.sessions
              Scenario.maps 4 "sock-bob" Scenario.inCountdown
              Scenario.bobUser Scenario.bob "A" Scenario.lobbyA)
    as [Hchange _];
    [reflexivity | reflexivity | vm_compute; reflexivity
    | vm_compute; reflexivity | left; vm_compute; eauto | ].
  exact (Hchange "slot-i-iii").
Defined.

(** C1, as stated, fails: while the lobby counts down, the host's
    [kickPlayer] and [banPlayer] of Bob are rejected with [Conflict] like
    any other command, and nothing is rolled back. *)
Lemma transient_lobby_counterexample :
  countingDown Scenario.inCountdown Scenario.lobbyA
  /\ findSlotById Scenario.lobbyA "slot-ii-" = Some (1%nat, 0%nat, Scenario.bobSlot)
  /\ kickPlayer (ops := SampleLobbies.ops) Scenario.sessions 4 "sock-alice"
                "slot-ii-" Scenario.inCountdown
     = (inl (mkError Conflict "lobby is counting down"),
        Scenario.inCountdown)
  /\ banPlayer (ops := SampleLobbies.ops) Scenario.sessions 4 "sock-alice"
               "slot-ii-" Scenario.inCountdown
     = (inl (mkError Conflict "lobby is counting down"),
        Scenario.inCountdown).
Proof.
  split; [vm_compute; eauto|].
  split_all; vm_compute; reflexivity.
Qed.

(** ** Failing commands *)

(** C2 fails on [banPlayer].  Bob sits in lobby "A" while the session
    layer no longer knows him by name.  The host's [banPlayer] of Bob
    fails with [BadRequest], yet Bob's name has been added to the ban
    list of the lobby; the host's [kickPlayer] of Bob fails the same way
    and changes nothing. *)
Theorem banPlayer_fails_after_banning :
  lobbyBannedUsers Scenario.formed !! "A" = None
  /\ banPlayer (ops := SampleLobbies.ops) Scenario.sessionsBobOffline 4
               "sock-alice" "slot-ii-" Scenario.formed
     = (inl (mkError BadRequest "user not online"),
        set_lobbyBannedUsers (insert "A" ["bob"]) Scenario.formed)
  /\ kickPlayer (ops := SampleLobbies.ops) Scenario.sessionsBobOffline 4
                "sock-alice" "slot-ii-" Scenario.formed
     = (inl (mkError BadRequest "user not online"), Scenario.formed).
Proof. split_all; vm_compute; reflexivity. Qed.

(** ** The countdown and load handshake *)

Lemma onLoadingCanceled_run lobby st :
  _onLoadingCanceled lobby st
  = (inr tt,
     add_effects [Publish (_getPath lobby) MsgCancelLoading;
                  Publish MountBase (ListAdd (toSummaryJson lobby))]
       (set_loadingLobbies (delete (lobby_name lobby)) st)).
Proof.
  unfold _onLoadingCanceled, _publishTo, _publishListChange, emit.
  cbv [bind modify]. f_equal. registry_eq.
Qed.

Lemma finally_run thrown hs st :
  finally thrown hs st
  = (inr (finished thrown hs), add_effects (clearEffects hs) st).
Proof.
  unfold finally, finished, clearEffects, clearHandle.
  destruct (hs_countdownTimerId hs), (hs_allowStartTimerId hs);
    cbv [bind ret emit modify clearedHandle]; f_equal;
    rewrite ?add_effects_app, ?add_effects_nil; reflexivity.
Qed.

(** The [catch] block never throws. *)
Lemma rollback_run hs st :
  exists hs',
    rollback hs st
    = (inr hs',
       add_effects [Publish (_getPath (hs_lobby hs)) MsgCancelLoading;
                    Publish MountBase
                            (ListAdd (toSummaryJson (hs_lobby hs)))]
         (set_loadingLobbies (delete (lobby_name (hs_lobby hs)))
            (set_lobbyCountdowns (delete (lobby_name (hs_lobby hs)))
               (add_effects (cancelCountdownEffects st (hs_lobby hs)) st))))
    /\ hs_lobby hs' = hs_lobby hs
    /\ hs_deferred hs' = hs_deferred hs
    /\ hs_countdownTimerId hs' = hs_countdownTimerId hs
    /\ hs_allowStartTimerId hs' = hs_allowStartTimerId hs
    /\ hs_gameId hs' = hs_gameId hs.
Proof.
  unfold rollback. cbv [bind gets].
  rewrite maybeCancelCountdown_run, onLoadingCanceled_run.
  destruct (lobbyCountdowns st !! lobby_name (hs_lobby hs)) as [countdown|];
    [destruct (decide _)|]; cbv [ret]; eexists; (split; [reflexivity|]);
    repeat split.
Qed.

(** A failure inside the [try] block, caught in [st1]. *)
Lemma settle_caught (body : M Handshake) hs st e st1 :
  body st = (inl e, st1) ->
  exists hs',
    settle body hs st = (inr hs', rolledBack hs st1)
    /\ hs_returned hs' = Some None
    /\ hs_allowStartTimerId hs' = clearedHandle (hs_allowStartTimerId hs)
    /\ hs_countdownTimerId hs' = clearedHandle (hs_countdownTimerId hs).
Proof.
  intros Hbody. unfold settle, tryCatch. rewrite Hbody.
  destruct (rollback_run hs st1) as (hs' & -> & Hlobby & Hd & Hc & Ha & _).
  rewrite finally_run. exists (finished None hs').
  split; [|split; [reflexivity|]].
  - f_equal. unfold rolledBack, clearEffects.
    rewrite Hd, Hc, Ha. registry_eq.
  - unfold finished. simpl. by rewrite Hc, Ha.
Qed.

(** The [try] block ends without a failure, in [st1]. *)
Lemma settle_returned (body : M Handshake) hs st hs1 st1 :
  body st = (inr hs1, st1) ->
  settle body hs st
  = (inr (finished None hs1), add_effects (clearEffects hs1) st1).
Proof.
  intros Hbody. unfold settle, tryCatch. rewrite Hbody.
  apply finally_run.
Qed.

Lemma rolledBack_tables hs st :
  lobbyCountdowns (rolledBack hs st) !! lobby_name (hs_lobby hs) = None
  /\ loadingLobbies (rolledBack hs st) !! lobby_name (hs_lobby hs) = None
  /\ lobbies (rolledBack hs st) = lobbies st.
Proof.
  unfold rolledBack. simpl. by rewrite !lookup_delete_eq.
Qed.




(** ** The grace period before [allowStart] *)

Lemma loaded_returns sess hs st :
  exists hs' st',
    loaded sess hs st = (inr hs', st')
    /\ hs_returned hs' = Some None
    /\ hs_allowStartTimerId hs' = clearedHandle (hs_allowStartTimerId hs)
    /\ (forall st1,
          _onGameLoaded sess (hs_lobby hs) st = (inr tt, st1) ->
          st' = add_effects (clearEffects hs) st1).
Proof.
  unfold loaded.
  destruct (_onGameLoaded sess (hs_lobby hs) st) as [[e|[]] st1] eqn:E.
  - destruct (settle_caught
                (exec _onGameLoaded sess (hs_lobby hs); ret hs) hs st e st1)
      as (hs' & H1 & H2 & H3 & _).
    { cbv [bind]. by rewrite E. }
    exists hs', (rolledBack hs st1). repeat split; try done.
  - rewrite (settle_returned _ hs st hs st1).
    + eexists _, _. split; [reflexivity|]. repeat split.
      by intros st2 [= <-].
    + cbv [bind ret]. by rewrite E.
Qed.

(** C7, as the code has it.  When the 5000 ms timeout fires on a waiting
    handshake, a timeout of 2000 ms is armed and the countdown record is
    deleted.  When that timeout fires, [allowStart] is published to the
    lobby with the game id known then.  When the handshake ends first,
    by success or by failure, its [finally] block clears the timeout, and
    the timeout publishes nothing afterwards. *)
Theorem allowStart_after_grace
    (sess : Sessions) (hs : Handshake) (st : Registry) :
  (hs_countdownTimerId hs = waiting ->
   hs_countdownTimer hs = pending ->
   hs_gameLoaded hs = pending ->
   handshakeStep sess hs CountdownElapsed st
   = (inr (set_allowStartTimerId waiting
             (set_countdownTimer resolved (set_countdownTimerId fired hs))),
      set_lobbyCountdowns (delete (lobby_name (hs_lobby hs)))
        (add_effects [SetTimeout allowStartTimerId (hs_deferred hs) 2000]
                     st)))
  /\ (hs_allowStartTimerId hs = waiting ->
      handshakeStep sess hs AllowStartElapsed st
      = (inr (set_allowStartTimerId fired hs),
         add_effects
           [Publish (_getPath (hs_lobby hs)) (MsgAllowStart (hs_gameId hs))]
           st))
  /\ (hs_allowStartTimerId hs <> waiting ->
      handshakeStep sess hs AllowStartElapsed st = (inr hs, st))
  /\ (exists hs' st',
        loaded sess hs st = (inr hs', st')
        /\ hs_returned hs' = Some None
        /\ hs_allowStartTimerId hs' <> waiting
        /\ forall st2,
             handshakeStep sess hs' AllowStartElapsed st2 = (inr hs', st2))
  /\ (exists hs' st',
        failed hs st = (inr hs', st')
        /\ hs_allowStartTimerId hs' <> waiting
        /\ forall st2,
             handshakeStep sess hs' AllowStartElapsed st2 = (inr hs', st2)).
Proof.
  assert (Hidle : forall hs' st2,
            hs_allowStartTimerId hs' <> waiting ->
            handshakeStep sess hs' AllowStartElapsed st2 = (inr hs', st2)).
  { intros hs' st2 Hnot. simpl.
    by destruct (hs_allowStartTimerId hs'). }
  assert (Hcleared : forall h, clearedHandle h <> waiting)
    by (by intros []).
  split; [|split; [|split; [|split]]].
  - intros Hid Htimer Hloaded. simpl. rewrite Hid. simpl. rewrite Htimer.
    simpl. rewrite Hloaded.
    rewrite (bool_decide_eq_false_2 (pending = resolved)) by done.
    rewrite andb_false_r. reflexivity.
  - intros Hid. simpl. rewrite Hid. reflexivity.
  - apply Hidle.
  - destruct (loaded_returns sess hs st) as (hs' & st' & H1 & H2 & H3 & _).
    exists hs', st'. repeat split; try done.
    + rewrite H3. apply Hcleared.
    + intros st2. apply Hidle. rewrite H3. apply Hcleared.
  - unfold failed.
    destruct (settle_caught (throw PlainError "rejected") hs st
                (mkError PlainError "rejected") st eq_refl)
      as (hs' & H1 & H2 & H3 & _).
    exists hs', (rolledBack hs st). repeat split; try done.
    + rewrite H3. apply Hcleared.
    + intros st2. apply Hidle. rewrite H3. apply Hcleared.
Qed.

Lemma allowStart_after_grace_witness :
  exists hs1 st1,
    Scenario.run [CountdownElapsed; Scenario.gameSetup] = (inr hs1, st1)
    /\ handshakeStep Scenario.sessions hs1 AllowStartElapsed st1
       = (inr (set_allowStartTimerId fired hs1),
          add_effects [Publish (LobbyPath "A") (MsgAllowStart (Some "g1"))]
                      st1).
Proof.
  pose (r := Scenario.run [CountdownElapsed; Scenario.gameSetup]).
  pose (hs1 := match r.1 with inr h => h | inl _ => Scenario.handshake end).
  exists hs1, r.2.
  split; [vm_compute; reflexivity|].
  destruct (allowStart_after_grace Scenario.sessions hs1 r.2)
    as (_ & Hfire & _).
  apply Hfire. vm_compute. reflexivity.
Defined.

(** C7, as stated, fails: the game loads within the grace period, the
    handshake succeeds ([gameStarted] is published and the lobby leaves
    the table), the 2000 ms timeout is cleared, and no [allowStart] is
    ever published, whether the loader or the countdown finishes first. *)
Lemma allowStart_after_grace_counterexample :
  (match (Scenario.run [CountdownElapsed; GameLoaded; AllowStartElapsed]).1
   with
   | inr hs' => hs_returned hs' = Some None
   | inl _ => False
   end
   /\ lobbies (Scenario.run [CountdownElapsed; GameLoaded;
                              AllowStartElapsed]).2 !! "A" = None
   /\ existsb isGameStarted
        (Scenario.effectsOf [CountdownElapsed; GameLoaded;
                              AllowStartElapsed]) = true
   /\ existsb isAllowStart
        (Scenario.effectsOf [CountdownElapsed; GameLoaded;
                              AllowStartElapsed]) = false)
  /\ existsb isGameStarted
       (Scenario.effectsOf [GameLoaded; CountdownElapsed;
                             AllowStartElapsed]) = true
  /\ existsb isAllowStart
       (Scenario.effectsOf [GameLoaded; CountdownElapsed;
                             AllowStartElapsed]) = false.
Proof. split_all; vm_compute; reflexivity. Qed.

(** ** A lobby is never left without a human *)

Section Keeps.
Context {A B : Type}.

Lemma keeps_ret (a : A) (post : A -> Prop) : post a -> keeps (ret a) post.
Proof. intros Ha st r st' Hinv [= <- <-]. split; [done|]. by intros ? [= <-]. Qed.

Lemma keeps_throwE (e : Error) (post : A -> Prop) : keeps (throwE e) post.
Proof. intros st r st' Hinv [= <- <-]. split; [done|]. by intros ? [=]. Qed.

Lemma keeps_throw k msg (post : A -> Prop) : keeps (throw k msg) post.
Proof. apply keeps_throwE. Qed.

Lemma keeps_bind (m : M A) (k : A -> M B) (mid : A -> Prop)
    (post : B -> Prop) :
  keeps m mid -> (forall a, mid a -> keeps (k a) post) ->
  keeps (bind m k) post.
Proof.
  intros Hm Hk st r st' Hinv. unfold bind.
  destruct (m st) as [[e|a] st1] eqn:Em.
  - intros [= <- <-]. destruct (Hm _ _ _ Hinv Em) as [Hinv1 _].
    split; [done|]. by intros ? [=].
  - intros Hrun. destruct (Hm _ _ _ Hinv Em) as [Hinv1 Hmid].
    apply (Hk a (Hmid a eq_refl) st1 r st' Hinv1 Hrun).
Qed.

Lemma keeps_weaken (m : M A) (post post' : A -> Prop) :
  keeps m post -> (forall a, post a -> post' a) -> keeps m post'.
Proof.
  intros Hm Himp st r st' Hinv Hrun.
  destruct (Hm _ _ _ Hinv Hrun) as [Hinv' Hpost]. split; [done|]. eauto.
Qed.

Lemma silent_keeps (m : M A) : silent m -> keeps m (fun _ => True).
Proof.
  intros Hm st r st' Hinv Hrun. split; [|done].
  unfold humansEverywhere. rewrite (Hm _ _ _ Hrun). exact Hinv.
Qed.

Lemma silent_ret (a : A) : silent (ret a).
Proof. by intros st r st' [= <- <-]. Qed.

Lemma silent_throwE (e : Error) : silent (throwE (A := A) e).
Proof. by intros st r st' [= <- <-]. Qed.

Lemma silent_throw k msg : silent (throw (A := A) k msg).
Proof. apply silent_throwE. Qed.

Lemma silent_gets (f : Registry -> A) : silent (gets f).
Proof. by intros st r st' [= <- <-]. Qed.

Lemma silent_bind (m : M A) (k : A -> M B) :
  silent m -> (forall a, silent (k a)) -> silent (bind m k).
Proof.
  intros Hm Hk st r st'. unfold bind.
  destruct (m st) as [[e|a] st1] eqn:Em.
  - intros [= <- <-]. eauto.
  - intros Hrun. rewrite (Hk _ _ _ _ Hrun). eauto.
Qed.

Lemma silent_tryCatch (m : M A) (h : Error -> M A) :
  silent m -> (forall e, silent (h e)) -> silent (tryCatch m h).
Proof.
  intros Hm Hh st r st'. unfold tryCatch.
  destruct (m st) as [[e|a] st1] eqn:Em.
  - intros Hrun. rewrite (Hh _ _ _ _ Hrun). eauto.
  - intros [= <- <-]. eauto.
Qed.

(** What [gets] returns was read in a registry that satisfies the
    invariant. *)
Lemma keeps_gets (f : Registry -> A) :
  keeps (gets f) (fun a => exists st, humansEverywhere st /\ a = f st).
Proof.
  intros st r st' Hinv [= <- <-]. split; [done|].
  intros a [= <-]. eauto.
Qed.

End Keeps.

Lemma silent_modify (f : Registry -> Registry) :
  (forall st, lobbies (f st) = lobbies st) -> silent (modify f).
Proof. intros Hf st r st' [= <- <-]. apply Hf. Qed.

Lemma silent_emit e : silent (emit e).
Proof. by apply silent_modify. Qed.

Lemma silent_when b m : silent m -> silent (when b m).
Proof. intros Hm. destruct b; [done|apply silent_ret]. Qed.

Lemma silent_forEach {A} (l : list A) (f : A -> M unit) :
  (forall x, silent (f x)) -> silent (forEach l f).
Proof.
  intros Hf. induction l as [|x l IH]; simpl; [apply silent_ret|].
  apply silent_bind; auto.
Qed.

Lemma silent_defined {A} (o : option A) : silent (defined o).
Proof. destruct o; [apply silent_ret | apply silent_throw]. Qed.

(** A valid lobby stored under a name. *)
Lemma keeps_store name l :
  hasHuman l ->
  keeps (modify (set_lobbies (insert name (Some l)))) (fun _ => True).
Proof.
  intros Hl st r st' Hinv [= <- <-]. split; [|done].
  intros n stored. simpl. rewrite lookup_insert.
  destruct (decide (name = n)); [|apply Hinv].
  intros [= <-]. eauto.
Qed.

Lemma keeps_delete name :
  keeps (modify (set_lobbies (delete name))) (fun _ => True).
Proof.
  intros st r st' Hinv [= <- <-]. split; [|done].
  intros n stored. simpl. rewrite lookup_delete.
  destruct (decide (name = n)); [done|apply Hinv].
Qed.

Create HintDb silent.

(** Solves [silent] goals by the structure of the program; the lemmas of
    the functions already treated are in the database [silent]. *)
Ltac silence :=
  repeat first
    [ solve [auto 1 with silent nocore]
    | apply silent_ret | apply silent_throw | apply silent_throwE
    | apply silent_gets | apply silent_emit | apply silent_defined
    | apply silent_when | apply silent_forEach; intros
    | apply silent_tryCatch; [|intros]
    | apply silent_modify; reflexivity
    | apply silent_bind; [|intros]
    | match goal with
      | |- silent (match ?x with _ => _ end) => destruct x
      | |- silent (if ?b then _ else _) => destruct b
      end ].

Section SilentParts.
Context {ops : LobbyOps} (sess : Sessions).

Lemma silent_getUser socket : silent (getUser sess socket).
Proof. unfold getUser. silence. Qed.

Lemma silent_getUserByName name : silent (getUserByName sess name).
Proof. unfold getUserByName. silence. Qed.

Lemma silent_getClient socket : silent (getClient sess socket).
Proof. unfold getClient. silence. Qed.

Lemma silent_getClientForUser name : silent (getClientForUser name).
Proof. unfold getClientForUser. silence. Qed.

Lemma silent_getActiveClientForUser name :
  silent (getActiveClientForUser name).
Proof. unfold getActiveClientForUser, getClientForUser. silence. Qed.

Lemma silent_registerActiveClient name client :
  silent (registerActiveClient name client).
Proof. unfold registerActiveClient. silence. Qed.

Lemma silent_unregisterClientForUser name :
  silent (unregisterClientForUser name).
Proof. unfold unregisterClientForUser. silence. Qed.

Lemma silent_getLobbyForClient client : silent (getLobbyForClient client).
Proof. unfold getLobbyForClient. silence. Qed.

Lemma silent_ensureIsLobbyHost lobby player :
  silent (ensureIsLobbyHost lobby player).
Proof. unfold ensureIsLobbyHost. silence. Qed.

Lemma silent_ensureLobbyNotLoading lobby :
  silent (ensureLobbyNotLoading lobby).
Proof. unfold ensureLobbyNotLoading. silence. Qed.

Lemma silent_ensureLobbyNotTransient lobby :
  silent (ensureLobbyNotTransient lobby).
Proof. unfold ensureLobbyNotTransient. silence. Qed.

Lemma silent_publishListChange m : silent (_publishListChange m).
Proof. unfold _publishListChange. silence. Qed.

Lemma silent_publishTo lobby m : silent (_publishTo lobby m).
Proof. unfold _publishTo. silence. Qed.

Lemma silent_publishToUser lobby name m :
  silent (_publishToUser lobby name m).
Proof. unfold _publishToUser. silence. Qed.

Lemma silent_publishToClient lobby name m :
  silent (_publishToClient lobby name m).
Proof.
  unfold _publishToClient, getActiveClientForUser, getClientForUser.
  silence.
Qed.

Lemma silent_publishLobbyDiff old new kicked banned deleted :
  silent (_publishLobbyDiff old new kicked banned deleted).
Proof.
  intros st r st'. rewrite publishLobbyDiff_run.
  destruct (decide _); [by intros [= <- <-]|].
  destruct (diffEvents _ _ _ _ _); by intros [= <- <-].
Qed.

Lemma silent_maybeCancelCountdown lobby : silent (_maybeCancelCountdown lobby).
Proof.
  intros st r st'. rewrite maybeCancelCountdown_run. by intros [= <- <-].
Qed.

Lemma silent_subscribeClientToLobby lobby user client :
  silent (_subscribeClientToLobby lobby user client).
Proof. unfold _subscribeClientToLobby. silence. Qed.

Lemma silent_summaries : silent summaries.
Proof. unfold summaries. silence. Qed.

Lemma silent_subscribe socket : silent (subscribe socket).
Proof. unfold subscribe. pose proof silent_summaries. silence. Qed.

Lemma silent_unsubscribe socket : silent (unsubscribe socket).
Proof. unfold unsubscribe. silence. Qed.

Lemma silent_onClose socket : silent (onClose socket).
Proof. unfold onClose. silence. Qed.

Lemma silent_sendChat time socket text : silent (sendChat sess time socket text).
Proof.
  unfold sendChat.
  pose proof silent_getClient. pose proof silent_getLobbyForClient.
  pose proof silent_publishTo. silence.
Qed.

Lemma silent_getLobbyState socket name :
  silent (getLobbyState sess socket name).
Proof. unfold getLobbyState. pose proof silent_getClient. silence. Qed.

Lemma silent_mayChangeRace lobby player slot :
  silent (mayChangeRace lobby player slot).
Proof. unfold mayChangeRace. pose proof silent_ensureIsLobbyHost. silence. Qed.

Lemma silent_joiningPlayer seed lobby client available :
  silent (joiningPlayer seed lobby client available).
Proof. unfold joiningPlayer. silence. Qed.

Lemma silent_onGameSetup lobby setup codes :
  silent (_onGameSetup lobby setup codes).
Proof. unfold _onGameSetup. pose proof silent_publishToClient. silence. Qed.

Lemma silent_onRoutesSet lobby player routes gameId :
  silent (_onRoutesSet lobby player routes gameId).
Proof. unfold _onRoutesSet. apply silent_publishToClient. Qed.

Lemma silent_onLoadingCanceled lobby : silent (_onLoadingCanceled lobby).
Proof.
  unfold _onLoadingCanceled.
  pose proof silent_publishTo. pose proof silent_publishListChange. silence.
Qed.

Lemma silent_rollback hs : silent (rollback hs).
Proof.
  unfold rollback.
  pose proof silent_maybeCancelCountdown. pose proof silent_onLoadingCanceled.
  silence.
Qed.

Lemma silent_finally thrown hs : silent (finally thrown hs).
Proof. unfold finally, clearHandle. silence. Qed.

Lemma silent_settle (body : M Handshake) hs :
  silent body -> silent (settle body hs).
Proof.
  intros Hbody st r st'. unfold settle.
  destruct (tryCatch body _ st) as [[e|hs'] st1] eqn:E; intros Hfin.
  - rewrite (silent_finally _ _ _ _ _ Hfin).
    revert E. apply silent_tryCatch; [done|]. intros. apply silent_rollback.
  - rewrite (silent_finally _ _ _ _ _ Hfin).
    revert E. apply silent_tryCatch; [done|]. intros. apply silent_rollback.
Qed.

Lemma silent_startCountdown deferred loaderThrows socket :
  silent (startCountdown sess deferred loaderThrows socket).
Proof.
  unfold startCountdown.
  pose proof silent_getClient. pose proof silent_getLobbyForClient.
  pose proof silent_ensureIsLobbyHost.
  pose proof silent_ensureLobbyNotTransient.
  pose proof silent_publishTo. pose proof silent_publishListChange.
  apply silent_bind; [done|intros client].
  apply silent_bind; [done|intros lobby].
  apply silent_bind; [apply silent_defined|intros lobby'].
  destruct (negb _); [apply silent_throw|].
  repeat (apply silent_bind; [silence|intros ?]).
  intros st r st'.
  destruct (bind _ _ st) as [[e|hs] st1] eqn:E.
  - intros Hsettle.
    rewrite (silent_settle _ _ (silent_throwE e) _ _ _ Hsettle).
    revert E. silence.
  - intros [= <- <-]. revert E. silence.
Qed.

End SilentParts.

Lemma find_elem_of {A} (f : A -> bool) (l : list A) (x : A) :
  List.find f l = Some x -> x ∈ l /\ f x = true.
Proof.
  intros H. apply find_some in H as [Hin Hf]. split; [|done].
  by apply list_elem_of_In.
Qed.

Lemma findSlotById_slotAt l id teamIndex slotIndex s :
  findSlotById l id = Some (teamIndex, slotIndex, s) ->
  slotAt l teamIndex slotIndex = Some s.
Proof.
  unfold findSlotById. intros [Hin _]%find_elem_of.
  apply elem_of_getLobbySlotsWithIndexes in Hin as (team & Ht & Hs).
  unfold slotAt. rewrite Ht. exact Hs.
Qed.

Lemma findSlotByName_slotAt l name teamIndex slotIndex s :
  findSlotByName l name = Some (teamIndex, slotIndex, s) ->
  slotAt l teamIndex slotIndex = Some s.
Proof.
  unfold findSlotByName. intros [Hin _]%find_elem_of.
  apply elem_of_getLobbySlotsWithIndexes in Hin as (team & Ht & Hs).
  unfold slotAt. rewrite Ht. exact Hs.
Qed.

Lemma hasHuman_set_map l m : hasHuman l -> hasHuman (set_map l m).
Proof. done. Qed.

(** A step that leaves the lobby table alone, then the rest. *)
Ltac quiet :=
  eapply keeps_bind; [apply silent_keeps; solve [silence] | intros ? _].

(** A step with a lemma of its own, then the rest. *)
Ltac step lemma :=
  eapply keeps_bind; [apply lemma | intros ? ?].

Section KeepsParts.
Context {ops : LobbyOps} (laws : LobbyLaws ops).
Context (sess : Sessions).
Context (getMapInfo : string -> option N -> option MapInfo).

#[local] Hint Resolve silent_getUser silent_getUserByName silent_getClient
  silent_getClientForUser silent_getActiveClientForUser
  silent_registerActiveClient silent_unregisterClientForUser
  silent_getLobbyForClient silent_ensureIsLobbyHost
  silent_ensureLobbyNotLoading silent_ensureLobbyNotTransient
  silent_publishListChange silent_publishTo silent_publishToUser
  silent_publishToClient silent_publishLobbyDiff
  silent_maybeCancelCountdown silent_subscribeClientToLobby
  silent_mayChangeRace silent_joiningPlayer : silent.

Lemma keeps_lobbyAt name :
  keeps (gets (fun st => lobbyAt st name))
        (fun o => forall l, o = Some l -> hasHuman l).
Proof.
  eapply keeps_weaken; [apply keeps_gets|].
  intros o (st & Hinv & ->) l Hl. unfold lobbyAt in Hl.
  destruct (lobbies st !! name) as [stored|] eqn:E; [|done].
  destruct (Hinv _ _ E) as (l' & -> & Hh). simpl in Hl. by simplify_eq.
Qed.

Lemma keeps_getLobbyForClient client :
  keeps (getLobbyForClient client)
        (fun o => forall l, o = Some l -> hasHuman l).
Proof.
  unfold getLobbyForClient. quiet.
  destruct (_ !! client); [apply keeps_lobbyAt | apply keeps_throw].
Qed.

(** A value known to be defined is read without effect. *)
Lemma keeps_known {A B} (a : A) (k : A -> M B) post :
  keeps (k a) post -> keeps (call x <- defined (Some a); k x) post.
Proof. intros Hk st r st' Hinv Hrun. by apply (Hk st r st'). Qed.

(** The lobby a command acts on, once resolved and defined. *)
Lemma keeps_theLobby client :
  keeps (call lobby <- getLobbyForClient client; defined lobby) hasHuman.
Proof.
  step keeps_getLobbyForClient.
  destruct a as [l|]; [apply keeps_ret; auto | apply keeps_throw].
Qed.

Lemma keeps_commit lobby updated :
  hasHuman updated -> keeps (commit lobby updated) (fun _ => True).
Proof. apply keeps_store. Qed.

Lemma keeps_commit_diff lobby old updated kicked banned deleted :
  hasHuman updated ->
  keeps (exec commit lobby updated;
         _publishLobbyDiff old updated kicked banned deleted)
        (fun _ => True).
Proof.
  intros Hh. eapply keeps_bind; [by apply keeps_commit|intros _ _].
  apply silent_keeps. silence.
Qed.

Lemma keeps_removeClientFromLobby seed lobby userName removalType :
  keeps (_removeClientFromLobby sess seed lobby userName removalType)
        (fun _ => True).
Proof.
  unfold _removeClientFromLobby. quiet. quiet. quiet.
  eapply keeps_bind with (mid := fun _ => True).
  - destruct (removePlayer seed a1 _) as [updated|] eqn:E.
    + apply keeps_commit_diff. by eapply law_removePlayer.
    + quiet. eapply keeps_bind; [apply keeps_delete|intros _ _].
      apply silent_keeps. silence.
  - intros _ _. apply silent_keeps. silence.
Qed.

Lemma keeps_kickPlayerFromLobby seed lobby teamIndex slotIndex player :
  hasHuman lobby ->
  slotAt lobby teamIndex slotIndex = Some player ->
  keeps (_kickPlayerFromLobby sess seed lobby teamIndex slotIndex player)
        (fun _ => True).
Proof.
  intros Hh Hat. unfold _kickPlayerFromLobby.
  destruct (decide (slot_type player = computer)) as [Hc|_].
  - destruct (law_removePlayer_other ops laws seed lobby teamIndex slotIndex
                player Hh Hat) as [updated Hu]; [by rewrite Hc|].
    rewrite Hu.
    eapply keeps_bind;
      [apply keeps_store; by eapply law_removePlayer|intros _ _].
    apply silent_keeps. silence.
  - destruct (_ || _); [apply keeps_removeClientFromLobby|].
    by apply keeps_ret.
Qed.

Lemma keeps_create seed socket name map gameType gameSubType :
  keeps (create sess getMapInfo seed socket name map gameType gameSubType)
        (fun _ => True).
Proof.
  unfold create. quiet. quiet. quiet.
  destruct (decide _); [apply keeps_throw|].
  destruct (getMapInfo _ _) as [mapInfo|]; [|apply keeps_throw].
  destruct (checkSubTypeValidity _ _ _); [apply keeps_throwE|].
  quiet. destruct (negb _); [apply keeps_throw|].
  eapply keeps_bind; [apply keeps_store, (law_create ops laws)|intros _ _].
  apply silent_keeps. silence.
Qed.

Lemma keeps_join seed socket name :
  keeps (join sess getMapInfo seed socket name) (fun _ => True).
Proof.
  unfold join. quiet. quiet.
  eapply keeps_bind; [apply keeps_gets|intros ls (st & Hinv & ->)].
  destruct (lobbies st !! name) as [stored|] eqn:E; [|apply keeps_throw].
  destruct (Hinv _ _ E) as (lobby & -> & Hh).
  apply keeps_known.
  quiet. quiet.
  destruct (bool_decide _); [apply keeps_throw|].
  destruct (findAvailableSlot lobby) as [[teamIndex slotIndex] available]
    eqn:Efind.
  destruct (bool_decide (teamIndex < 0)) eqn:Et; [apply keeps_throw|].
  destruct (bool_decide (slotIndex < 0)) eqn:Es; [apply keeps_throw|].
  simpl. apply bool_decide_eq_false in Et, Es.
  destruct (law_findAvailableSlot ops laws lobby _ _ _ Efind)
    as (s & Hat & Hs); [lia|lia|].
  quiet. quiet. destruct (negb _); [apply keeps_throw|].
  quiet.
  eapply keeps_bind.
  { apply keeps_store, hasHuman_set_map.
    by eapply (law_addPlayer ops laws). }
  intros _ _. apply silent_keeps. silence.
Qed.

Lemma keeps_addComputer seed socket slotId :
  keeps (addComputer sess seed socket slotId) (fun _ => True).
Proof.
  unfold addComputer. quiet.
  eapply keeps_bind; [apply keeps_getLobbyForClient|intros o Ho].
  destruct o as [lobby|]; [|apply keeps_throw].
  specialize (Ho lobby eq_refl).
  apply keeps_known.
  quiet. quiet.
  destruct (isUms _); [apply keeps_throw|].
  destruct (findSlotById lobby slotId) as [[[teamIndex slotIndex] s]|] eqn:E;
    [|apply keeps_throw].
  destruct (negb (bool_decide (slot_type s = open))
            && negb (bool_decide (slot_type s = closed))) eqn:Etype;
    [apply keeps_throw|].
  apply keeps_commit_diff.
  eapply (law_addPlayer ops laws); [done|by eapply findSlotById_slotAt|].
  intros Hhuman. rewrite Hhuman in Etype. done.
Qed.

Lemma keeps_changeSlot seed socket slotId :
  keeps (changeSlot sess seed socket slotId) (fun _ => True).
Proof.
  unfold changeSlot. quiet.
  eapply keeps_bind; [apply keeps_getLobbyForClient|intros o Ho].
  destruct o as [lobby|]; [|apply keeps_throw].
  specialize (Ho lobby eq_refl).
  apply keeps_known.
  quiet.
  destruct (findSlotById lobby slotId) as [[[teamIndex slotIndex] s]|];
    [|apply keeps_throw].
  destruct (_ && _); [apply keeps_throw|].
  destruct (decide _); [apply keeps_throw|].
  destruct (movePlayerToSlot _ _ _ _ _) as [message|updated] eqn:E;
    [apply keeps_throw|].
  apply keeps_commit_diff. by eapply (law_movePlayerToSlot ops laws).
Qed.

Lemma keeps_setRace socket id race :
  keeps (setRaceCommand sess socket id race) (fun _ => True).
Proof.
  unfold setRaceCommand. quiet.
  eapply keeps_bind; [apply keeps_getLobbyForClient|intros o Ho].
  destruct o as [lobby|]; [|apply keeps_throw].
  specialize (Ho lobby eq_refl).
  apply keeps_known.
  quiet.
  destruct (findSlotById lobby id) as [[[teamIndex slotIndex] s]|];
    [|apply keeps_throw].
  destruct (_ && _); [apply keeps_throw|].
  quiet.
  destruct (setRace _ _ _ _) as [message|updated] eqn:E;
    [apply keeps_throw|].
  apply keeps_commit_diff. by eapply (law_setRace ops laws).
Qed.

Lemma keeps_openSlot seed socket slotId :
  keeps (openSlotCommand sess seed socket slotId) (fun _ => True).
Proof.
  unfold openSlotCommand. quiet.
  eapply keeps_bind; [apply keeps_getLobbyForClient|intros o Ho].
  destruct o as [lobby|]; [|apply keeps_throw].
  specialize (Ho lobby eq_refl).
  apply keeps_known.
  quiet. quiet.
  destruct (findSlotById lobby slotId) as [[[teamIndex slotIndex] s]|];
    [|apply keeps_throw].
  destruct (_ || _); [apply keeps_throw|].
  destruct (openSlot _ _ _ _) as [message|updated] eqn:E;
    [apply keeps_throw|].
  apply keeps_commit_diff. by eapply (law_openSlot ops laws).
Qed.

Lemma keeps_closeSlot seed socket slotId :
  keeps (closeSlotCommand sess seed socket slotId) (fun _ => True).
Proof.
  unfold closeSlotCommand. quiet. quiet.
  eapply keeps_bind; [apply keeps_getLobbyForClient|intros o Ho].
  destruct o as [lobby|]; [|apply keeps_throw].
  specialize (Ho lobby eq_refl).
  apply keeps_known.
  quiet. quiet.
  destruct (findSlotById lobby slotId) as [[[teamIndex slotIndex] s]|] eqn:E;
    [|apply keeps_throw].
  destruct (_ || _); [apply keeps_throw|].
  eapply keeps_bind with (mid := fun _ => True).
  { destruct (_ || _); [|by apply keeps_ret].
    apply keeps_kickPlayerFromLobby; [done|].
    by eapply findSlotById_slotAt. }
  intros _ _.
  eapply keeps_bind; [apply keeps_lobbyAt|intros afterKick Hafter].
  destruct afterKick as [afterKick|]; [|apply keeps_throw].
  destruct (closeSlot _ _ _ _) as [message|updated] eqn:Eclose;
    [apply keeps_throw|].
  apply keeps_commit_diff. eapply (law_closeSlot ops laws); [|done]. auto.
Qed.

Lemma keeps_kickPlayer seed socket slotId :
  keeps (kickPlayer sess seed socket slotId) (fun _ => True).
Proof.
  unfold kickPlayer. quiet. quiet.
  eapply keeps_bind; [apply keeps_getLobbyForClient|intros o Ho].
  destruct o as [lobby|]; [|apply keeps_throw].
  specialize (Ho lobby eq_refl).
  apply keeps_known.
  quiet. quiet.
  destruct (findSlotById lobby slotId) as [[[teamIndex slotIndex] s]|] eqn:E;
    [|apply keeps_throw].
  destruct (_ && _); [apply keeps_throw|].
  apply keeps_kickPlayerFromLobby; [done|].
  by eapply findSlotById_slotAt.
Qed.

Lemma keeps_banPlayer seed socket slotId :
  keeps (banPlayer sess seed socket slotId) (fun _ => True).
Proof.
  unfold banPlayer. quiet.
  eapply keeps_bind; [apply keeps_getLobbyForClient|intros o Ho].
  destruct o as [lobby|]; [|apply keeps_throw].
  apply keeps_known.
  quiet. quiet.
  destruct (findSlotById lobby slotId) as [[[teamIndex slotIndex] s]|];
    [|apply keeps_throw].
  destruct (negb _); [apply keeps_throw|].
  quiet. apply keeps_removeClientFromLobby.
Qed.

Lemma keeps_makeObserver seed socket slotId :
  keeps (makeObserverCommand sess seed socket slotId) (fun _ => True).
Proof.
  unfold makeObserverCommand. quiet.
  eapply keeps_bind; [apply keeps_getLobbyForClient|intros o Ho].
  destruct o as [lobby|]; [|apply keeps_throw].
  specialize (Ho lobby eq_refl).
  apply keeps_known.
  quiet. quiet.
  destruct (findSlotById lobby slotId) as [[[teamIndex slotIndex] s]|];
    [|apply keeps_throw].
  destruct (makeObserver _ _ _ _) as [message|updated] eqn:E;
    [apply keeps_throw|].
  apply keeps_commit_diff. by eapply (law_makeObserver ops laws).
Qed.

Lemma keeps_removeObserver seed socket slotId :
  keeps (removeObserverCommand sess seed socket slotId) (fun _ => True).
Proof.
  unfold removeObserverCommand. quiet.
  eapply keeps_bind; [apply keeps_getLobbyForClient|intros o Ho].
  destruct o as [lobby|]; [|apply keeps_throw].
  specialize (Ho lobby eq_refl).
  apply keeps_known.
  quiet. quiet.
  destruct (findSlotById lobby slotId) as [[[teamIndex slotIndex] s]|];
    [|apply keeps_throw].
  quiet. destruct (negb _); [apply keeps_throw|].
  destruct (removeObserver _ _ _) as [message|updated] eqn:E;
    [apply keeps_throw|].
  apply keeps_commit_diff. by eapply (law_removeObserver ops laws).
Qed.

Lemma keeps_leave seed socket : keeps (leave sess seed socket) (fun _ => True).
Proof.
  unfold leave. quiet. quiet. quiet. apply keeps_removeClientFromLobby.
Qed.

Lemma keeps_clientGone seed lobbyName userName :
  keeps (clientGone sess seed lobbyName userName) (fun _ => True).
Proof. unfold clientGone. quiet. apply keeps_removeClientFromLobby. Qed.

Lemma keeps_onGameLoaded lobby :
  keeps (_onGameLoaded sess lobby) (fun _ => True).
Proof.
  unfold _onGameLoaded. quiet. quiet. quiet.
  eapply keeps_bind; [apply keeps_delete|intros _ _].
  apply silent_keeps. silence.
Qed.

Lemma keeps_settle (body : M Handshake) hs post :
  keeps body post -> keeps (settle body hs) (fun _ => True).
Proof.
  intros Hbody st r st' Hinv. unfold settle, tryCatch.
  destruct (body st) as [[e|hs1] st1] eqn:Eb.
  - destruct (Hbody _ _ _ Hinv Eb) as [Hinv1 _].
    destruct (rollback hs st1) as [[e'|hs'] st2] eqn:Er; intros Hfin;
      (split; [|done]); unfold humansEverywhere;
      rewrite (silent_finally _ _ _ _ _ Hfin),
              (silent_rollback _ _ _ _ Er); exact Hinv1.
  - destruct (Hbody _ _ _ Hinv Eb) as [Hinv1 _]. intros Hfin.
    split; [|done]. unfold humansEverywhere.
    rewrite (silent_finally _ _ _ _ _ Hfin). exact Hinv1.
Qed.

Lemma keeps_handshakeStep hs ev :
  keeps (handshakeStep sess hs ev) (fun _ => True).
Proof.
  assert (Hloaded : forall hs', keeps (loaded sess hs') (fun _ => True)).
  { intros hs'. unfold loaded. eapply keeps_settle.
    eapply keeps_bind; [apply keeps_onGameLoaded|intros _ _].
    by apply (keeps_ret _ (fun _ => True)). }
  assert (Hfailed : forall hs', keeps (failed hs') (fun _ => True)).
  { intros hs'. unfold failed.
    eapply keeps_settle with (post := fun _ => True). apply keeps_throw. }
  destruct ev; simpl.
  - destruct (hs_countdownTimerId hs); try by apply keeps_ret.
    destruct (hs_countdownTimer hs); try by apply keeps_ret.
    quiet. quiet. destruct (_ && _); [apply Hloaded|by apply keeps_ret].
  - destruct (hs_countdownTimer hs); try by apply keeps_ret.
    destruct (awaiting _); [apply Hfailed|by apply keeps_ret].
  - eapply keeps_bind; [|intros _ _; by apply keeps_ret].
    apply silent_keeps. unfold callback.
    apply silent_tryCatch; [apply silent_onGameSetup|intros; silence].
  - eapply keeps_bind; [|intros _ _; by apply keeps_ret].
    apply silent_keeps. unfold callback.
    apply silent_tryCatch; [apply silent_onRoutesSet|intros; silence].
  - destruct (hs_gameLoaded hs); try by apply keeps_ret.
    destruct (_ && _); [apply Hloaded|by apply keeps_ret].
  - destruct (hs_gameLoaded hs); try by apply keeps_ret.
    destruct (awaiting _); [apply Hfailed|by apply keeps_ret].
  - destruct (hs_allowStartTimerId hs); try by apply keeps_ret.
    quiet. by apply keeps_ret.
Qed.

(** Every call keeps a human in every lobby of the table. *)
Lemma keeps_perform c : keeps (perform sess getMapInfo c) (fun _ => True).
Proof.
  destruct c; simpl.
  - apply silent_keeps, silent_subscribe.
  - apply silent_keeps, silent_unsubscribe.
  - apply silent_keeps, silent_onClose.
  - apply keeps_create.
  - apply keeps_join.
  - apply silent_keeps, silent_sendChat.
  - apply keeps_addComputer.
  - apply keeps_changeSlot.
  - apply keeps_setRace.
  - apply keeps_openSlot.
  - apply keeps_closeSlot.
  - apply keeps_kickPlayer.
  - apply keeps_banPlayer.
  - apply keeps_makeObserver.
  - apply keeps_removeObserver.
  - apply keeps_leave.
  - apply keeps_clientGone.
  - apply silent_keeps. unfold ignore.
    apply silent_bind; [apply silent_getLobbyState|intros; apply silent_ret].
  - apply silent_keeps. unfold ignore.
    apply silent_bind; [apply silent_startCountdown|intros; apply silent_ret].
  - unfold ignore.
    eapply keeps_bind; [apply keeps_handshakeStep|intros _ _].
    by apply keeps_ret.
  - apply silent_keeps. by apply silent_modify.
Qed.

End KeepsParts.

(** ** The sample transition functions obey the laws *)

Lemma flat_map_alter_slot (teams : list Team) teamIndex slotIndex team p s :
  teams !! teamIndex = Some team ->
  team_slots team !! slotIndex = Some p ->
  exists pre post,
    flat_map team_slots teams = pre ++ p :: post
    /\ flat_map team_slots
         (alter (fun t => {| team_isObserver := team_isObserver t;
                             team_slots := <[slotIndex := s]> (team_slots t) |})
                teamIndex teams)
       = pre ++ s :: post.
Proof.
  revert teamIndex.
  induction teams as [|t teams IH]; intros [|teamIndex] Hteam Hslot;
    try discriminate.
  - injection Hteam as ->. simpl.
    exists (take slotIndex (team_slots team)),
           (drop (S slotIndex) (team_slots team) ++ flat_map team_slots teams).
    split.
    + rewrite <- (take_drop_middle _ _ _ Hslot) at 1.
      by rewrite <- app_assoc.
    + rewrite insert_take_drop by (by eapply lookup_lt_Some).
      by rewrite <- app_assoc.
  - destruct (IH teamIndex Hteam Hslot) as (pre & post & E1 & E2).
    exists (team_slots t ++ pre), post. simpl. rewrite E1.
    change (list_alter ?f ?i ?l) with (alter f i l).
    by rewrite E2, <- !app_assoc.
Qed.

Lemma setSlot_slots l teamIndex slotIndex p s :
  slotAt l teamIndex slotIndex = Some p ->
  exists pre post,
    getLobbySlots l = pre ++ p :: post
    /\ getLobbySlots (SampleLobbies.setSlot l teamIndex slotIndex s)
       = pre ++ s :: post.
Proof.
  unfold slotAt. intros Hat.
  destruct (lobby_teams l !! teamIndex) as [team|] eqn:Hteam; [|done].
  simpl in Hat. unfold getLobbySlots, SampleLobbies.setSlot. simpl.
  by eapply flat_map_alter_slot.
Qed.

Lemma setHost_humans l host :
  getHumanSlots (SampleLobbies.setHost l host) = getHumanSlots l.
Proof. done. Qed.

Lemma hasHuman_split l pre p post :
  getLobbySlots l = pre ++ p :: post ->
  getHumanSlots l
  = filter (fun s => slot_type s = human) pre
    ++ filter (fun s => slot_type s = human) [p]
    ++ filter (fun s => slot_type s = human) post.
Proof.
  intros E. unfold getHumanSlots. rewrite E.
  by rewrite filter_app, (filter_app _ [p] post).
Qed.

(** Replacing a slot that is not a human's keeps the humans. *)
Lemma setSlot_keeps_human l teamIndex slotIndex p s :
  slotAt l teamIndex slotIndex = Some p ->
  slot_type p <> human ->
  hasHuman l -> hasHuman (SampleLobbies.setSlot l teamIndex slotIndex s).
Proof.
  intros Hat Hp. unfold hasHuman.
  destruct (setSlot_slots l teamIndex slotIndex p s Hat)
    as (pre & post & E1 & E2).
  rewrite (hasHuman_split _ _ _ _ E1), (hasHuman_split _ _ _ _ E2).
  rewrite (filter_cons_False _ p) by done. rewrite filter_nil. simpl.
  intros Hh Hnil. apply Hh.
  apply app_eq_nil in Hnil as [-> Hnil].
  apply app_eq_nil in Hnil as [_ ->]. done.
Qed.

(** Seating a human makes the lobby hold one. *)
Lemma setSlot_human l teamIndex slotIndex p s :
  slotAt l teamIndex slotIndex = Some p ->
  slot_type s = human ->
  hasHuman (SampleLobbies.setSlot l teamIndex slotIndex s).
Proof.
  intros Hat Hs. unfold hasHuman.
  destruct (setSlot_slots l teamIndex slotIndex p s Hat)
    as (pre & post & E1 & E2).
  rewrite (hasHuman_split _ _ _ _ E2).
  rewrite (filter_cons_True _ s) by done.
  intros Hnil. apply app_eq_nil in Hnil as [_ Hnil]. discriminate Hnil.
Qed.

Lemma slotAt_setSlot l teamIndex slotIndex p s :
  slotAt l teamIndex slotIndex = Some p ->
  slotAt (SampleLobbies.setSlot l teamIndex slotIndex s) teamIndex slotIndex
  = Some s.
Proof.
  unfold slotAt, SampleLobbies.setSlot. simpl. intros Hat.
  destruct (lobby_teams l !! teamIndex) as [team|] eqn:Hteam; [|done].
  simpl in Hat. rewrite list_lookup_alter_eq, Hteam. simpl.
  apply list_lookup_insert_eq. by eapply lookup_lt_Some.
Qed.

Lemma slotAt_setSlot_ne l teamIndex slotIndex teamIndex' slotIndex' s :
  (teamIndex, slotIndex) <> (teamIndex', slotIndex') ->
  slotAt (SampleLobbies.setSlot l teamIndex slotIndex s) teamIndex' slotIndex'
  = slotAt l teamIndex' slotIndex'.
Proof.
  unfold slotAt, SampleLobbies.setSlot. simpl. intros Hne.
  destruct (decide (teamIndex = teamIndex')) as [<-|Ht].
  - rewrite list_lookup_alter_eq.
    destruct (lobby_teams l !! teamIndex) as [team|]; [|done]. simpl.
    apply list_lookup_insert_ne. congruence.
  - by rewrite list_lookup_alter_ne.
Qed.

Lemma sample_laws : LobbyLaws SampleLobbies.ops.
Proof.
  split; simpl.
  - intros. unfold hasHuman, getHumanSlots, getLobbySlots. simpl.
    destruct (SampleLobbies.openTeams _ _ _); simpl;
      by rewrite filter_cons_True.
  - intros l teamIndex slotIndex available.
    unfold SampleLobbies.findAvailableSlot.
    destruct (List.find _ _) as [[[ti si] s]|] eqn:E; [|intros [=]; lia].
    intros [= <- <- _] _ _. rewrite !Nat2Z.id. exists s.
    apply find_elem_of in E as [Hin Hopen]. split.
    + apply elem_of_getLobbySlotsWithIndexes in Hin as (team & Ht & Hs).
      unfold slotAt. by rewrite Ht.
    + simpl in Hopen. intros Hh. rewrite Hh in Hopen. done.
  - intros seed l teamIndex slotIndex s player Hh Hat Hs.
    by eapply setSlot_keeps_human.
  - intros seed l found l'. unfold SampleLobbies.removePlayer.
    destruct (getHumanSlots _) as [|newHost rest] eqn:E; [done|].
    assert (Hh : forall u, getHumanSlots u = newHost :: rest -> hasHuman u).
    { intros u Hu. unfold hasHuman. by rewrite Hu. }
    destruct found as [[[ti si] removed]|].
    + destruct (decide _); intros [= <-]; [|by apply Hh].
      unfold hasHuman. rewrite setHost_humans. by apply Hh.
    + intros [= <-]. by apply Hh.
  - intros seed l teamIndex slotIndex player Hat Hone.
    unfold SampleLobbies.removePlayer.
    destruct (setSlot_slots l teamIndex slotIndex player
                (SampleLobbies.createOpen seed 1) Hat)
      as (pre & post & E1 & E2).
    assert (Hp : slot_type player = human).
    { assert (Hin : player ∈ getHumanSlots l) by (rewrite Hone; left).
      unfold getHumanSlots in Hin.
      by apply list_elem_of_filter in Hin as [? _]. }
    rewrite (hasHuman_split _ _ _ _ E1) in Hone.
    rewrite (filter_cons_True _ player) in Hone by done.
    rewrite filter_nil in Hone.
    assert (Hlen := f_equal length Hone).
    rewrite !length_app in Hlen. simpl in Hlen.
    assert (Hpre : filter (fun s => slot_type s = human) pre = []).
    { apply length_zero_iff_nil. lia. }
    assert (Hpost : filter (fun s => slot_type s = human) post = []).
    { apply length_zero_iff_nil. lia. }
    unfold getHumanSlots at 1. rewrite E2, filter_app, Hpre.
    rewrite filter_cons_False by done. by rewrite Hpost.
  - intros seed l teamIndex slotIndex player Hh Hat Hp.
    unfold SampleLobbies.removePlayer.
    pose proof (setSlot_keeps_human l teamIndex slotIndex player
                  (SampleLobbies.createOpen seed 1) Hat Hp Hh) as Hkept.
    unfold hasHuman in Hkept.
    destruct (getHumanSlots _); [done|].
    destruct (decide _); eauto.
  - intros seed l source destTeamIndex destSlotIndex l' Hh.
    unfold SampleLobbies.movePlayerToSlot.
    destruct source as [[sourceTeamIndex sourceSlotIndex]|]; [|done].
    destruct (slotAt l sourceTeamIndex sourceSlotIndex) as [player|] eqn:Es;
      [|done].
    destruct (slotAt l destTeamIndex destSlotIndex) as [dest|] eqn:Ed;
      [|done].
    destruct (_ || _) eqn:Eopen; [|done]. intros [= <-].
    assert (Hdest : slot_type dest <> human).
    { intros Hd. rewrite Hd in Eopen. done. }
    destruct (decide ((sourceTeamIndex, sourceSlotIndex)
                      = (destTeamIndex, destSlotIndex))) as [[= -> ->]|Hne].
    + assert (player = dest) as -> by congruence.
      eapply setSlot_keeps_human; [by eapply slotAt_setSlot|done|].
      by eapply setSlot_keeps_human.
    + destruct (decide (slot_type player = human)) as [Hp|Hp].
      * eapply setSlot_human; [|done].
        rewrite slotAt_setSlot_ne by done. done.
      * eapply setSlot_keeps_human;
          [by rewrite slotAt_setSlot_ne|done|].
        by eapply setSlot_keeps_human.
  - intros l teamIndex slotIndex race l' Hh. unfold SampleLobbies.setRace.
    destruct (slotAt l teamIndex slotIndex) as [s|] eqn:Es; [|done].
    destruct (slot_hasForcedRace s); [done|].
    destruct (_ || _); [|done]. intros [= <-].
    destruct (decide (slot_type s = human)) as [Hp|Hp].
    + by eapply setSlot_human.
    + by eapply setSlot_keeps_human.
  - intros seed l teamIndex slotIndex l' Hh. unfold SampleLobbies.openSlot.
    destruct (slotAt l teamIndex slotIndex) as [s|] eqn:Es; [|done].
    destruct (decide _) as [Hc|]; [|done]. intros [= <-].
    eapply setSlot_keeps_human; [done| |done]. by rewrite Hc.
  - intros seed l teamIndex slotIndex l' Hh. unfold SampleLobbies.closeSlot.
    destruct (slotAt l teamIndex slotIndex) as [s|] eqn:Es; [|done].
    destruct (decide _) as [Hc|]; [|done]. intros [= <-].
    eapply setSlot_keeps_human; [done| |done]. by rewrite Hc.
  - done.
  - done.
Qed.

(** ** Lobbies and their humans *)

Lemma humansEverywhere_empty : humansEverywhere emptyRegistry.
Proof. intros name stored. simpl. by rewrite lookup_empty. Qed.

Lemma reachable_humansEverywhere {ops : LobbyOps} (laws : LobbyLaws ops) st :
  Reachable st -> humansEverywhere st.
Proof.
  induction 1 as [|st sess getMapInfo c r st' _ IH Hrun].
  - apply humansEverywhere_empty.
  - by destruct (keeps_perform laws sess getMapInfo c st r st' IH Hrun).
Qed.

(** The removal of the only human of a lobby. *)
Lemma removeClientFromLobby_last {ops : LobbyOps} (laws : LobbyLaws ops)
    sess seed lobby userName removalType st user client
    teamIndex slotIndex player :
  getByName sess userName = Some user ->
  activeClients st !! userName = Some client ->
  findSlotByName lobby userName = Some (teamIndex, slotIndex, player) ->
  getHumanSlots lobby = [player] ->
  _removeClientFromLobby sess seed (Some lobby) userName removalType st
  = (inr tt, released lobby userName client (emptied lobby (Some player) st)).
Proof.
  intros Hu Hc Hfind Hone.
  rewrite (removeClientFromLobby_run ops sess seed lobby userName removalType
             st user client Hu Hc), Hfind.
  rewrite (law_removePlayer_last ops laws seed lobby teamIndex slotIndex
             player); [done| |done].
  by eapply findSlotByName_slotAt.
Qed.

(** C5: when the only human player of a lobby leaves or is removed,
    [_removeClientFromLobby] deletes the lobby from the table of lobbies,
    discards its ban list and publishes [delete] on the lobby list; and
    every lobby in the table of a registry the service can reach holds a
    human slot.  The transition functions of [Lobbies] are those of the
    design: they obey [LobbyLaws]. *)
Theorem last_human_leaves_lobby_deleted {ops : LobbyOps}
    (laws : LobbyLaws ops) :
  (forall sess seed lobby userName removalType st user client
          teamIndex slotIndex player,
      getByName sess userName = Some user ->
      activeClients st !! userName = Some client ->
      findSlotByName lobby userName = Some (teamIndex, slotIndex, player) ->
      getHumanSlots lobby = [player] ->
      exists st',
        _removeClientFromLobby sess seed (Some lobby) userName removalType st
        = (inr tt, st')
        /\ lobbies st' !! lobby_name lobby = None
        /\ lobbyBannedUsers st' !! lobby_name lobby = None
        /\ Publish MountBase (ListDelete (lobby_name lobby)) ∈ effects st')
  /\ (forall st name stored,
        Reachable st ->
        lobbies st !! name = Some stored ->
        exists lobby, stored = Some lobby /\ getHumanSlots lobby <> []).
Proof.
  split.
  - intros sess seed lobby userName removalType st user client
           teamIndex slotIndex player Hu Hc Hfind Hone.
    eexists. split; [by eapply removeClientFromLobby_last|].
    unfold released, emptied. read_fields. split_all.
    + apply lookup_delete_eq.
    + apply lookup_delete_eq.
    + rewrite !elem_of_app. left. right. right. left.
  - intros st name stored Hreach. by apply reachable_humansEverywhere.
Qed.

Lemma formed_reachable : Reachable (ops := SampleLobbies.ops) Scenario.formed.
Proof.
  apply (reachable_step
           Scenario.created Scenario.sessions Scenario.maps
           (Join 2 "sock-bob" "A")
           (join (ops := SampleLobbies.ops) Scenario.sessions Scenario.maps
                 2 "sock-bob" "A" Scenario.created).1).
  - apply (reachable_step
             emptyRegistry Scenario.sessions Scenario.maps
             (Create 1 "sock-alice" "A" "lt" "topVBottom" (Some 1))
             (create (ops := SampleLobbies.ops) Scenario.sessions
                     Scenario.maps 1 "sock-alice" "A" "lt" "topVBottom"
                     (Some 1) emptyRegistry).1).
    + apply reachable_init.
    + vm_compute; reflexivity.
  - vm_compute; reflexivity.
Qed.

Lemma lobbyOfAlice_name : lobby_name Scenario.lobbyOfAlice = "A".
Proof. vm_compute; reflexivity. Qed.

Lemma last_human_leaves_witness :
  (exists st',
      _removeClientFromLobby (ops := SampleLobbies.ops) Scenario.sessions 3
        (Some Scenario.lobbyOfAlice) "alice" REMOVAL_TYPE_NORMAL
        Scenario.created
      = (inr tt, st')
      /\ lobbies st' !! "A" = None
      /\ lobbyBannedUsers st' !! "A" = None
      /\ Publish MountBase (ListDelete "A") ∈ effects st')
  /\ (exists lobby,
        lobbies Scenario.formed !! "A" = Some (Some lobby)
        /\ getHumanSlots lobby <> []).
Proof.
  destruct (last_human_leaves_lobby_deleted sample_laws) as [Hlast Hever].
  split.
  - destruct (Hlast Scenario.sessions 3%nat Scenario.lobbyOfAlice "alice"
                REMOVAL_TYPE_NORMAL Scenario.created Scenario.aliceUser
                Scenario.alice 0%nat 0%nat Scenario.aliceSlot)
      as (st' & Hrun & Hl & Hb & Hp); [vm_compute; reflexivity ..|].
    rewrite lobbyOfAlice_name in Hl, Hb, Hp. by exists st'.
  - destruct (Hever Scenario.formed "A" (Some Scenario.lobbyA)
                formed_reachable)
      as (lobby & Heq & Hh); [vm_compute; reflexivity|].
    exists lobby. split; [|exact Hh].
    rewrite <- Heq. vm_compute; reflexivity.
Defined.

(** ** Frames and failures *)

Section Frames.
Context {A B F : Type} (f : Registry -> F).

Lemma preserves_ret (a : A) : preserves f (ret a).
Proof. by intros st r st' [= <- <-]. Qed.

Lemma preserves_throwE (e : Error) : preserves f (throwE (A := A) e).
Proof. by intros st r st' [= <- <-]. Qed.

Lemma preserves_throw k msg : preserves f (throw (A := A) k msg).
Proof. apply preserves_throwE. Qed.

Lemma preserves_gets (g : Registry -> A) : preserves f (gets g).
Proof. by intros st r st' [= <- <-]. Qed.

Lemma preserves_bind (m : M A) (k : A -> M B) :
  preserves f m -> (forall a, preserves f (k a)) -> preserves f (bind m k).
Proof.
  intros Hm Hk st r st'. unfold bind.
  destruct (m st) as [[e|a] st1] eqn:Em.
  - intros [= <- <-]. eauto.
  - intros Hrun. rewrite (Hk _ _ _ _ Hrun). eauto.
Qed.

Lemma preserves_tryCatch (m : M A) (h : Error -> M A) :
  preserves f m -> (forall e, preserves f (h e)) ->
  preserves f (tryCatch m h).
Proof.
  intros Hm Hh st r st'. unfold tryCatch.
  destruct (m st) as [[e|a] st1] eqn:Em.
  - intros Hrun. rewrite (Hh _ _ _ _ Hrun). eauto.
  - intros [= <- <-]. eauto.
Qed.

Lemma preserves_defined (o : option A) : preserves f (defined o).
Proof. destruct o; [apply preserves_ret | apply preserves_throw]. Qed.

End Frames.

Lemma preserves_modify {F} (f : Registry -> F) (g : Registry -> Registry) :
  (forall st, f (g st) = f st) -> preserves f (modify g).
Proof. intros Hg st r st' [= <- <-]. apply Hg. Qed.

Lemma preserves_when {F} (f : Registry -> F) b m :
  preserves f m -> preserves f (when b m).
Proof. intros Hm. destruct b; [done|apply preserves_ret]. Qed.

Lemma preserves_forEach {A F} (f : Registry -> F) (l : list A)
    (g : A -> M unit) :
  (forall x, preserves f (g x)) -> preserves f (forEach l g).
Proof.
  intros Hg. induction l as [|x l IH]; simpl; [apply preserves_ret|].
  apply preserves_bind; auto.
Qed.

Section Failures.
Context {A B : Type} (P : Error -> Prop).

Lemma failsWith_ret (a : A) : failsWith P (ret a).
Proof. by intros st e st' [=]. Qed.

Lemma failsWith_gets (g : Registry -> A) : failsWith P (gets g).
Proof. by intros st e st' [=]. Qed.

Lemma failsWith_throwE (e : Error) : P e -> failsWith P (throwE (A := A) e).
Proof. by intros He st e' st' [= <- <-]. Qed.

Lemma failsWith_bind (m : M A) (k : A -> M B) :
  failsWith P m -> (forall a, failsWith P (k a)) -> failsWith P (bind m k).
Proof.
  intros Hm Hk st e st'. unfold bind.
  destruct (m st) as [[e1|a] st1] eqn:Em.
  - intros [= <- <-]. apply (Hm _ _ _ Em).
  - intros Hrun. apply (Hk _ _ _ _ Hrun).
Qed.

(** A handler that never throws makes the whole block never throw. *)
Lemma failsWith_tryCatch (m : M A) (h : Error -> M A) :
  (forall e, failsWith P (h e)) -> failsWith P (tryCatch m h).
Proof.
  intros Hh st e st'. unfold tryCatch.
  destruct (m st) as [[e1|a] st1]; [|by intros [=]].
  intros Hrun. apply (Hh _ _ _ _ Hrun).
Qed.

Lemma failsWith_weaken (Q : Error -> Prop) (m : M A) :
  failsWith Q m -> (forall e, Q e -> P e) -> failsWith P m.
Proof. intros Hm HQ st e st' Hrun. apply HQ, (Hm _ _ _ Hrun). Qed.

End Failures.

Lemma failsWith_modify P g : failsWith P (modify g).
Proof. by intros st e st' [=]. Qed.

Lemma failsWith_emit P e : failsWith P (emit e).
Proof. apply failsWith_modify. Qed.

Lemma failsWith_when P b m : failsWith P m -> failsWith P (when b m).
Proof. intros Hm. destruct b; [done|apply failsWith_ret]. Qed.

Lemma failsWith_forEach {A} P (l : list A) (g : A -> M unit) :
  (forall x, failsWith P (g x)) -> failsWith P (forEach l g).
Proof.
  intros Hg. induction l as [|x l IH]; simpl; [apply failsWith_ret|].
  apply failsWith_bind; auto.
Qed.

Lemma failsWith_defined {A} (o : option A) : failsWith isTypeError (defined o).
Proof. destruct o; [apply failsWith_ret|]. by apply failsWith_throwE. Qed.

Lemma faultless_failsWith {A} P (m : M A) : faultless m -> failsWith P m.
Proof. intros Hm. eapply failsWith_weaken; [exact Hm|done]. Qed.

Section Clean.
Context {A B : Type}.

Lemma reads_failsClean (m : M A) : reads m -> failsClean m.
Proof. intros Hm st e st' Hrun _. apply (Hm _ _ _ Hrun). Qed.

Lemma failsWith_failsClean (m : M A) : failsWith isTypeError m -> failsClean m.
Proof. intros Hm st e st' Hrun Hk. destruct Hk. apply (Hm _ _ _ Hrun). Qed.

(** A step that only reads, then a rest that fails cleanly. *)
Lemma failsClean_bind (m : M A) (k : A -> M B) :
  reads m -> (forall a, failsClean (k a)) -> failsClean (bind m k).
Proof.
  intros Hm Hk st e st'. unfold bind.
  destruct (m st) as [[e1|a] st1] eqn:Em.
  - intros [= <- <-] _. apply (Hm _ _ _ Em).
  - intros Hrun Hkind. rewrite <- (Hm _ _ _ Em).
    apply (Hk _ _ _ _ Hrun Hkind).
Qed.

(** A step that fails cleanly, then a rest of which only the runtime
    complains. *)
Lemma failsClean_then (m : M A) (k : A -> M B) :
  failsClean m -> (forall a, failsWith isTypeError (k a)) ->
  failsClean (bind m k).
Proof.
  intros Hm Hk st e st'. unfold bind.
  destruct (m st) as [[e1|a] st1] eqn:Em.
  - intros [= <- <-]. apply (Hm _ _ _ Em).
  - intros Hrun Hkind. destruct Hkind. apply (Hk _ _ _ _ Hrun).
Qed.

End Clean.

Create HintDb frames.
Create HintDb faults.
Create HintDb cleans.

(** Solves [preserves] goals by the structure of the program. *)
Ltac frame :=
  unfold reads;
  repeat first
    [ solve [auto 1 with frames nocore]
    | apply preserves_ret | apply preserves_throw | apply preserves_throwE
    | apply preserves_gets | apply preserves_defined
    | apply preserves_when | apply preserves_forEach; intros
    | apply preserves_tryCatch; [|intros]
    | apply preserves_modify; reflexivity
    | apply preserves_bind; [|intros]
    | match goal with
      | |- preserves _ (match ?x with _ => _ end) => destruct x
      | |- preserves _ (if ?b then _ else _) => destruct b
      end ].

(** Solves [failsWith] goals by the structure of the program. *)
Ltac faults :=
  unfold faultless;
  repeat first
    [ solve [auto 1 with faults nocore]
    | apply failsWith_ret | apply failsWith_gets | apply failsWith_modify
    | apply failsWith_emit | apply failsWith_defined
    | apply failsWith_throwE; reflexivity
    | apply failsWith_when | apply failsWith_forEach; intros
    | apply failsWith_bind; [|intros]
    | match goal with
      | |- failsWith _ (match ?x with _ => _ end) => destruct x
      | |- failsWith _ (if ?b then _ else _) => destruct b
      end ].

(** Solves [failsClean] goals: the steps that read, then a rest of which
    only the runtime complains. *)
Ltac clean :=
  repeat first
    [ solve [auto 1 with cleans nocore]
    | progress cbv zeta
    | match goal with
      | |- failsClean (match ?x with _ => _ end) => destruct x
      | |- failsClean (if ?b then _ else _) => destruct b
      | |- failsClean (bind _ _) =>
          first [ apply failsClean_bind; [solve [frame] | intros]
                | apply failsWith_failsClean; solve [faults] ]
      | |- failsClean _ =>
          first [ apply reads_failsClean; solve [frame]
                | apply failsWith_failsClean; solve [faults] ]
      end ].

Section Guards.
Context {ops : LobbyOps} (sess : Sessions).
Context {F : Type} (f : Registry -> F).

Lemma preserves_getUser socket : preserves f (getUser sess socket).
Proof. unfold getUser. frame. Qed.

Lemma preserves_getUserByName name : preserves f (getUserByName sess name).
Proof. unfold getUserByName. frame. Qed.

Lemma preserves_getClient socket : preserves f (getClient sess socket).
Proof. unfold getClient. frame. Qed.

Lemma preserves_getActiveClientForUser name :
  preserves f (getActiveClientForUser name).
Proof. unfold getActiveClientForUser, getClientForUser. frame. Qed.

Lemma preserves_getLobbyForClient client :
  preserves f (getLobbyForClient client).
Proof. unfold getLobbyForClient. frame. Qed.

Lemma preserves_ensureIsLobbyHost lobby player :
  preserves f (ensureIsLobbyHost lobby player).
Proof. unfold ensureIsLobbyHost. frame. Qed.

Lemma preserves_ensureLobbyNotLoading lobby :
  preserves f (ensureLobbyNotLoading lobby).
Proof. unfold ensureLobbyNotLoading. frame. Qed.

Lemma preserves_ensureLobbyNotTransient lobby :
  preserves f (ensureLobbyNotTransient lobby).
Proof. unfold ensureLobbyNotTransient. frame. Qed.

Lemma preserves_summaries : preserves f summaries.
Proof. unfold summaries. frame. Qed.

Lemma preserves_mayChangeRace lobby player slot :
  preserves f (mayChangeRace lobby player slot).
Proof. unfold mayChangeRace, ensureIsLobbyHost. frame. Qed.

Lemma preserves_joiningPlayer seed lobby client available :
  preserves f (joiningPlayer seed lobby client available).
Proof. unfold joiningPlayer. frame. Qed.

Lemma preserves_getLobbyState socket name :
  preserves f (getLobbyState sess socket name).
Proof. unfold getLobbyState, getClient. frame. Qed.

End Guards.

#[global] Hint Resolve preserves_getUser preserves_getUserByName
  preserves_getClient preserves_getActiveClientForUser
  preserves_getLobbyForClient preserves_ensureIsLobbyHost
  preserves_ensureLobbyNotLoading preserves_ensureLobbyNotTransient
  preserves_summaries preserves_mayChangeRace preserves_joiningPlayer
  preserves_getLobbyState : frames.

(** ** What a failing command leaves behind *)

Section Faults.
Context {ops : LobbyOps} (sess : Sessions).

Lemma failsWith_publishLobbyDiff old new kicked banned deleted :
  failsWith isTypeError (_publishLobbyDiff old new kicked banned deleted).
Proof. intros st e st'. apply publishLobbyDiff_kind. Qed.

Lemma faultless_maybeCancelCountdown P lobby :
  failsWith P (_maybeCancelCountdown lobby).
Proof. intros st e st'. by rewrite maybeCancelCountdown_run. Qed.

Lemma faultless_finally P thrown hs : failsWith P (finally thrown hs).
Proof. intros st e st'. by rewrite finally_run. Qed.

Lemma faultless_settle P (body : M Handshake) hs :
  failsWith P (settle body hs).
Proof.
  intros st e st'. unfold settle.
  destruct (tryCatch body _ st) as [[e1|hs1] st1];
    by rewrite finally_run.
Qed.

#[local] Hint Resolve failsWith_publishLobbyDiff faultless_maybeCancelCountdown
  faultless_finally faultless_settle : faults.

Lemma failsWith_commit P lobby updated : failsWith P (commit lobby updated).
Proof. apply failsWith_modify. Qed.

Lemma failsWith_subscribeClientToLobby P lobby user client :
  failsWith P (_subscribeClientToLobby lobby user client).
Proof. unfold _subscribeClientToLobby. faults. Qed.

#[local] Hint Resolve failsWith_commit failsWith_subscribeClientToLobby
  : faults.

(** Registration as the last check: a user who is already active is
    refused before anything is written. *)
Lemma failsClean_registered userName client message (rest : M unit) :
  failsWith isTypeError rest ->
  failsClean (call registered <- registerActiveClient userName client;
              if negb registered then throw Conflict message else rest).
Proof.
  intros Hrest st e st'. unfold registerActiveClient.
  cbv [bind gets ret modify].
  destruct (activeClients st !! userName); simpl.
  - by intros [= <- <-].
  - intros Hrun Hkind. destruct Hkind. apply (Hrest _ _ _ Hrun).
Qed.

#[local] Hint Extern 1 (failsClean (bind (registerActiveClient _ _) _)) =>
  apply failsClean_registered; faults : cleans.

Lemma failsClean_subscribe socket : failsClean (subscribe socket).
Proof.
  unfold subscribe. clean.
Qed.

Lemma failsClean_unsubscribe socket : failsClean (unsubscribe socket).
Proof. unfold unsubscribe. clean. Qed.

Lemma failsClean_create getMapInfo seed socket name map gameType gameSubType :
  failsClean (create sess getMapInfo seed socket name map gameType
                     gameSubType).
Proof.
  unfold create, _publishListChange. clean.
Qed.

Lemma failsClean_join getMapInfo seed socket name :
  failsClean (join sess getMapInfo seed socket name).
Proof.
  unfold join. clean.
Qed.

Lemma failsClean_sendChat time socket text :
  failsClean (sendChat sess time socket text).
Proof. unfold sendChat, _publishTo. clean. Qed.

Lemma failsClean_addComputer seed socket slotId :
  failsClean (addComputer sess seed socket slotId).
Proof. unfold addComputer. clean. Qed.

Lemma failsClean_changeSlot seed socket slotId :
  failsClean (changeSlot sess seed socket slotId).
Proof. unfold changeSlot. clean. Qed.

Lemma failsClean_setRace socket id race :
  failsClean (setRaceCommand sess socket id race).
Proof. unfold setRaceCommand. clean. Qed.

Lemma failsClean_openSlot seed socket slotId :
  failsClean (openSlotCommand sess seed socket slotId).
Proof. unfold openSlotCommand. clean. Qed.

Lemma failsClean_removeClientFromLobby seed lobby userName removalType :
  failsClean (_removeClientFromLobby sess seed lobby userName removalType).
Proof.
  unfold _removeClientFromLobby, unregisterClientForUser, _publishToUser,
    _publishTo, _publishListChange.
  clean.
Qed.

#[local] Hint Resolve failsClean_removeClientFromLobby : cleans.

Lemma failsClean_kickPlayerFromLobby seed lobby teamIndex slotIndex player :
  failsClean (_kickPlayerFromLobby sess seed lobby teamIndex slotIndex
                                   player).
Proof.
  unfold _kickPlayerFromLobby. clean.
Qed.

#[local] Hint Resolve failsClean_kickPlayerFromLobby : cleans.

Lemma failsClean_kickPlayer seed socket slotId :
  failsClean (kickPlayer sess seed socket slotId).
Proof.
  unfold kickPlayer. clean.
Qed.

Lemma failsClean_makeObserver seed socket slotId :
  failsClean (makeObserverCommand sess seed socket slotId).
Proof. unfold makeObserverCommand. clean. Qed.

Lemma failsClean_removeObserver seed socket slotId :
  failsClean (removeObserverCommand sess seed socket slotId).
Proof. unfold removeObserverCommand. clean. Qed.

Lemma failsClean_leave seed socket : failsClean (leave sess seed socket).
Proof. unfold leave. clean. Qed.

Lemma failsClean_clientGone seed lobbyName userName :
  failsClean (clientGone sess seed lobbyName userName).
Proof. unfold clientGone. clean. Qed.

Lemma failsClean_startCountdown deferred loaderThrows socket :
  failsClean (startCountdown sess deferred loaderThrows socket).
Proof.
  unfold startCountdown. clean.
  apply failsWith_failsClean. unfold _publishTo, _publishListChange.
  repeat (apply failsWith_bind; [faults|intros ?]).
  intros st e st'.
  destruct (bind _ _ st) as [[e1|hs] st1]; [|by intros [=]].
  intros Hrun. by apply (faultless_settle (fun _ => False)) in Hrun.
Qed.

Lemma faultless_callback P (m : M unit) : failsWith P (callback m).
Proof. unfold callback. apply failsWith_tryCatch. intros. faults. Qed.

Lemma faultless_handshakeStep P hs ev : failsWith P (handshakeStep sess hs ev).
Proof.
  pose proof (faultless_callback P).
  destruct ev; simpl; unfold loaded, failed, _publishTo; faults.
Qed.

(** Every command but [closeSlot] and [banPlayer] fails cleanly. *)
Lemma failsClean_perform getMapInfo c :
  writesLast c = true -> failsClean (perform sess getMapInfo c).
Proof.
  destruct c; simpl; intros Hc; try discriminate Hc; clear Hc.
  - apply failsClean_subscribe.
  - apply failsClean_unsubscribe.
  - apply failsWith_failsClean. unfold onClose. faults.
  - apply failsClean_create.
  - apply failsClean_join.
  - apply failsClean_sendChat.
  - apply failsClean_addComputer.
  - apply failsClean_changeSlot.
  - apply failsClean_setRace.
  - apply failsClean_openSlot.
  - apply failsClean_kickPlayer.
  - apply failsClean_makeObserver.
  - apply failsClean_removeObserver.
  - apply failsClean_leave.
  - apply failsClean_clientGone.
  - apply reads_failsClean. unfold ignore. frame.
  - unfold ignore. apply failsClean_then; [apply failsClean_startCountdown|].
    intros. faults.
  - apply failsWith_failsClean. unfold ignore.
    apply failsWith_bind; [apply faultless_handshakeStep|intros; faults].
  - apply failsWith_failsClean. faults.
Qed.

End Faults.



(** ** Who may call what *)

(** Unfolds a command up to the lobby of its caller. *)
Ltac enter Hu Hc Hlobby :=
  unfold addComputer, changeSlot, setRaceCommand, openSlotCommand,
    closeSlotCommand, kickPlayer, banPlayer, makeObserverCommand,
    removeObserverCommand, startCountdown, sendChat, getUser, getClient;
  rewrite ?Hu, ?Hc; cbv [bind ret]; rewrite ?Hlobby; cbv [defined ret].

Lemma getLobbyForClient_found client name lobby st :
  lobbyClients st !! client = Some name ->
  lobbies st !! name = Some (Some lobby) ->
  getLobbyForClient client st = (inr (Some lobby), st).
Proof.
  intros Hin Hl. unfold getLobbyForClient, lobbyAt. cbv [bind gets].
  by rewrite Hin, Hl.
Qed.

Lemma getLobbyForClient_outside client st :
  lobbyClients st !! client = None ->
  getLobbyForClient client st
  = (inl (mkError BadRequest "must be in a lobby"), st).
Proof. intros Hout. unfold getLobbyForClient. cbv [bind gets]. by rewrite Hout. Qed.

Lemma ensureIsLobbyHost_refuses lobby seat st :
  slot_id seat <> slot_id (lobby_host lobby) ->
  ensureIsLobbyHost lobby (Some seat) st
  = (inl (mkError Unauthorized "must be a lobby host"), st).
Proof.
  intros Hne. unfold ensureIsLobbyHost. cbv [bind defined ret].
  by rewrite decide_False.
Qed.

(** X2.  The commands of the host are refused to any other member of
    the lobby: [addComputer], [openSlot], [closeSlot], [kickPlayer],
    [banPlayer], [makeObserver] and [removeObserver] fail with
    [Unauthorized] ("must be a lobby host") and change nothing.  So
    does [startCountdown] when the lobby has two opposing sides, and
    [setRace] on a computer slot when the lobby is not loading; the
    check that comes before that of the host refuses them otherwise,
    [startCountdown] with [BadRequest] and [setRace] with [Conflict],
    and nothing is changed either. *)
Theorem host_commands_refused_to_others
    (ops : LobbyOps) (sess : Sessions) (seed : nat) (socket : SocketId)
    (st : Registry) (user : User) (client : Client) (name : string)
    (lobby : Lobby) (seat : nat * nat * Slot) :
  getBySocket sess socket = Some user ->
  getCurrentClient sess socket = Some client ->
  lobbyClients st !! client = Some name ->
  lobbies st !! name = Some (Some lobby) ->
  findSlotByName lobby (client_name client) = Some seat ->
  slot_id seat.2 <> slot_id (lobby_host lobby) ->
  let refusal := mkError Unauthorized "must be a lobby host" in
  (forall slotId,
     addComputer sess seed socket slotId st = (inl refusal, st)
     /\ openSlotCommand sess seed socket slotId st = (inl refusal, st)
     /\ closeSlotCommand sess seed socket slotId st = (inl refusal, st)
     /\ kickPlayer sess seed socket slotId st = (inl refusal, st)
     /\ banPlayer sess seed socket slotId st = (inl refusal, st)
     /\ makeObserverCommand sess seed socket slotId st = (inl refusal, st)
     /\ removeObserverCommand sess seed socket slotId st
        = (inl refusal, st))
  /\ (forall deferred loaderThrows,
        startCountdown sess deferred loaderThrows socket st
        = (inl (if hasOpposingSides lobby then refusal
                else mkError BadRequest
                       "must have at least 2 opposing sides"),
           st))
  /\ (forall id race teamIndex slotIndex slot,
        findSlotById lobby id = Some (teamIndex, slotIndex, slot) ->
        slot_type slot = computer ->
        setRaceCommand sess socket id race st
        = (inl (if decide (loading st lobby)
                then mkError Conflict "lobby has already started"
                else refusal),
           st)).
Proof.
  intros Hu Hc Hin Hl Hseat Hother refusal.
  pose proof (getLobbyForClient_found client name lobby st Hin Hl) as Hlobby.
  assert (Hhost :
    ensureIsLobbyHost lobby
      (slotOf (findSlotByName lobby (client_name client))) st
    = (inl refusal, st)).
  { rewrite Hseat. destruct seat as [[? ?] s]. simpl.
    by apply ensureIsLobbyHost_refuses. }
  split; [|split].
  - intros slotId. split_all; enter Hu Hc Hlobby; by rewrite Hhost.
  - intros deferred loaderThrows. enter Hu Hc Hlobby.
    destruct (hasOpposingSides lobby); simpl; [|done]. by rewrite Hhost.
  - intros id race teamIndex slotIndex slot Hfound Hcomputer.
    enter Hu Hc Hlobby. rewrite ensureLobbyNotLoading_run.
    destruct (decide (loading st lobby)); [done|].
    rewrite Hfound, Hcomputer. simpl.
    unfold mayChangeRace. rewrite Hcomputer. simpl. by rewrite Hhost.
Qed.

Lemma host_commands_witness :
  kickPlayer (ops := SampleLobbies.ops) Scenario.sessions 4 "sock-bob"
             "slot-i-" Scenario.formed
  = (inl (mkError Unauthorized "must be a lobby host"), Scenario.formed).
Proof.
  destruct (host_commands_refused_to_others
              SampleLobbies.ops Scenario.sessions 4 "sock-bob"
              Scenario.formed Scenario.bobUser Scenario.bob "A"
              Scenario.lobbyA (1%nat, 0%nat, Scenario.bobSlot))
    as [Hslot _];
    [reflexivity | reflexivity | vm_compute; reflexivity
    | vm_compute; reflexivity | vm_compute; reflexivity
    | vm_compute; discriminate | ].
  destruct (Hslot "slot-i-") as (_ & _ & _ & Hkick & _). exact Hkick.
Defined.

(** X3.  A connection without a current client is refused by every
    command that acts for a client, with [Unauthorized] ("authorization
    required"), and nothing is changed. *)
Theorem commands_need_a_client
    (ops : LobbyOps) (sess : Sessions)
    (getMapInfo : string -> option N -> option MapInfo)
    (seed : nat) (socket : SocketId) (st : Registry) :
  getCurrentClient sess socket = None ->
  let refusal := mkError Unauthorized "authorization required" in
  (forall name map gameType gameSubType,
     create sess getMapInfo seed socket name map gameType gameSubType st
     = (inl refusal, st))
  /\ (forall name, join sess getMapInfo seed socket name st
                   = (inl refusal, st))
  /\ (forall time text, sendChat sess time socket text st
                        = (inl refusal, st))
  /\ (forall slotId,
        addComputer sess seed socket slotId st = (inl refusal, st)
        /\ changeSlot sess seed socket slotId st = (inl refusal, st)
        /\ openSlotCommand sess seed socket slotId st = (inl refusal, st)
        /\ closeSlotCommand sess seed socket slotId st = (inl refusal, st)
        /\ kickPlayer sess seed socket slotId st = (inl refusal, st)
        /\ banPlayer sess seed socket slotId st = (inl refusal, st)
        /\ makeObserverCommand sess seed socket slotId st
           = (inl refusal, st)
        /\ removeObserverCommand sess seed socket slotId st
           = (inl refusal, st))
  /\ (forall id race, setRaceCommand sess socket id race st
                      = (inl refusal, st))
  /\ (forall lobbyName, getLobbyState sess socket lobbyName st
                        = (inl refusal, st))
  /\ (forall deferred loaderThrows,
        startCountdown sess deferred loaderThrows socket st
        = (inl refusal, st)).
Proof.
  intros Hc refusal.
  split_all; intros; split_all;
    unfold create, join, getLobbyState;
    enter Hc Hc Hc; try reflexivity;
    destruct (getBySocket sess socket); reflexivity.
Qed.

(** X4.  A client that is in no lobby is refused by every command on a
    lobby, with [BadRequest] ("must be in a lobby"); [leave], which goes
    by the active client of the user, is refused the same way, and with
    "no active client for user" when the user has none.  Nothing is
    changed. *)
Theorem commands_need_a_lobby
    (ops : LobbyOps) (sess : Sessions) (seed : nat) (socket : SocketId)
    (st : Registry) (user : User) (client : Client) :
  getBySocket sess socket = Some user ->
  getCurrentClient sess socket = Some client ->
  lobbyClients st !! client = None ->
  let refusal := mkError BadRequest "must be in a lobby" in
  (forall time text, sendChat sess time socket text st = (inl refusal, st))
  /\ (forall slotId,
        addComputer sess seed socket slotId st = (inl refusal, st)
        /\ changeSlot sess seed socket slotId st = (inl refusal, st)
        /\ openSlotCommand sess seed socket slotId st = (inl refusal, st)
        /\ closeSlotCommand sess seed socket slotId st = (inl refusal, st)
        /\ kickPlayer sess seed socket slotId st = (inl refusal, st)
        /\ banPlayer sess seed socket slotId st = (inl refusal, st)
        /\ makeObserverCommand sess seed socket slotId st
           = (inl refusal, st)
        /\ removeObserverCommand sess seed socket slotId st
           = (inl refusal, st))
  /\ (forall id race, setRaceCommand sess socket id race st
                      = (inl refusal, st))
  /\ (forall deferred loaderThrows,
        startCountdown sess deferred loaderThrows socket st
        = (inl refusal, st))
  /\ (forall active,
        activeClients st !! user_name user = Some active ->
        lobbyClients st !! active = None ->
        leave sess seed socket st = (inl refusal, st))
  /\ (activeClients st !! user_name user = None ->
      leave sess seed socket st
      = (inl (mkError BadRequest "no active client for user"), st)).
Proof.
  intros Hu Hc Hout refusal.
  pose proof (getLobbyForClient_outside client st Hout) as Hlobby.
  split_all; try (intros; split_all; enter Hu Hc Hlobby; reflexivity).
  - intros active Hactive Hnone.
    unfold leave, getUser, getActiveClientForUser, getClientForUser.
    rewrite Hu. cbv [bind ret gets]. rewrite Hactive. cbv [bind ret].
    by rewrite getLobbyForClient_outside.
  - intros Hnone.
    unfold leave, getUser, getActiveClientForUser, getClientForUser.
    rewrite Hu. cbv [bind ret gets]. by rewrite Hnone.
Qed.

Lemma commands_need_a_lobby_witness :
  sendChat Scenario.sessions 1700000000000 "sock-bob" [104%N]
           Scenario.created
  = (inl (mkError BadRequest "must be in a lobby"), Scenario.created).
Proof.
  destruct (commands_need_a_lobby
              SampleLobbies.ops Scenario.sessions 4 "sock-bob"
              Scenario.created Scenario.bobUser Scenario.bob)
    as [Hchat _]; [reflexivity | reflexivity | vm_compute; reflexivity | ].
  apply Hchat.
Defined.

Lemma commands_need_a_client_witness :
  getLobbyState Scenario.sessions "sock-carol" "A" Scenario.formed
  = (inl (mkError Unauthorized "authorization required"), Scenario.formed).
Proof.
  destruct (commands_need_a_client
              SampleLobbies.ops Scenario.sessions Scenario.maps 4
              "sock-carol" Scenario.formed)
    as (_ & _ & _ & _ & _ & Hstate & _); [reflexivity|].
  apply Hstate.
Defined.

(** ** Joining *)

Lemma ensureLobbyNotTransient_passes lobby st :
  ~ countingDown st lobby -> ~ loading st lobby ->
  ensureLobbyNotTransient lobby st = (inr tt, st).
Proof.
  intros Hc Hl. unfold ensureLobbyNotTransient. cbv [bind gets].
  unfold countingDown in Hc. unfold loading in Hl.
  by rewrite !decide_False.
Qed.

(** X5.  [join] refuses, and changes nothing, in this order: a name
    under which no lobby is stored, with [NotFound]; a lobby that is
    counting down or loading, with [Conflict]; a client whose name is on
    the ban list of the lobby, with [Conflict] ("user has been banned
    from this lobby"); a lobby without an available slot, with [Conflict]
    ("lobby is full"). *)
Theorem join_refusals
    (ops : LobbyOps) (sess : Sessions)
    (getMapInfo : string -> option N -> option MapInfo)
    (seed : nat) (socket : SocketId) (name : string) (st : Registry)
    (user : User) (client : Client) :
  getBySocket sess socket = Some user ->
  getCurrentClient sess socket = Some client ->
  let outcome := join sess getMapInfo seed socket name st in
  (lobbies st !! name = None ->
   outcome = (inl (mkError NotFound "no lobby found with that name"), st))
  /\ (forall lobby,
        lobbies st !! name = Some (Some lobby) ->
        let banned :=
          client_name client
            ∈ default [] (lobbyBannedUsers st !! lobby_name lobby) in
        (banned ->
         exists e, outcome = (inl e, st) /\ err_kind e = Conflict)
        /\ (~ countingDown st lobby -> ~ loading st lobby ->
            (banned ->
             outcome
             = (inl (mkError Conflict "user has been banned from this lobby"),
                st))
            /\ (~ banned ->
                forall teamIndex slotIndex available,
                  findAvailableSlot lobby
                  = (teamIndex, slotIndex, available) ->
                  teamIndex < 0 \/ slotIndex < 0 ->
                  outcome = (inl (mkError Conflict "lobby is full"), st)))).
Proof.
  intros Hu Hc outcome. subst outcome. split.
  - intros Hnone. unfold join, getUser, getClient. rewrite Hu, Hc.
    cbv [bind ret gets]. by rewrite Hnone.
  - intros lobby Hl banned.
    assert (Hstart :
      join sess getMapInfo seed socket name st
      = (call _ <- ensureLobbyNotTransient lobby;
         call bans <- gets lobbyBannedUsers;
         if bool_decide (client_name client
                           ∈ default [] (bans !! lobby_name lobby))
         then throw Conflict "user has been banned from this lobby"
         else
           let '(teamIndex, slotIndex, availableSlot) :=
             findAvailableSlot lobby in
           if bool_decide (teamIndex < 0) || bool_decide (slotIndex < 0)
           then throw Conflict "lobby is full"
           else
             call player <- joiningPlayer seed lobby client availableSlot;
             let updated :=
               addPlayer seed lobby (Z.to_nat teamIndex)
                         (Z.to_nat slotIndex) player in
             call registered <- registerActiveClient (user_name user) client;
             if negb registered
             then throw Conflict
                        "user is already active in a gameplay activity"
             else
               call map <- defined (lobby_map lobby);
               let mapInfo :=
                 getMapInfo (map_id map) (slot_userId (lobby_host lobby)) in
               let updated := set_map updated mapInfo in
               exec modify (set_lobbies (insert name (Some updated)));
               exec modify (set_lobbyClients (insert client name));
               exec _publishLobbyDiff lobby updated None None None;
               _subscribeClientToLobby lobby user client) st).
    { unfold join, getUser, getClient. rewrite Hu, Hc.
      cbv [bind ret gets]. rewrite Hl. reflexivity. }
    assert (Hbanned :
      ~ countingDown st lobby -> ~ loading st lobby -> banned ->
      join sess getMapInfo seed socket name st
      = (inl (mkError Conflict "user has been banned from this lobby"), st)).
    { intros Hcount Hload Hban. rewrite Hstart. unfold bind at 1.
      rewrite ensureLobbyNotTransient_passes by done.
      cbv [bind gets]. by rewrite bool_decide_eq_true_2. }
    split.
    + intros Hban.
      destruct (decide (countingDown st lobby \/ loading st lobby))
        as [Htransient|Hsteady].
      * exists (transientRefusal st lobby). split.
        -- rewrite Hstart. unfold bind at 1.
           by rewrite ensureLobbyNotTransient_refuses.
        -- unfold transientRefusal. by destruct (decide _).
      * eexists. split; [apply Hbanned; tauto|done].
    + intros Hcount Hload. split; [by apply Hbanned|].
      intros Hfree teamIndex slotIndex available Hfind Hfull.
      rewrite Hstart. unfold bind at 1.
      rewrite ensureLobbyNotTransient_passes by done.
      cbv [bind gets]. rewrite bool_decide_eq_false_2 by done.
      rewrite Hfind.
      assert (bool_decide (teamIndex < 0) || bool_decide (slotIndex < 0)
              = true) as ->; [|done].
      destruct Hfull; [rewrite bool_decide_eq_true_2 by done; done|].
      rewrite (bool_decide_eq_true_2 (slotIndex < 0)) by done.
      apply orb_true_r.
Qed.

Lemma join_refusals_witness :
  join (ops := SampleLobbies.ops) Scenario.sessions Scenario.maps 5
       "sock-bob" "A"
       (set_lobbyBannedUsers (insert "A" ["bob"]) Scenario.created)
  = (inl (mkError Conflict "user has been banned from this lobby"),
     set_lobbyBannedUsers (insert "A" ["bob"]) Scenario.created).
Proof.
  destruct (join_refusals
              SampleLobbies.ops Scenario.sessions Scenario.maps 5 "sock-bob"
              "A" (set_lobbyBannedUsers (insert "A" ["bob"]) Scenario.created)
              Scenario.bobUser Scenario.bob eq_refl eq_refl)
    as [_ Hlobby].
  destruct (Hlobby Scenario.lobbyOfAlice) as [_ Hsteady];
    [vm_compute; reflexivity|].
  destruct Hsteady as [Hbanned _].
  - vm_compute. by intros [? [=]].
  - vm_compute. by intros [? [=]].
  - apply Hbanned. vm_compute. left.
Defined.

(** ** What a removal changes *)

(** The tables after [_removeClientFromLobby] has returned. *)
Lemma removeClientFromLobby_returned
    (ops : LobbyOps) sess seed lobby userName removalType st st' :
  _removeClientFromLobby sess seed (Some lobby) userName removalType st
  = (inr tt, st') ->
  exists user client,
    getByName sess userName = Some user
    /\ activeClients st !! userName = Some client
    /\ lobbyClients st' = delete client (lobbyClients st)
    /\ activeClients st' = delete userName (activeClients st)
    /\ lobbyCountdowns st' = delete (lobby_name lobby) (lobbyCountdowns st)
    /\ loadingLobbies st' = loadingLobbies st
    /\ subscribedSockets st' = subscribedSockets st
    /\ match removePlayer seed lobby (findSlotByName lobby userName) with
       | None =>
           lobbies st' = delete (lobby_name lobby) (lobbies st)
           /\ lobbyBannedUsers st'
              = delete (lobby_name lobby) (lobbyBannedUsers st)
       | Some updated =>
           lobbies st' = <[lobby_name lobby := Some updated]> (lobbies st)
           /\ lobbyBannedUsers st' = lobbyBannedUsers st
       end.
Proof.
  intros Hrun.
  destruct (getByName sess userName) as [user|] eqn:Hu.
  2: { revert Hrun. unfold _removeClientFromLobby, getUserByName.
       rewrite Hu. by cbv [bind throw throwE]. }
  destruct (activeClients st !! userName) as [client|] eqn:Hc.
  2: { revert Hrun.
       unfold _removeClientFromLobby, getUserByName, getActiveClientForUser,
         getClientForUser.
       rewrite Hu. cbv [bind ret gets]. rewrite Hc.
       by cbv [bind throw throwE]. }
  exists user, client. split; [done|]. split; [done|].
  rewrite (removeClientFromLobby_run ops sess seed lobby userName
             removalType st user client Hu Hc) in Hrun.
  destruct (removePlayer seed lobby (findSlotByName lobby userName))
    as [updated|].
  - rewrite publishLobbyDiff_run in Hrun.
    destruct (decide (lobby = updated)).
    + injection Hrun as <-. unfold released. read_fields. by split_all.
    + destruct (diffEvents _ _ _ _ _); [done|].
      injection Hrun as <-. unfold released. read_fields. by split_all.
  - injection Hrun as <-. unfold released, emptied. read_fields.
    by split_all.
Qed.

(** X6.  When [leave] returns, the caller's active client is out: its
    entry in [lobbyClients] and the user's entry in the activity registry
    are deleted, the countdown record of the lobby is deleted, the loading
    table and the list subscriptions are as before, and the lobby it was
    in is either stored anew as [removePlayer] returned it, with its ban
    list kept, or deleted together with its ban list. *)
Theorem leave_releases_client
    (ops : LobbyOps) (sess : Sessions) (seed : nat) (socket : SocketId)
    (st st' : Registry) :
  leave sess seed socket st = (inr tt, st') ->
  exists user client name lobby,
    getBySocket sess socket = Some user
    /\ activeClients st !! user_name user = Some client
    /\ lobbyClients st !! client = Some name
    /\ lobbies st !! name = Some (Some lobby)
    /\ lobbyClients st' = delete client (lobbyClients st)
    /\ activeClients st' = delete (user_name user) (activeClients st)
    /\ lobbyCountdowns st' = delete (lobby_name lobby) (lobbyCountdowns st)
    /\ loadingLobbies st' = loadingLobbies st
    /\ subscribedSockets st' = subscribedSockets st
    /\ match removePlayer seed lobby
               (findSlotByName lobby (user_name user)) with
       | None =>
           lobbies st' = delete (lobby_name lobby) (lobbies st)
           /\ lobbyBannedUsers st'
              = delete (lobby_name lobby) (lobbyBannedUsers st)
       | Some updated =>
           lobbies st' = <[lobby_name lobby := Some updated]> (lobbies st)
           /\ lobbyBannedUsers st' = lobbyBannedUsers st
       end.
Proof.
  unfold leave, getUser, getActiveClientForUser, getClientForUser,
    getLobbyForClient, lobbyAt.
  destruct (getBySocket sess socket) as [user|]; [|done].
  cbv [bind ret gets].
  destruct (activeClients st !! user_name user) as [client|] eqn:Hactive;
    [|done].
  cbv [bind ret gets].
  destruct (lobbyClients st !! client) as [name|] eqn:Hin; [|done].
  destruct (lobbies st !! name) as [[lobby|]|] eqn:Hl; simpl.
  - intros Hrun.
    apply removeClientFromLobby_returned in Hrun
      as (online & client' & _ & Hactive' & H1 & H2 & H3 & H4 & H5 & H6).
    assert (client' = client) as -> by congruence.
    exists user, client, name, lobby. split_all; done.
  - unfold _removeClientFromLobby, getUserByName.
    destruct (getByName sess (user_name user)); [|done].
    cbv [bind ret gets getActiveClientForUser getClientForUser].
    by rewrite Hactive.
  - unfold _removeClientFromLobby, getUserByName.
    destruct (getByName sess (user_name user)); [|done].
    cbv [bind ret gets getActiveClientForUser getClientForUser].
    by rewrite Hactive.
Qed.

Lemma leave_releases_witness :
  exists st',
    leave (ops := SampleLobbies.ops) Scenario.sessions 3 "sock-bob"
          Scenario.formed = (inr tt, st')
    /\ lobbyClients st' !! Scenario.bob = None
    /\ activeClients st' !! "bob" = None.
Proof.
  pose (st' := (leave (ops := SampleLobbies.ops) Scenario.sessions 3
                      "sock-bob" Scenario.formed).2).
  assert (Hrun : leave (ops := SampleLobbies.ops) Scenario.sessions 3
                       "sock-bob" Scenario.formed = (inr tt, st'))
    by (vm_compute; reflexivity).
  exists st'. split; [exact Hrun|].
  destruct (leave_releases_client SampleLobbies.ops Scenario.sessions 3
              "sock-bob" Scenario.formed st' Hrun)
    as (user & client & name & lobby & Hu & Hactive & _ & _ & Hclients
        & Hactives & _).
  injection Hu as <-.
  assert (client = Scenario.bob) as ->.
  { revert Hactive. vm_compute. congruence. }
  rewrite Hclients, Hactives. split; apply lookup_delete_eq.
Defined.

(** X7.  When [banPlayer] returns, the player of the slot was a human
    whose name has been appended to the ban list of the lobby, the bans
    made before being kept in their order; that player's active client
    has left the lobby and the activity registry.  The lobby is stored
    anew as [removePlayer] returned it; if [removePlayer] reported it
    empty, the lobby and its ban list are deleted. *)
Theorem banPlayer_bans_and_removes
    (ops : LobbyOps) (sess : Sessions) (seed : nat) (socket : SocketId)
    (slotId : string) (st st' : Registry) :
  banPlayer sess seed socket slotId st = (inr tt, st') ->
  exists client name lobby teamIndex slotIndex player removed,
    getCurrentClient sess socket = Some client
    /\ lobbyClients st !! client = Some name
    /\ lobbies st !! name = Some (Some lobby)
    /\ findSlotById lobby slotId = Some (teamIndex, slotIndex, player)
    /\ slot_type player = human
    /\ activeClients st !! slot_name player = Some removed
    /\ lobbyClients st' = delete removed (lobbyClients st)
    /\ activeClients st' = delete (slot_name player) (activeClients st)
    /\ match removePlayer seed lobby
               (findSlotByName lobby (slot_name player)) with
       | None =>
           lobbies st' = delete (lobby_name lobby) (lobbies st)
           /\ lobbyBannedUsers st' !! lobby_name lobby = None
       | Some updated =>
           lobbies st' = <[lobby_name lobby := Some updated]> (lobbies st)
           /\ lobbyBannedUsers st' !! lobby_name lobby
              = Some (default [] (lobbyBannedUsers st !! lobby_name lobby)
                      ++ [slot_name player])
       end
    /\ forall other,
         other <> lobby_name lobby ->
         lobbyBannedUsers st' !! other = lobbyBannedUsers st !! other.
Proof.
  unfold banPlayer, getClient, getLobbyForClient, lobbyAt.
  destruct (getCurrentClient sess socket) as [client|]; [|done].
  cbv [bind ret gets].
  destruct (lobbyClients st !! client) as [name|] eqn:Hin; [|done].
  destruct (lobbies st !! name) as [[lobby|]|] eqn:Hl; [|done..].
  cbv [mjoin option_join defined ret].
  destruct (ensureIsLobbyHost _ _ st) as [[?|[]] st1] eqn:Hhost; [done|].
  apply (preserves_ensureIsLobbyHost (fun st => st)) in Hhost. simpl in Hhost.
  subst st1.
  destruct (ensureLobbyNotTransient _ st) as [[?|[]] st1] eqn:Hsteady;
    [done|].
  apply (preserves_ensureLobbyNotTransient (fun st => st)) in Hsteady.
  simpl in Hsteady. subst st1.
  destruct (findSlotById lobby slotId) as [[[teamIndex slotIndex] player]|]
    eqn:Hfound; [|done].
  destruct (decide (slot_type player = human)) as [Hhuman|Hother].
  2: { by rewrite bool_decide_eq_false_2. }
  rewrite bool_decide_eq_true_2 by done. cbv [negb modify].
  intros Hrun.
  apply removeClientFromLobby_returned in Hrun
    as (online & removed & _ & Hactive & H1 & H2 & _ & _ & _ & H3).
  read_fields.
  exists client, name, lobby, teamIndex, slotIndex, player, removed.
  split_all; try done.
  - destruct (removePlayer _ _ _) as [updated|]; destruct H3 as [H3 H4];
      (split; [done|]); rewrite H4.
    + apply lookup_insert_eq.
    + apply lookup_delete_eq.
  - intros other Hne.
    destruct (removePlayer _ _ _) as [updated|]; destruct H3 as [_ H4];
      rewrite H4.
    + by rewrite lookup_insert_ne.
    + rewrite lookup_delete_ne by done. by rewrite lookup_insert_ne.
Qed.

Lemma banPlayer_bans_witness :
  exists st',
    banPlayer (ops := SampleLobbies.ops) Scenario.sessions 4 "sock-alice"
              "slot-ii-" Scenario.formed = (inr tt, st')
    /\ lobbyBannedUsers st' !! "A" = Some ["bob"]
    /\ lobbyClients st' !! Scenario.bob = None.
Proof.
  pose (st' := (banPlayer (ops := SampleLobbies.ops) Scenario.sessions 4
                          "sock-alice" "slot-ii-" Scenario.formed).2).
  assert (Hrun : banPlayer (ops := SampleLobbies.ops) Scenario.sessions 4
                           "sock-alice" "slot-ii-" Scenario.formed
                 = (inr tt, st'))
    by (vm_compute; reflexivity).
  exists st'. split; [exact Hrun|].
  destruct (banPlayer_bans_and_removes SampleLobbies.ops Scenario.sessions
              4 "sock-alice" "slot-ii-" Scenario.formed st' Hrun)
    as (client & name & lobby & teamIndex & slotIndex & player & removed
        & Hc & Hin & Hl & Hfound & _ & Hactive & Hclients & _ & Hbans & _).
  injection Hc as <-.
  assert (name = "A") as -> by (revert Hin; vm_compute; congruence).
  assert (lobby = Scenario.lobbyA) as ->
    by (revert Hl; vm_compute; congruence).
  assert (player = Scenario.bobSlot) as ->
    by (revert Hfound; vm_compute; congruence).
  assert (removed = Scenario.bob) as ->
    by (revert Hactive; vm_compute; congruence).
  split.
  - revert Hbans. vm_compute. tauto.
  - rewrite Hclients. apply lookup_delete_eq.
Defined.

(** ** Counting the subscriptions of a connection *)

Lemma summaries_run st :
  noNullLobby st ->
  exists summary, summaries st = (inr summary, st).
Proof.
  intros Hnull. unfold summaries. cbv [bind gets].
  destruct (mapM _ _) as [ls|] eqn:E; [by eexists|].
  assert (is_Some (mapM (fun kv : string * option Lobby => kv.2)
                        (map_to_list (lobbies st)))) as [? Hsome];
    [|congruence].
  apply mapM_is_Some, Forall_forall. intros [name [l|]] Hin; [by eexists|].
  apply elem_of_map_to_list in Hin. by destruct (Hnull name).
Qed.

Lemma subscribe_first socket summary st :
  subscribedSockets st !! socket = None ->
  summaries st = (inr summary, st) ->
  subscribe socket st
  = (inr tt,
     set_subscribedSockets (insert socket {| count := 1 |})
       (add_effects [NydusSubscribe socket MountBase (ListFull summary);
                     SocketOnceClose socket] st)).
Proof.
  intros Hnone Hsum. unfold subscribe. cbv [bind gets]. rewrite Hnone, Hsum.
  cbv [emit modify]. f_equal. registry_eq.
Qed.

Lemma subscribe_more socket sub st :
  subscribedSockets st !! socket = Some sub ->
  subscribe socket st
  = (inr tt,
     set_subscribedSockets (insert socket {| count := count sub + 1 |}) st).
Proof.
  intros Hsub. unfold subscribe. cbv [bind gets modify]. rewrite Hsub.
  f_equal. registry_eq. apply map_eq. intros k.
  destruct (decide (k = socket)) as [->|Hne].
  - by rewrite lookup_alter_eq, lookup_insert_eq, Hsub.
  - by rewrite lookup_alter_ne, lookup_insert_ne.
Qed.

Lemma unsubscribe_more socket sub st :
  subscribedSockets st !! socket = Some sub ->
  count sub <> 1 ->
  unsubscribe socket st
  = (inr tt,
     set_subscribedSockets (insert socket {| count := count sub - 1 |}) st).
Proof.
  intros Hsub Hcount. unfold unsubscribe. cbv [bind gets modify].
  rewrite Hsub, decide_False by done.
  f_equal. registry_eq. apply map_eq. intros k.
  destruct (decide (k = socket)) as [->|Hne].
  - by rewrite lookup_alter_eq, lookup_insert_eq, Hsub.
  - by rewrite lookup_alter_ne, lookup_insert_ne.
Qed.

Lemma unsubscribe_last socket sub st :
  subscribedSockets st !! socket = Some sub ->
  count sub = 1 ->
  unsubscribe socket st
  = (inr tt,
     set_subscribedSockets (delete socket)
       (add_effects [NydusUnsubscribe socket MountBase;
                     SocketRemoveCloseListener socket] st)).
Proof.
  intros Hsub Hcount. unfold unsubscribe. cbv [bind gets modify emit].
  rewrite Hsub, decide_True by done.
  f_equal. registry_eq.
Qed.

Lemma times_subscribe socket n : forall sub st,
  subscribedSockets st !! socket = Some sub ->
  times n (subscribe socket) st
  = (inr tt,
     set_subscribedSockets
       (insert socket {| count := count sub + Z.of_nat n |}) st).
Proof.
  induction n as [|n IH]; intros sub st Hsub.
  - simpl. cbv [ret]. f_equal. registry_eq.
    rewrite Z.add_0_r. destruct sub. symmetry. by apply insert_id.
  - change (times (S n) (subscribe socket))
      with (exec subscribe socket; times n (subscribe socket)).
    unfold bind. rewrite (subscribe_more socket sub st Hsub).
    rewrite (IH {| count := count sub + 1 |}).
    + f_equal. registry_eq. rewrite insert_insert_eq. simpl.
      do 2 f_equal. lia.
    + read_fields. apply lookup_insert_eq.
Qed.

Lemma times_unsubscribe socket k : forall sub st,
  subscribedSockets st !! socket = Some sub ->
  Z.of_nat k < count sub ->
  times k (unsubscribe socket) st
  = (inr tt,
     set_subscribedSockets
       (insert socket {| count := count sub - Z.of_nat k |}) st).
Proof.
  induction k as [|k IH]; intros sub st Hsub Hk.
  - simpl. cbv [ret]. f_equal. registry_eq.
    rewrite Z.sub_0_r. destruct sub. symmetry. by apply insert_id.
  - change (times (S k) (unsubscribe socket))
      with (exec unsubscribe socket; times k (unsubscribe socket)).
    unfold bind. rewrite (unsubscribe_more socket sub st Hsub) by lia.
    rewrite (IH {| count := count sub - 1 |}).
    + f_equal. registry_eq. rewrite insert_insert_eq. simpl.
      do 2 f_equal. lia.
    + read_fields. apply lookup_insert_eq.
    + simpl. lia.
Qed.

(** X8.  A connection that subscribes [n + 1] times to the list of
    lobbies is subscribed to it once, with the summaries of the lobbies
    as its first message, and holds the count [n + 1].  Up to [n] calls
    of [unsubscribe] only lower the count.  The call [n + 1] takes the
    subscription away: the registry is then what it was at the start but
    for the four calls made to the socket layer, and one more
    [unsubscribe] is refused with [Conflict]. *)
Theorem subscriptions_are_counted
    (socket : SocketId) (n : nat) (st : Registry) :
  subscribedSockets st !! socket = None ->
  noNullLobby st ->
  exists summary,
    let subscribed :=
      set_subscribedSockets
        (insert socket {| count := Z.of_nat (S n) |})
        (add_effects [NydusSubscribe socket MountBase (ListFull summary);
                      SocketOnceClose socket] st) in
    let back :=
      add_effects [NydusSubscribe socket MountBase (ListFull summary);
                   SocketOnceClose socket;
                   NydusUnsubscribe socket MountBase;
                   SocketRemoveCloseListener socket] st in
    summaries st = (inr summary, st)
    /\ times (S n) (subscribe socket) st = (inr tt, subscribed)
    /\ (forall k, (k <= n)%nat ->
          times k (unsubscribe socket) subscribed
          = (inr tt,
             set_subscribedSockets
               (insert socket {| count := Z.of_nat (S n - k) |})
               subscribed))
    /\ times (S n) (unsubscribe socket) subscribed = (inr tt, back)
    /\ unsubscribe socket back
       = (inl (mkError Conflict "not subscribed"), back).
Proof.
  intros Hnone Hnull.
  destruct (summaries_run st Hnull) as [summary Hsum].
  exists summary. intros subscribed back.
  assert (Hfirst := subscribe_first socket summary st Hnone Hsum).
  assert (Hsubscribed :
    times (S n) (subscribe socket) st = (inr tt, subscribed)).
  { change (times (S n) (subscribe socket))
      with (exec subscribe socket; times n (subscribe socket)).
    unfold bind. rewrite Hfirst.
    rewrite (times_subscribe socket n {| count := 1 |})
      by (read_fields; apply lookup_insert_eq).
    f_equal. subst subscribed. registry_eq. rewrite insert_insert_eq.
    simpl count. do 2 f_equal. lia. }
  assert (Hheld : subscribedSockets subscribed !! socket
                  = Some {| count := Z.of_nat (S n) |}).
  { subst subscribed. read_fields. apply lookup_insert_eq. }
  assert (Hlower : forall k, (k <= n)%nat ->
    times k (unsubscribe socket) subscribed
    = (inr tt,
       set_subscribedSockets
         (insert socket {| count := Z.of_nat (S n - k) |}) subscribed)).
  { intros k Hk.
    rewrite (times_unsubscribe socket k _ _ Hheld) by (simpl; lia).
    simpl count. do 4 f_equal. lia. }
  split_all; try done.
  - assert (Hsplit : forall m st0,
      times (S n) m st0 = (exec times n m; m) st0).
    { intros m st0. clear. revert st0.
      induction n as [|n IH]; intros st0; simpl.
      - cbv [bind ret]. destruct (m st0) as [[?|[]] ?]; reflexivity.
      - change (times (S n) m) with (exec m; times n m) in IH.
        unfold bind in *. destruct (m st0) as [[?|[]] st1]; [done|].
        apply IH. }
    rewrite Hsplit. unfold bind. rewrite Hlower by lia.
    rewrite (unsubscribe_last socket {| count := Z.of_nat (S n - n) |}).
    + f_equal. subst subscribed back. registry_eq.
      rewrite !delete_insert_eq. by apply delete_id.
    + read_fields. apply lookup_insert_eq.
    + simpl. lia.
  - unfold unsubscribe. cbv [bind gets]. subst back. read_fields.
    by rewrite Hnone.
Qed.

Lemma subscriptions_are_counted_witness :
  exists summary,
    times 3 (subscribe "sock-bob") Scenario.formed
    = (inr tt,
       set_subscribedSockets (insert "sock-bob" {| count := 3 |})
         (add_effects
            [NydusSubscribe "sock-bob" MountBase (ListFull summary);
             SocketOnceClose "sock-bob"] Scenario.formed)).
Proof.
  destruct (subscriptions_are_counted "sock-bob" 2 Scenario.formed)
    as (summary & _ & Hsubscribed & _).
  - vm_compute. reflexivity.
  - intros name Hl.
    destruct (reachable_humansEverywhere sample_laws Scenario.formed
                formed_reachable name None Hl) as (l & Hsome & _).
    discriminate Hsome.
  - exists summary. exact Hsubscribed.
Defined.

(** ** The subscription counts stay positive *)

Lemma preserves_of {A F G} (f : Registry -> F) (g : F -> G) (m : M A) :
  preserves f m -> preserves (fun st => g (f st)) m.
Proof. intros Hm st r st' Hrun. by rewrite (Hm _ _ _ Hrun). Qed.

(** What leaves both tables alone leaves each of them alone. *)
#[global] Hint Extern 2 (preserves subscribedSockets _) =>
  apply (preserves_of tables fst); solve [auto 1 with frames nocore]
  : frames.
#[global] Hint Extern 2 (preserves lobbyBannedUsers _) =>
  apply (preserves_of tables snd); solve [auto 1 with frames nocore]
  : frames.

Section SubscriptionFrame.
Context {ops : LobbyOps} (sess : Sessions).
Context (getMapInfo : string -> option N -> option MapInfo).

Lemma untouched_publishLobbyDiff old new kicked banned deleted :
  preserves tables (_publishLobbyDiff old new kicked banned deleted).
Proof.
  intros st r st'. rewrite publishLobbyDiff_run.
  destruct (decide _); [by intros [= <- <-]|].
  destruct (diffEvents _ _ _ _ _); by intros [= <- <-].
Qed.

Lemma untouched_registerActiveClient name client :
  preserves tables (registerActiveClient name client).
Proof. unfold registerActiveClient. frame. Qed.

Lemma untouched_maybeCancelCountdown lobby :
  preserves tables (_maybeCancelCountdown lobby).
Proof.
  unfold _maybeCancelCountdown, _publishTo, _publishListChange, emit.
  frame.
Qed.

Lemma untouched_subscribeClientToLobby lobby user client :
  preserves tables (_subscribeClientToLobby lobby user client).
Proof. unfold _subscribeClientToLobby, emit. frame. Qed.

Lemma untouched_publishToClient lobby name m :
  preserves tables (_publishToClient lobby name m).
Proof. unfold _publishToClient, emit. frame. Qed.

#[local] Hint Resolve untouched_publishLobbyDiff
  untouched_registerActiveClient untouched_maybeCancelCountdown
  untouched_subscribeClientToLobby untouched_publishToClient : frames.

Lemma untouched_removeClientFromLobby seed lobby userName removalType :
  preserves subscribedSockets
    (_removeClientFromLobby sess seed lobby userName removalType).
Proof.
  unfold _removeClientFromLobby, commit, unregisterClientForUser,
    _publishToUser, _publishTo, _publishListChange, emit.
  frame.
Qed.

#[local] Hint Resolve untouched_removeClientFromLobby : frames.

Lemma untouched_kickPlayerFromLobby seed lobby teamIndex slotIndex player :
  preserves subscribedSockets
    (_kickPlayerFromLobby sess seed lobby teamIndex slotIndex player).
Proof. unfold _kickPlayerFromLobby. frame. Qed.

#[local] Hint Resolve untouched_kickPlayerFromLobby : frames.

Lemma untouched_rollback hs : preserves tables (rollback hs).
Proof.
  unfold rollback, _onLoadingCanceled, _publishTo, _publishListChange, emit.
  frame.
Qed.

Lemma untouched_finally thrown hs :
  preserves tables (finally thrown hs).
Proof. unfold finally, clearHandle, emit. frame. Qed.

Lemma untouched_settle (body : M Handshake) hs :
  preserves tables body ->
  preserves tables (settle body hs).
Proof.
  intros Hbody st r st'. unfold settle.
  destruct (tryCatch body _ st) as [[e|hs'] st1] eqn:E; intros Hfin;
    rewrite (untouched_finally _ _ _ _ _ Hfin);
    revert E; apply preserves_tryCatch; try done;
    intros; apply untouched_rollback.
Qed.

Lemma untouched_onGameLoaded lobby :
  preserves tables (_onGameLoaded sess lobby).
Proof.
  unfold _onGameLoaded, _publishTo, _publishToUser, unregisterClientForUser,
    emit.
  frame.
Qed.

Lemma untouched_startCountdown deferred loaderThrows socket :
  preserves tables
    (startCountdown sess deferred loaderThrows socket).
Proof.
  unfold startCountdown, _publishTo, _publishListChange, emit.
  apply preserves_bind; [frame|intros client].
  apply preserves_bind; [frame|intros lobby].
  apply preserves_bind; [frame|intros lobby'].
  destruct (negb _); [frame|].
  repeat (apply preserves_bind; [frame|intros ?]).
  intros st r st'.
  destruct (bind _ _ st) as [[e|hs] st1] eqn:E.
  - intros Hsettle.
    rewrite (untouched_settle _ _ (preserves_throwE _ e) _ _ _ Hsettle).
    revert E. frame.
  - intros [= <- <-]. revert E. frame.
Qed.

Lemma untouched_handshakeStep hs ev :
  preserves tables (handshakeStep sess hs ev).
Proof.
  assert (Hloaded : forall hs', preserves tables (loaded sess hs')).
  { intros hs'. unfold loaded. apply untouched_settle.
    apply preserves_bind; [apply untouched_onGameLoaded|intros; frame]. }
  assert (Hfailed : forall hs', preserves tables (failed hs')).
  { intros hs'. unfold failed. apply untouched_settle. frame. }
  destruct ev; simpl;
    unfold callback, _onGameSetup, _onRoutesSet, _publishTo, emit; frame.
Qed.

(** Every call but [subscribe], [unsubscribe] and the [close] of a
    socket leaves the table of list subscriptions as it is. *)
Lemma untouched_perform c :
  match c with
  | Subscribe _ | Unsubscribe _ | Close _ => True
  | _ => preserves subscribedSockets (perform sess getMapInfo c)
  end.
Proof.
  destruct c; simpl; try done.
  - unfold create, _publishListChange, emit. frame.
  - unfold join. frame.
  - unfold sendChat, _publishTo, emit. frame.
  - unfold addComputer, commit. frame.
  - unfold changeSlot, commit. frame.
  - unfold setRaceCommand, commit. frame.
  - unfold openSlotCommand, commit. frame.
  - unfold closeSlotCommand, commit. frame.
  - unfold kickPlayer. frame.
  - unfold banPlayer. frame.
  - unfold makeObserverCommand, commit. frame.
  - unfold removeObserverCommand, commit. frame.
  - unfold leave. frame.
  - unfold clientGone. frame.
  - unfold ignore. frame.
  - unfold ignore. apply preserves_bind; [|intros; frame].
    apply (preserves_of tables fst), untouched_startCountdown.
  - unfold ignore. apply preserves_bind; [|intros; frame].
    apply (preserves_of tables fst), untouched_handshakeStep.
  - frame.
Qed.

End SubscriptionFrame.

#[global] Hint Resolve untouched_publishLobbyDiff
  untouched_registerActiveClient untouched_maybeCancelCountdown
  untouched_subscribeClientToLobby untouched_publishToClient
  untouched_startCountdown untouched_handshakeStep : frames.

Lemma countsPositive_subscribe socket st r st' :
  countsPositive st -> subscribe socket st = (r, st') -> countsPositive st'.
Proof.
  intros Hinv. unfold subscribe. cbv [bind gets].
  destruct (subscribedSockets st !! socket) as [sub|] eqn:Hsub.
  - intros [= <- <-] k s. read_fields.
    destruct (decide (k = socket)) as [->|Hne].
    + rewrite lookup_alter_eq, Hsub. intros [= <-]. simpl.
      specialize (Hinv _ _ Hsub). lia.
    + rewrite lookup_alter_ne by done. apply Hinv.
  - destruct (summaries st) as [[e|summary] st0] eqn:Es.
    + apply summaries_effects in Es. subst st0. by intros [= <- <-].
    + apply summaries_effects in Es. subst st0.
      cbv [emit modify]. intros [= <- <-] k s. read_fields.
      destruct (decide (k = socket)) as [->|Hne].
      * rewrite lookup_insert_eq. by intros [= <-].
      * rewrite lookup_insert_ne by done. apply Hinv.
Qed.

Lemma countsPositive_unsubscribe socket st r st' :
  countsPositive st -> unsubscribe socket st = (r, st') -> countsPositive st'.
Proof.
  intros Hinv. unfold unsubscribe. cbv [bind gets].
  destruct (subscribedSockets st !! socket) as [sub|] eqn:Hsub.
  - destruct (decide (count sub = 1)) as [Hone|Hmore].
    + cbv [emit modify]. intros [= <- <-] k s. read_fields.
      destruct (decide (k = socket)) as [->|Hne].
      * by rewrite lookup_delete_eq.
      * rewrite lookup_delete_ne by done. apply Hinv.
    + cbv [modify]. intros [= <- <-] k s. read_fields.
      destruct (decide (k = socket)) as [->|Hne].
      * rewrite lookup_alter_eq, Hsub. intros [= <-]. simpl.
        specialize (Hinv _ _ Hsub). lia.
      * rewrite lookup_alter_ne by done. apply Hinv.
  - by intros [= <- <-].
Qed.

Lemma countsPositive_onClose socket st r st' :
  countsPositive st -> onClose socket st = (r, st') -> countsPositive st'.
Proof.
  intros Hinv. unfold onClose. cbv [bind emit modify].
  intros [= <- <-] k s. read_fields.
  destruct (decide (k = socket)) as [->|Hne].
  - by rewrite lookup_delete_eq.
  - rewrite lookup_delete_ne by done. apply Hinv.
Qed.

(** X9.  In every registry the service can reach, the count of a list
    subscription is at least one: [unsubscribe] never leaves a
    subscription with a count of zero or less, whatever the order of the
    calls. *)
Theorem subscription_counts_stay_positive
    {ops : LobbyOps} (st : Registry) (socket : SocketId)
    (sub : ListSubscription) :
  Reachable st ->
  subscribedSockets st !! socket = Some sub ->
  1 <= count sub.
Proof.
  intros Hreach. revert socket sub.
  change (countsPositive st).
  induction Hreach as [|st sess getMapInfo c r st' _ IH Hrun].
  - intros socket sub. simpl. by rewrite lookup_empty.
  - pose proof (untouched_perform sess getMapInfo c) as Hframe.
    destruct c;
      try (intros k s; rewrite (Hframe _ _ _ Hrun); apply IH).
    + exact (countsPositive_subscribe _ _ _ _ IH Hrun).
    + exact (countsPositive_unsubscribe _ _ _ _ IH Hrun).
    + exact (countsPositive_onClose _ _ _ _ IH Hrun).
Qed.

Lemma subscription_counts_witness :
  Reachable (ops := SampleLobbies.ops)
            (subscribe "sock-bob" Scenario.formed).2
  /\ subscribedSockets (subscribe "sock-bob" Scenario.formed).2 !! "sock-bob"
     = Some {| count := 1 |}
  /\ 1 <= count {| count := 1 |}.
Proof.
  assert (Hreach : Reachable (ops := SampleLobbies.ops)
                             (subscribe "sock-bob" Scenario.formed).2).
  { apply (reachable_step Scenario.formed Scenario.sessions Scenario.maps
             (Subscribe "sock-bob")
             (subscribe "sock-bob" Scenario.formed).1);
      [apply formed_reachable|]. vm_compute; reflexivity. }
  assert (Hheld : subscribedSockets (subscribe "sock-bob" Scenario.formed).2
                    !! "sock-bob" = Some {| count := 1 |})
    by (vm_compute; reflexivity).
  split_all; [exact Hreach | exact Hheld |].
  exact (subscription_counts_stay_positive _ "sock-bob" _ Hreach Hheld).
Defined.

(** ** What the events of a diff say *)

Section CollectMembers.
Context {A B : Type} (f : A -> Res (list B)).

Lemma elem_of_collect l ys y :
  collect f l = inr ys ->
  y ∈ ys <-> exists x zs, x ∈ l /\ f x = inr zs /\ y ∈ zs.
Proof.
  revert ys. induction l as [|x l IH]; intros ys; simpl.
  - intros [= <-]. split; [by intros ?%elem_of_nil|].
    by intros (? & ? & ?%elem_of_nil & _).
  - destruct (f x) as [e|zs] eqn:Ex; [discriminate|].
    destruct (collect f l) as [e|ws]; [discriminate|].
    intros [= <-]. rewrite elem_of_app, (IH ws eq_refl). split.
    + intros [Hy|(x' & zs' & Hx' & Hf & Hy)].
      * exists x, zs. split; [left|done].
      * exists x', zs'. split; [by right|done].
    + intros (x' & zs' & Hx' & Hf & Hy).
      apply elem_of_cons in Hx' as [->|Hx'].
      * left. congruence.
      * right. eauto.
Qed.

Lemma collect_nil l :
  (forall x, x ∈ l -> f x = inr []) -> collect f l = inr [].
Proof.
  induction l as [|x l IH]; intros Hall; simpl; [done|].
  rewrite (Hall x) by left. rewrite IH; [done|].
  intros y Hy. apply Hall. by right.
Qed.

End CollectMembers.

(** The events of a diff, by the loop that made them. *)
Lemma elem_of_diffEvents old new kicked banned deleted evs e :
  diffEvents old new kicked banned deleted = inr evs ->
  e ∈ evs <->
  e ∈ hostEvents old new
  \/ (exists id zs, id ∈ left old new
                    /\ leftEvent old kicked banned id = inr zs /\ e ∈ zs)
  \/ (exists it zs, it ∈ indexed (lobby_teams old)
                    /\ deletedEvent new deleted it = inr zs /\ e ∈ zs)
  \/ (exists id zs, id ∈ created old new
                    /\ createdEvent new id = inr zs /\ e ∈ zs)
  \/ (exists id zs, id ∈ same old new
                    /\ sameEvent old new id = inr zs /\ e ∈ zs).
Proof.
  intros Hevs.
  apply diffEvents_inr in Hevs
    as (lefts & deleteds & createds & sames & Hl & Hd & Hc & Hs & ->).
  rewrite !elem_of_app.
  rewrite (elem_of_collect _ _ _ e Hl), (elem_of_collect _ _ _ e Hd),
    (elem_of_collect _ _ _ e Hc), (elem_of_collect _ _ _ e Hs).
  setoid_rewrite elem_of_elements. reflexivity.
Qed.

Lemma slotAt_elem_of l teamIndex slotIndex s :
  (teamIndex, slotIndex, s) ∈ getLobbySlotsWithIndexes l
  <-> slotAt l teamIndex slotIndex = Some s.
Proof.
  rewrite elem_of_getLobbySlotsWithIndexes. unfold slotAt. split.
  - intros (team & -> & Hs). exact Hs.
  - destruct (lobby_teams l !! teamIndex) as [team|]; [|done]. eauto.
Qed.

Lemma elem_of_idSet ss id :
  id ∈ idSet ss <-> exists s, s ∈ ss /\ slot_id s = id.
Proof.
  unfold idSet. rewrite elem_of_list_to_set, list_elem_of_fmap.
  split; [intros (s & -> & Hs) | intros (s & Hs & <-)]; eauto.
Qed.

Lemma slotAt_getLobbySlots l teamIndex slotIndex s :
  slotAt l teamIndex slotIndex = Some s -> s ∈ getLobbySlots l.
Proof.
  intros Hat. apply slotAt_elem_of in Hat.
  rewrite <- getLobbySlotsWithIndexes_slots.
  apply list_elem_of_fmap. by exists (teamIndex, slotIndex, s).
Qed.

(** The only events of a host change, a departure, a deleted slot are
    of that kind. *)
Ltac other_loops :=
  repeat match goal with
  | H : _ ∈ hostEvents _ _ |- _ =>
      unfold hostEvents in H; destruct (decide _) in H;
      [by apply elem_of_nil in H | by apply list_elem_of_singleton in H]
  | H : leftEvent _ _ _ _ = inr _ |- _ =>
      unfold leftEvent in H;
      destruct (idSlots _ !! _) as [[[? ?] ?]|] in H; [|done];
      repeat destruct (decide _) in H; injection H as <-
  | H : deletedEvent _ _ _ = inr _ |- _ =>
      unfold deletedEvent in H;
      destruct (lobby_teams _ !! _) in H; [|done];
      destruct (decide _) in H; injection H as <-
  | H : _ ∈ [] |- _ => by apply elem_of_nil in H
  | H : _ ∈ [_] |- _ => apply list_elem_of_singleton in H; try done
  end.

(** X10.  Old and new lobbies with the same teams and the same host id
    yield an empty diff: [_publishLobbyDiff] then sends no [diff]
    message, only the [update] of the lobby list (and nothing at all when
    the two lobbies are equal). *)
Theorem diff_of_unchanged_slots_is_empty
    (old new : Lobby) (kicked banned : option string)
    (deleted : option nat) :
  lobby_teams new = lobby_teams old ->
  slot_id (lobby_host new) = slot_id (lobby_host old) ->
  diffEvents old new kicked banned deleted = inr []
  /\ forall st,
       _publishLobbyDiff old new kicked banned deleted st
       = (inr tt,
          if decide (old = new) then st
          else add_effects
                 [Publish MountBase (ListUpdate (toSummaryJson new))] st).
Proof.
  intros Hteams Hhost.
  assert (Hslots : getLobbySlots new = getLobbySlots old)
    by (unfold getLobbySlots; by rewrite Hteams).
  assert (Hids : idSlots new = idSlots old).
  { unfold idSlots, getLobbySlotsWithIndexes. by rewrite Hteams. }
  assert (Hevs : diffEvents old new kicked banned deleted = inr []).
  { unfold diffEvents.
    rewrite (collect_nil (leftEvent old kicked banned)).
    2: { intros id Hid. apply elem_of_elements in Hid. exfalso.
         unfold left, same, newSlots, oldSlots, oldHumans in Hid.
         rewrite Hslots in Hid.
         apply elem_of_difference in Hid as [Hh Hnot]. apply Hnot.
         apply elem_of_intersection.
         split; by apply getHumanSlots_subseteq. }
    rewrite (collect_nil (deletedEvent new deleted)).
    2: { intros [i t] Hit. apply elem_of_indexed in Hit.
         unfold deletedEvent. simpl. rewrite Hteams, Hit.
         rewrite decide_False by lia. done. }
    rewrite (collect_nil (createdEvent new)).
    2: { intros id Hid. apply elem_of_elements in Hid. exfalso.
         unfold created, same, newSlots, oldSlots in Hid.
         rewrite Hslots in Hid.
         apply elem_of_difference in Hid as [Hn Hnot]. apply Hnot.
         by apply elem_of_intersection. }
    rewrite (collect_nil (sameEvent old new)).
    2: { intros id Hid. apply elem_of_elements in Hid.
         unfold same in Hid. apply elem_of_intersection in Hid as [Ho _].
         apply idSlots_is_Some in Ho as [[[ti si] s] Ho].
         unfold sameEvent. rewrite Hids, Ho.
         by rewrite !bool_decide_eq_true_2. }
    unfold hostEvents. by rewrite decide_True. }
  split; [exact Hevs|].
  intros st. rewrite publishLobbyDiff_run, Hevs.
  destruct (decide (old = new)); [done|].
  unfold diffEffects. reflexivity.
Qed.

Lemma diff_of_unchanged_slots_witness :
  diffEvents Scenario.lobbyA (set_map Scenario.lobbyA None) None None None
  = inr [].
Proof.
  apply (diff_of_unchanged_slots_is_empty
           Scenario.lobbyA (set_map Scenario.lobbyA None) None None None);
    reflexivity.
Defined.

(** X11.  The [slotCreate] events of a diff are sound and complete: each
    names a slot of the new lobby at the place where that lobby holds
    it, with an id that no slot of the old lobby has; and every slot of
    the new lobby whose id is new to the old lobby has a [slotCreate]
    event for its id. *)
Theorem diff_slotCreate_events
    (old new : Lobby) (kicked banned : option string)
    (deleted : option nat) (evs : list DiffEvent) :
  diffEvents old new kicked banned deleted = inr evs ->
  (forall teamIndex slotIndex slot,
     EvSlotCreate teamIndex slotIndex slot ∈ evs ->
     slotAt new teamIndex slotIndex = Some slot
     /\ ~ exists o, o ∈ getLobbySlots old /\ slot_id o = slot_id slot)
  /\ (forall slot,
        slot ∈ getLobbySlots new ->
        (~ exists o, o ∈ getLobbySlots old /\ slot_id o = slot_id slot) ->
        exists teamIndex slotIndex slot',
          EvSlotCreate teamIndex slotIndex slot' ∈ evs
          /\ slot_id slot' = slot_id slot).
Proof.
  intros Hevs. split.
  - intros teamIndex slotIndex slot Hin.
    apply (elem_of_diffEvents _ _ _ _ _ _ _ Hevs) in Hin
      as [Hin|[(id & zs & _ & Hf & Hin)|[(it & zs & _ & Hf & Hin)
         |[(id & zs & Hid & Hf & Hin)|(id & zs & _ & Hf & Hin)]]]].
    + other_loops.
    + other_loops.
    + other_loops.
    + unfold createdEvent in Hf.
      destruct (idSlots new !! id) as [[[ti si] s]|] eqn:Hs; [|done].
      injection Hf as <-. apply list_elem_of_singleton in Hin.
      injection Hin as -> -> ->.
      apply idSlots_Some in Hs as [Hsid Hs]. split.
      * by apply slotAt_elem_of.
      * unfold created, same, oldSlots in Hid.
        apply elem_of_difference in Hid as [Hn Hnot].
        intros (o & Ho & Hoid). apply Hnot, elem_of_intersection.
        split; [|done]. apply elem_of_idSet. exists o. split; congruence.
    + unfold sameEvent in Hf.
      destruct (idSlots old !! id) as [[[? ?] ?]|]; [|done].
      destruct (idSlots new !! id) as [[[? ?] ?]|]; [|done].
      destruct (_ && bool_decide (_ = _)); injection Hf as <-;
        [by apply elem_of_nil in Hin|].
      apply elem_of_app in Hin as [Hin|Hin];
        destruct (_ && _); other_loops.
  - intros slot Hslot Hnew.
    assert (Hid : slot_id slot ∈ created old new).
    { unfold created, same, newSlots, oldSlots.
      apply elem_of_difference. split.
      - apply elem_of_idSet. eauto.
      - intros [Ho _]%elem_of_intersection.
        apply elem_of_idSet in Ho. by apply Hnew. }
    assert (Hsome : is_Some (idSlots new !! slot_id slot)).
    { apply idSlots_is_Some, elem_of_idSet. eauto. }
    destruct Hsome as [[[ti si] s] Hs].
    exists ti, si, s. split.
    + apply (elem_of_diffEvents _ _ _ _ _ _ _ Hevs).
      do 3 right. left. exists (slot_id slot), [EvSlotCreate ti si s].
      split; [done|]. split; [|left].
      unfold createdEvent. by rewrite Hs.
    + by apply idSlots_Some in Hs as [Hsid _].
Qed.

Lemma diff_slotCreate_witness :
  slotAt Scenario.lobbyAWithoutBob 1 0 = Some (SampleLobbies.createOpen 3 1).
Proof.
  destruct (diff_slotCreate_events
              Scenario.lobbyA Scenario.lobbyAWithoutBob (Some "bob") None
              None
              [EvKick Scenario.bobSlot;
               EvSlotCreate 1 0 (SampleLobbies.createOpen 3 1)])
    as [Hsound _]; [vm_compute; reflexivity|].
  destruct (Hsound 1%nat 0%nat (SampleLobbies.createOpen 3 1)) as [Hat _];
    [right; left|exact Hat].
Defined.

(** X12.  The events for a slot that both lobbies have are sound.  A
    [raceChange] names a place where both lobbies hold a slot of one id
    whose race differs, and carries the new race.  A [slotChange] names
    the place and the slot of the new lobby, for an id that the old
    lobby holds at another place. *)
Theorem diff_same_slot_events
    (old new : Lobby) (kicked banned : option string)
    (deleted : option nat) (evs : list DiffEvent) :
  diffEvents old new kicked banned deleted = inr evs ->
  (forall teamIndex slotIndex race,
     EvRaceChange teamIndex slotIndex race ∈ evs ->
     exists o n,
       slotAt old teamIndex slotIndex = Some o
       /\ slotAt new teamIndex slotIndex = Some n
       /\ slot_id o = slot_id n
       /\ slot_race o <> slot_race n
       /\ race = slot_race n)
  /\ (forall teamIndex slotIndex player,
        EvSlotChange teamIndex slotIndex player ∈ evs ->
        slotAt new teamIndex slotIndex = Some player
        /\ exists oldTeamIndex oldSlotIndex o,
             slotAt old oldTeamIndex oldSlotIndex = Some o
             /\ slot_id o = slot_id player
             /\ (oldTeamIndex, oldSlotIndex) <> (teamIndex, slotIndex)).
Proof.
  intros Hevs.
  assert (Hsame : forall e,
    e ∈ evs ->
    match e with EvRaceChange _ _ _ | EvSlotChange _ _ _ => True
            | _ => False end ->
    exists id oti osi o nti nsi n,
      idSlots old !! id = Some (oti, osi, o)
      /\ idSlots new !! id = Some (nti, nsi, n)
      /\ (e = EvSlotChange nti nsi n /\ (oti, osi) <> (nti, nsi)
          \/ e = EvRaceChange nti nsi (slot_race n)
             /\ (oti, osi) = (nti, nsi) /\ slot_race o <> slot_race n)).
  { intros e Hin Hkind.
    destruct e as [| | | | | |ti si p|ti si r]; try done.
    all: apply (elem_of_diffEvents _ _ _ _ _ _ _ Hevs) in Hin
      as [Hin|[(id & zs & _ & Hf & Hin)|[(it & zs & _ & Hf & Hin)
         |[(id & zs & Hid & Hf & Hin)|(id & zs & _ & Hf & Hin)]]]].
    all: try (other_loops; fail).
    all: try (unfold createdEvent in Hf;
              destruct (idSlots new !! id) as [[[? ?] ?]|]; [|done];
              injection Hf as <-; other_loops; fail).
    all: unfold sameEvent in Hf.
    all: destruct (idSlots old !! id) as [[[oti osi] o]|] eqn:Ho; [|done].
    all: destruct (idSlots new !! id) as [[[nti nsi] n]|] eqn:Hn; [|done].
    all: exists id, oti, osi, o, nti, nsi, n.
    all: split; [done|]; split; [done|].
    all: destruct (_ && bool_decide (o = n)); injection Hf as <-;
      [by apply elem_of_nil in Hin|].
    all: apply elem_of_app in Hin as [Hin|Hin].
    - destruct (negb _ && _) eqn:Emoved; [|by apply elem_of_nil in Hin].
      apply list_elem_of_singleton in Hin. left. split; [done|].
      apply andb_true_iff in Emoved as [Emoved _].
      apply negb_true_iff, andb_false_iff in Emoved.
      intros [= -> ->].
      destruct Emoved as [E|E]; apply bool_decide_eq_false in E; done.
    - destruct (_ && negb _); other_loops.
    - destruct (negb _ && _); other_loops.
    - destruct (_ && negb _) eqn:Erace; [|by apply elem_of_nil in Hin].
      apply list_elem_of_singleton in Hin. right. split; [done|].
      apply andb_true_iff in Erace as [Eplace Erace].
      apply andb_true_iff in Eplace as [E1 E2].
      apply bool_decide_eq_true in E1, E2. subst.
      split; [done|].
      apply negb_true_iff in Erace. by apply bool_decide_eq_false in Erace. }
  split.
  - intros teamIndex slotIndex race Hin.
    destruct (Hsame _ Hin I)
      as (id & oti & osi & o & nti & nsi & n & Ho & Hn & [[? _]|Hrace]);
      [done|].
    destruct Hrace as ([= -> -> ->] & [= -> ->] & Hdiff).
    apply idSlots_Some in Ho as [Hoid Ho], Hn as [Hnid Hn].
    exists o, n. split_all; try done.
    + by apply slotAt_elem_of.
    + by apply slotAt_elem_of.
    + congruence.
  - intros teamIndex slotIndex player Hin.
    destruct (Hsame _ Hin I)
      as (id & oti & osi & o & nti & nsi & n & Ho & Hn & [Hmoved|[? _]]);
      [|done].
    destruct Hmoved as ([= -> -> ->] & Hplace).
    apply idSlots_Some in Ho as [Hoid Ho], Hn as [Hnid Hn].
    split; [by apply slotAt_elem_of|].
    exists oti, osi, o. split_all; try done.
    + by apply slotAt_elem_of.
    + congruence.
Qed.

(** X13.  The [slotDeleted] events of a diff are those of the teams
    that hold fewer slots in the new lobby than in the old one; each
    carries the slot index the caller passed, whatever slot has gone. *)
Theorem diff_slotDeleted_events
    (old new : Lobby) (kicked banned : option string)
    (deleted : option nat) (evs : list DiffEvent) :
  diffEvents old new kicked banned deleted = inr evs ->
  forall teamIndex slotIndex,
    EvSlotDeleted teamIndex slotIndex ∈ evs
    <-> slotIndex = deleted
        /\ exists oldTeam newTeam,
             lobby_teams old !! teamIndex = Some oldTeam
             /\ lobby_teams new !! teamIndex = Some newTeam
             /\ (length (team_slots newTeam)
                 < length (team_slots oldTeam))%nat.
Proof.
  intros Hevs teamIndex slotIndex.
  rewrite (elem_of_diffEvents _ _ _ _ _ _ _ Hevs). split.
  - intros [Hin|[(id & zs & _ & Hf & Hin)|[(it & zs & Hit & Hf & Hin)
           |[(id & zs & Hid & Hf & Hin)|(id & zs & _ & Hf & Hin)]]]].
    + other_loops.
    + other_loops.
    + destruct it as [i oldTeam]. apply elem_of_indexed in Hit.
      unfold deletedEvent in Hf. simpl in Hf.
      destruct (lobby_teams new !! i) as [newTeam|] eqn:Hnew; [|done].
      destruct (decide _) as [Hless|]; injection Hf as <-;
        [|by apply elem_of_nil in Hin].
      apply list_elem_of_singleton in Hin. injection Hin as -> ->.
      split; [done|]. by exists oldTeam, newTeam.
    + unfold createdEvent in Hf.
      destruct (idSlots new !! id) as [[[? ?] ?]|]; [|done].
      injection Hf as <-. other_loops.
    + unfold sameEvent in Hf.
      destruct (idSlots old !! id) as [[[? ?] ?]|]; [|done].
      destruct (idSlots new !! id) as [[[? ?] ?]|]; [|done].
      destruct (_ && bool_decide (_ = _)); injection Hf as <-;
        [by apply elem_of_nil in Hin|].
      apply elem_of_app in Hin as [Hin|Hin];
        destruct (_ && _); other_loops.
  - intros (-> & oldTeam & newTeam & Hold & Hnew & Hless).
    do 2 right. left.
    exists (teamIndex, oldTeam), [EvSlotDeleted teamIndex deleted].
    split; [by apply elem_of_indexed|]. split; [|left].
    unfold deletedEvent. simpl. rewrite Hnew. by rewrite decide_True.
Qed.

Lemma diff_same_slot_witness :
  exists o n,
    slotAt Scenario.lobbyA 0 0 = Some o
    /\ slotAt Cases.raced 0 0 = Some n
    /\ slot_id o = slot_id n
    /\ slot_race o <> slot_race n
    /\ "z" = slot_race n.
Proof.
  destruct (diff_same_slot_events
              Scenario.lobbyA Cases.raced None None None
              [EvRaceChange 0 0 "z"])
    as [Hrace _]; [vm_compute; reflexivity|].
  apply Hrace. left.
Defined.

Lemma diff_slotDeleted_witness :
  Some 2%nat = Some 2%nat
  /\ exists oldTeam newTeam,
       lobby_teams Scenario.lobbyA !! 1%nat = Some oldTeam
       /\ lobby_teams Cases.shrunk !! 1%nat = Some newTeam
       /\ (length (team_slots newTeam) < length (team_slots oldTeam))%nat.
Proof.
  apply (diff_slotDeleted_events
           Scenario.lobbyA Cases.shrunk None None (Some 2%nat)
           [EvSlotDeleted 1 (Some 2%nat)]);
    [vm_compute; reflexivity | left].
Defined.

(** ** The end of a lobby whose game has started *)

Section Teardown.
Context (sess : Sessions) (lobby : Lobby).

(** The body of the loop of [_onGameLoaded]. *)
Let release (client : option Client) : M unit :=
  call client <- defined client;
  call user <- getUserByName sess (client_name client);
  exec _publishToUser lobby (user_name user) (MsgStatus None);
  exec emit (UserUnsubscribe (user_name user)
                             (_getUserPath lobby (user_name user)));
  exec emit (ClientUnsubscribe client (_getPath lobby));
  exec emit (ClientUnsubscribe client (_getClientPath lobby client));
  exec modify (set_lobbyClients (delete client));
  unregisterClientForUser (user_name user).

Lemma release_all (clients : list Client) : forall st,
  Forall (fun c => is_Some (getByName sess (client_name c))) clients ->
  exists st',
    forEach (map Some clients) release st = (inr tt, st')
    /\ lobbies st' = lobbies st
    /\ lobbyBannedUsers st' = lobbyBannedUsers st
    /\ lobbyCountdowns st' = lobbyCountdowns st
    /\ loadingLobbies st' = loadingLobbies st
    /\ subscribedSockets st' = subscribedSockets st
    /\ (forall c, lobbyClients st' !! c
                  = if decide (c ∈ clients) then None
                    else lobbyClients st !! c)
    /\ (forall n, activeClients st' !! n
                  = if decide (n ∈ usersOf sess clients) then None
                    else activeClients st !! n).
Proof.
  induction clients as [|c0 clients IH]; intros st Hall.
  - exists st. by split_all.
  - apply Forall_cons in Hall as [[u0 Hu0] Hall].
    pose (st1 := set_activeClients (delete (user_name u0))
                   (set_lobbyClients (delete c0)
                      (add_effects
                         [Publish (_getUserPath lobby (user_name u0))
                                  (MsgStatus None);
                          UserUnsubscribe (user_name u0)
                            (_getUserPath lobby (user_name u0));
                          ClientUnsubscribe c0 (_getPath lobby);
                          ClientUnsubscribe c0 (_getClientPath lobby c0)]
                         st))).
    assert (Hstep : release (Some c0) st = (inr tt, st1)).
    { unfold release, getUserByName, _publishToUser,
        unregisterClientForUser, emit.
      cbv [defined bind ret]. rewrite Hu0. cbv [bind ret modify].
      f_equal. subst st1. registry_eq. }
    destruct (IH st1 Hall)
      as (st' & Hrun & H1 & H2 & H3 & H4 & H5 & Hclients & Hactive).
    exists st'. split.
    { change (forEach (map Some (c0 :: clients)) release)
        with (exec release (Some c0); forEach (map Some clients) release).
      unfold bind. by rewrite Hstep. }
    assert (Husers : usersOf sess (c0 :: clients)
                     = user_name u0 :: usersOf sess clients).
    { unfold usersOf. simpl. by rewrite Hu0. }
    split_all; try done.
    + intros c. rewrite Hclients. subst st1. read_fields.
      destruct (decide (c = c0)) as [->|Hne].
      * rewrite (decide_True (P := c0 ∈ c0 :: clients)) by left.
        destruct (decide _); [done|]. apply lookup_delete_eq.
      * rewrite lookup_delete_ne by done.
        destruct (decide (c ∈ clients)) as [Hin|Hout].
        -- rewrite decide_True; [done|]. by right.
        -- rewrite decide_False; [done|].
           by intros [?|?]%elem_of_cons.
    + intros n. rewrite Hactive, Husers. subst st1. read_fields.
      destruct (decide (n = user_name u0)) as [->|Hne].
      * rewrite (decide_True (P := user_name u0 ∈ user_name u0 :: _))
          by left.
        destruct (decide _); [done|]. apply lookup_delete_eq.
      * rewrite lookup_delete_ne by done.
        destruct (decide (n ∈ usersOf sess clients)) as [Hin|Hout].
        -- rewrite decide_True; [done|]. by right.
        -- rewrite decide_False; [done|].
           by intros [?|?]%elem_of_cons.
Qed.

End Teardown.

Lemma clientsOf_present sess lobby st :
  allPresent sess lobby st ->
  map (fun p => activeClients st !! slot_name p) (getHumanSlots lobby)
  = map Some (clientsOf lobby st)
  /\ Forall (fun c => is_Some (getByName sess (client_name c)))
            (clientsOf lobby st).
Proof.
  unfold allPresent, clientsOf.
  induction (getHumanSlots lobby) as [|p ps IH]; intros Hall; [done|].
  destruct (Hall p) as (c & u & Hc & Hu); [left|].
  destruct IH as [IH1 IH2]; [intros q Hq; apply Hall; by right|].
  simpl. rewrite Hc. simpl. split; [by rewrite IH1|].
  constructor; [by rewrite Hu|done].
Qed.

(** X14.  When every human of the lobby has an active client whose
    user is online, [_onGameLoaded] returns and the lobby is gone: it is
    deleted from the table of lobbies and from the loading table, and
    the active client of each human is taken out of [lobbyClients] and
    its user out of the activity registry, no other entry of these two
    tables being touched.  The countdown table, the list subscriptions
    and the ban lists are left as they are: the ban list of the lobby
    outlives it. *)
Theorem game_start_tears_lobby_down
    (sess : Sessions) (lobby : Lobby) (st : Registry) :
  allPresent sess lobby st ->
  exists st',
    _onGameLoaded sess lobby st = (inr tt, st')
    /\ lobbies st' = delete (lobby_name lobby) (lobbies st)
    /\ loadingLobbies st' = delete (lobby_name lobby) (loadingLobbies st)
    /\ (forall c,
          lobbyClients st' !! c
          = if decide (c ∈ clientsOf lobby st) then None
            else lobbyClients st !! c)
    /\ (forall n,
          activeClients st' !! n
          = if decide (n ∈ usersOf sess (clientsOf lobby st)) then None
            else activeClients st !! n)
    /\ lobbyBannedUsers st' = lobbyBannedUsers st
    /\ lobbyCountdowns st' = lobbyCountdowns st
    /\ subscribedSockets st' = subscribedSockets st.
Proof.
  intros Hpresent.
  destruct (clientsOf_present sess lobby st Hpresent) as [Hmap Hall].
  destruct (release_all sess lobby (clientsOf lobby st)
              (add_effects [Publish (_getPath lobby) MsgGameStarted] st)
              Hall)
    as (st1 & Hrun & H1 & H2 & H3 & H4 & H5 & Hclients & Hactive).
  exists (set_loadingLobbies (delete (lobby_name lobby))
            (set_lobbies (delete (lobby_name lobby)) st1)).
  split.
  { unfold _onGameLoaded. unfold bind at 1.
    change (_publishTo lobby MsgGameStarted st)
      with ((inr tt : Error + unit),
            add_effects [Publish (_getPath lobby) MsgGameStarted] st).
    cbv beta iota. unfold bind at 1, gets. cbv beta iota. read_fields.
    rewrite Hmap. unfold bind at 1. rewrite Hrun. reflexivity. }
  read_fields. rewrite H1, H2, H3, H4, H5. by split_all.
Qed.

Lemma game_start_witness :
  exists st',
    _onGameLoaded Scenario.sessions Scenario.lobbyA Scenario.formed
    = (inr tt, st')
    /\ lobbies st' !! "A" = None
    /\ lobbyClients st' !! Scenario.bob = None
    /\ activeClients st' !! "bob" = None.
Proof.
  destruct (game_start_tears_lobby_down
              Scenario.sessions Scenario.lobbyA Scenario.formed)
    as (st' & Hrun & Hlobbies & _ & Hclients & Hactive & _).
  - intros p Hp.
    assert (Hhumans : getHumanSlots Scenario.lobbyA
                      = [Scenario.aliceSlot; Scenario.bobSlot])
      by (vm_compute; reflexivity).
    rewrite Hhumans in Hp.
    apply elem_of_cons in Hp as [->|Hp];
      [exists Scenario.alice, Scenario.aliceUser; split; reflexivity|].
    apply list_elem_of_singleton in Hp as ->.
    exists Scenario.bob, Scenario.bobUser. split; reflexivity.
  - exists st'. split; [exact Hrun|].
    rewrite Hlobbies, Hclients, Hactive. split_all.
    + change (lobby_name Scenario.lobbyA) with "A". apply lookup_delete_eq.
    + apply decide_True. vm_compute. right. left.
    + apply decide_True. vm_compute. right. left.
Defined.

(** ** What a handshake publishes *)

Section Logs.
Context {A B : Type} (P : Effect -> Prop).

Lemma logs_ret (a : A) (post : A -> Prop) : post a -> logs P post (ret a).
Proof.
  intros Ha st r st' [= <- <-]. split.
  - exists []. by rewrite app_nil_r.
  - by intros ? [= <-].
Qed.

Lemma logs_throwE (e : Error) (post : A -> Prop) :
  logs P post (throwE e).
Proof.
  intros st r st' [= <- <-]. split.
  - exists []. by rewrite app_nil_r.
  - by intros ? [=].
Qed.

Lemma logs_throw k msg (post : A -> Prop) : logs P post (throw k msg).
Proof. apply logs_throwE. Qed.

Lemma logs_gets (g : Registry -> A) : logs P (fun _ => True) (gets g).
Proof.
  intros st r st' [= <- <-]. split; [|done].
  exists []. by rewrite app_nil_r.
Qed.

Lemma logs_bind (m : M A) (k : A -> M B) (mid : A -> Prop)
    (post : B -> Prop) :
  logs P mid m -> (forall a, mid a -> logs P post (k a)) ->
  logs P post (bind m k).
Proof.
  intros Hm Hk st r st'. unfold bind.
  destruct (m st) as [[e|a] st1] eqn:Em.
  - intros [= <- <-]. destruct (Hm _ _ _ Em) as [Hnew _].
    split; [done|]. by intros ? [=].
  - intros Hrun. destruct (Hm _ _ _ Em) as [(new1 & E1 & H1) Hmid].
    destruct (Hk a (Hmid a eq_refl) _ _ _ Hrun) as [(new2 & E2 & H2) Hpost].
    split; [|done]. exists (new1 ++ new2). split.
    + by rewrite E2, E1, app_assoc.
    + by apply Forall_app.
Qed.

Lemma logs_tryCatch (m : M A) (h : Error -> M A) (post : A -> Prop) :
  logs P post m -> (forall e, logs P post (h e)) ->
  logs P post (tryCatch m h).
Proof.
  intros Hm Hh st r st'. unfold tryCatch.
  destruct (m st) as [[e|a] st1] eqn:Em.
  - intros Hrun. destruct (Hm _ _ _ Em) as [(new1 & E1 & H1) _].
    destruct (Hh e _ _ _ Hrun) as [(new2 & E2 & H2) Hpost].
    split; [|done]. exists (new1 ++ new2). split.
    + by rewrite E2, E1, app_assoc.
    + by apply Forall_app.
  - intros [= <- <-]. destruct (Hm _ _ _ Em) as [Hnew Hpost].
    split; [done|]. intros a' [= <-]. by apply Hpost.
Qed.

Lemma logs_weaken (m : M A) (post post' : A -> Prop) :
  logs P post m -> (forall a, post a -> post' a) -> logs P post' m.
Proof.
  intros Hm Himp st r st' Hrun.
  destruct (Hm _ _ _ Hrun) as [Hnew Hpost]. split; [done|].
  intros a Ha. by apply Himp, Hpost.
Qed.

Lemma logs_defined (o : option A) : logs P (fun _ => True) (defined o).
Proof. destruct o; [by apply logs_ret | apply logs_throw]. Qed.

End Logs.

Lemma logs_modify P (g : Registry -> Registry) :
  (forall st, effects (g st) = effects st) ->
  logs P (fun _ => True) (modify g).
Proof.
  intros Hg st r st' [= <- <-]. split; [|done].
  exists []. by rewrite Hg, app_nil_r.
Qed.

Lemma logs_emit (P : Effect -> Prop) e :
  P e -> logs P (fun _ => True) (emit e).
Proof.
  intros He st r st' [= <- <-]. split; [|done].
  exists [e]. split; [done|]. by constructor.
Qed.

Lemma logs_when P b m :
  logs P (fun _ => True) m -> logs P (fun _ => True) (when b m).
Proof. intros Hm. destruct b; [done|by apply logs_ret]. Qed.

Lemma logs_forEach {A} P (l : list A) (g : A -> M unit) :
  (forall x, logs P (fun _ => True) (g x)) ->
  logs P (fun _ => True) (forEach l g).
Proof.
  intros Hg. induction l as [|x l IH]; simpl; [by apply logs_ret|].
  eapply logs_bind; [apply Hg|]. intros _ _. apply IH.
Qed.

(** The log after a run is the log before it and what was added. *)
Lemma added_app st st' new :
  effects st' = effects st ++ new -> added st st' = new.
Proof. intros E. unfold added. by rewrite E, drop_app_length. Qed.

Create HintDb logs.

#[global] Hint Extern 0 (_ <> _) => discriminate : logs.

(** Solves [logs] goals of commands that return nothing of interest. *)
Ltac logging :=
  repeat first
    [ apply logs_ret; exact I
    | apply logs_throw | apply logs_throwE
    | apply logs_gets | apply logs_defined
    | apply logs_emit; solve [auto with logs]
    | apply logs_modify; reflexivity
    | apply logs_when | apply logs_forEach; intros
    | apply logs_tryCatch; [|intros]
    | eapply logs_bind; [|intros ? _]
    | match goal with
      | |- logs _ _ (match ?x with _ => _ end) => destruct x
      | |- logs _ _ (if ?b then _ else _) => destruct b
      end ].

Section HandshakeLog.
Context (sess : Sessions) (P : Effect -> Prop).
Hypothesis P_routine : forall e, routine e -> P e.

Lemma P_publish path m :
  (m <> MsgGameStarted) -> (forall g, m <> MsgAllowStart g) ->
  P (Publish path m).
Proof.
  intros H1 H2. apply P_routine. split; destruct m; try done.
  by destruct (H2 gameId).
Qed.

#[local] Hint Resolve P_publish : logs.

Lemma logs_onGameSetup lobby setup codes :
  logs P (fun _ => True) (_onGameSetup lobby setup codes).
Proof. unfold _onGameSetup. logging. Qed.

Lemma logs_onRoutesSet lobby player routes gameId :
  logs P (fun _ => True) (_onRoutesSet lobby player routes gameId).
Proof. unfold _onRoutesSet. logging. Qed.

Lemma logs_callback m :
  logs P (fun _ => True) m -> logs P (fun _ => True) (callback m).
Proof. intros Hm. unfold callback. logging. exact Hm. Qed.

(** The [catch] and [finally] blocks publish neither of the two
    messages; the handshake that comes out has its timeouts cleared and
    has returned. *)
Lemma logs_rollback hs :
  logs P (fun hs' => hs' = hs \/ hs' = set_countdownTimer rejected hs)
       (rollback hs).
Proof.
  intros st r st'. destruct (rollback_run hs st) as (hs' & Hrun & _).
  unfold rollback in *. revert Hrun. cbv [bind gets].
  rewrite maybeCancelCountdown_run, onLoadingCanceled_run.
  intros _.
  assert (Hlog : exists new,
    effects
      (add_effects [Publish (_getPath (hs_lobby hs)) MsgCancelLoading;
                    Publish MountBase
                            (ListAdd (toSummaryJson (hs_lobby hs)))]
         (set_loadingLobbies (delete (lobby_name (hs_lobby hs)))
            (set_lobbyCountdowns (delete (lobby_name (hs_lobby hs)))
               (add_effects (cancelCountdownEffects st (hs_lobby hs)) st))))
    = effects st ++ new /\ Forall P new).
  { eexists. read_fields. rewrite <- app_assoc. split; [reflexivity|].
    apply Forall_app. split.
    - unfold cancelCountdownEffects.
      destruct (lobbyCountdowns st !! lobby_name (hs_lobby hs));
        repeat constructor; by apply P_routine.
    - repeat constructor; by apply P_routine. }
  destruct (lobbyCountdowns st !! lobby_name (hs_lobby hs)) as [countdown|];
    [destruct (decide _)|]; cbv [ret]; intros [= <- <-];
    (split; [exact Hlog|]); intros ? [= <-]; auto.
Qed.

Lemma logs_finally thrown hs :
  logs P (fun hs' => hs' = finished thrown hs) (finally thrown hs).
Proof.
  intros st r st'. rewrite finally_run. intros [= <- <-]. split.
  - exists (clearEffects hs). split; [done|].
    unfold clearEffects. apply Forall_app.
    split; [destruct (hs_countdownTimerId hs)
           |destruct (hs_allowStartTimerId hs)];
      repeat constructor; by apply P_routine.
  - by intros ? [= <-].
Qed.

Lemma logs_settle (body : M Handshake) hs (post : Handshake -> Prop) :
  logs P post body ->
  logs P (fun hs' =>
            exists hs1,
              (post hs1 \/ hs1 = hs \/ hs1 = set_countdownTimer rejected hs)
              /\ hs' = finished None hs1)
       (settle body hs).
Proof.
  intros Hbody st r st'. unfold settle.
  assert (Htry : logs P (fun hs1 => post hs1 \/ hs1 = hs
                                    \/ hs1 = set_countdownTimer rejected hs)
                      (tryCatch body (fun _ => rollback hs))).
  { apply logs_tryCatch.
    - eapply logs_weaken; [exact Hbody|]. auto.
    - intros e. eapply logs_weaken; [apply logs_rollback|]. auto. }
  destruct (tryCatch body _ st) as [[e|hs1] st1] eqn:E; intros Hfin.
  - exfalso. unfold tryCatch in E.
    destruct (body st) as [[e0|h] st0]; [|done].
    destruct (rollback_run hs st0) as (hs' & Hr & _). congruence.
  - destruct (Htry _ _ _ E) as [(new1 & E1 & H1) Hpost].
    destruct (logs_finally _ _ _ _ _ Hfin) as [(new2 & E2 & H2) Hpost2].
    split.
    + exists (new1 ++ new2). split; [by rewrite E2, E1, app_assoc|].
      by apply Forall_app.
    + intros hs' ->. exists hs1. split; [by apply Hpost|by apply Hpost2].
Qed.

End HandshakeLog.

Section HandshakeLogMore.
Context (sess : Sessions) (P : Effect -> Prop).
Hypothesis P_routine : forall e, routine e -> P e.
Hypothesis P_gameStarted : forall path, P (Publish path MsgGameStarted).

#[local] Hint Resolve P_gameStarted : logs.
#[local] Hint Extern 1 (P (Publish _ _)) =>
  apply (P_publish P P_routine); [discriminate | intros; discriminate]
  : logs.
#[local] Hint Extern 1 (P _) => apply P_routine; split; reflexivity : logs.

Lemma logs_onGameLoaded lobby :
  logs P (fun _ => True) (_onGameLoaded sess lobby).
Proof.
  unfold _onGameLoaded, _publishTo, _publishToUser, getUserByName,
    unregisterClientForUser.
  logging.
Qed.

(** A handshake that settles comes out with its timeouts cleared. *)
Lemma logs_loaded hs :
  logs P (fun hs' =>
            exists hs1,
              (hs1 = hs \/ hs1 = set_countdownTimer rejected hs)
              /\ hs' = finished None hs1)
       (loaded sess hs).
Proof.
  unfold loaded. eapply logs_weaken.
  - apply (logs_settle P P_routine _ hs (fun hs1 => hs1 = hs)).
    eapply logs_bind; [apply logs_onGameLoaded|]. intros _ _.
    by apply logs_ret.
  - intros hs' (hs1 & Hhs1 & ->). exists hs1. split; [tauto|done].
Qed.

Lemma logs_failed hs :
  logs P (fun hs' =>
            exists hs1,
              (hs1 = hs \/ hs1 = set_countdownTimer rejected hs)
              /\ hs' = finished None hs1)
       (failed hs).
Proof.
  unfold failed. eapply logs_weaken.
  - apply (logs_settle P P_routine _ hs (fun _ => False)). apply logs_throw.
  - intros hs' (hs1 & Hhs1 & ->). exists hs1. split; [tauto|done].
Qed.

End HandshakeLogMore.

(** *** The game starts after the countdown and the load *)

Lemma notStarted_routine e : routine e -> isGameStarted e = false.
Proof. by intros [? _]. Qed.

Lemma notAllowed_routine e : routine e -> isAllowStart e = false.
Proof. by intros [_ ?]. Qed.

(** A step that cannot complete the handshake publishes no
    [gameStarted], and resolves a promise only by its own event. *)
Lemma handshakeStep_waits sess hs ev :
  (ev <> CountdownElapsed /\ hs_countdownTimer hs <> resolved)
  \/ (ev <> GameLoaded /\ hs_gameLoaded hs <> resolved) ->
  logs (fun e => isGameStarted e = false)
       (fun hs' =>
          (hs_countdownTimer hs' = resolved ->
           hs_countdownTimer hs = resolved \/ ev = CountdownElapsed)
          /\ (hs_gameLoaded hs' = resolved ->
              hs_gameLoaded hs = resolved \/ ev = GameLoaded))
       (handshakeStep sess hs ev).
Proof.
  intros Hwaits.
  pose proof (logs_failed _ notStarted_routine) as Hfailed.
  pose proof (logs_onGameSetup _ notStarted_routine) as Hsetup.
  pose proof (logs_onRoutesSet _ notStarted_routine) as Hroutes.
  pose proof (logs_callback (fun e => isGameStarted e = false)) as Hcallback.
  assert (Hsettled : forall hs0 hs',
    (exists hs1, (hs1 = hs0 \/ hs1 = set_countdownTimer rejected hs0)
                 /\ hs' = finished None hs1) ->
    (hs_countdownTimer hs' = resolved -> hs_countdownTimer hs0 = resolved)
    /\ hs_gameLoaded hs' = hs_gameLoaded hs0).
  { intros hs0 hs' (hs1 & [->| ->] & ->); simpl; split; done. }
  destruct ev; simpl.
  - destruct Hwaits as [[? _]|[_ Hloader]]; [done|].
    destruct (hs_countdownTimerId hs) eqn:Eid; try by apply logs_ret; auto.
    simpl. destruct (hs_countdownTimer hs) eqn:Etimer;
      try (apply logs_ret; simpl; rewrite ?Etimer; by auto).
    eapply logs_bind; [by apply logs_emit|intros _ _].
    eapply logs_bind; [by apply logs_modify|intros _ _].
    simpl. rewrite (bool_decide_eq_false_2 _ Hloader), andb_false_r.
    apply logs_ret. simpl. auto.
  - destruct (hs_countdownTimer hs) eqn:Etimer;
      try (apply logs_ret; rewrite ?Etimer; by auto).
    destruct (awaiting _).
    + eapply logs_weaken; [apply Hfailed|].
      intros hs' Hhs'. apply Hsettled in Hhs' as [H1 H2]. simpl in *.
      split; [by intros ?%H1|]. rewrite H2. auto.
    + apply logs_ret. simpl. split; [done|auto].
  - eapply logs_bind; [apply Hcallback, Hsetup|intros _ _].
    apply logs_ret. simpl. auto.
  - eapply logs_bind; [apply Hcallback, Hroutes|intros _ _].
    apply logs_ret. simpl. auto.
  - destruct Hwaits as [[_ Htimer]|[? _]]; [|done].
    destruct (hs_gameLoaded hs) eqn:Eloaded;
      try (apply logs_ret; rewrite ?Eloaded; by auto).
    simpl. rewrite (bool_decide_eq_false_2 _ Htimer), andb_false_r.
    apply logs_ret. simpl. auto.
  - destruct (hs_gameLoaded hs) eqn:Eloaded;
      try (apply logs_ret; rewrite ?Eloaded; by auto).
    destruct (awaiting _).
    + eapply logs_weaken; [apply Hfailed|].
      intros hs' Hhs'. apply Hsettled in Hhs' as [H1 H2]. simpl in *.
      split; [auto|]. by rewrite H2.
    + apply logs_ret. simpl. split; [auto|done].
  - destruct (hs_allowStartTimerId hs); try by apply logs_ret; auto.
    eapply logs_bind; [by apply logs_emit|intros _ _].
    apply logs_ret. simpl. auto.
Qed.

(** A run publishes [gameStarted] only if the event it lacks has
    happened. *)
Lemma handshakeRun_waits sess (missing : HandshakeEvent)
    (field : Handshake -> Settled) :
  (missing = CountdownElapsed /\ field = hs_countdownTimer
   \/ missing = GameLoaded /\ field = hs_gameLoaded) ->
  forall evs hs st r st',
    field hs <> resolved ->
    handshakeRun sess hs evs st = (r, st') ->
    missing ∈ evs
    \/ exists new, effects st' = effects st ++ new
                   /\ Forall (fun e => isGameStarted e = false) new.
Proof.
  intros Hwhich. induction evs as [|ev evs IH]; intros hs st r st' Hfield.
  - intros [= <- <-]. right. exists []. by rewrite app_nil_r.
  - change (handshakeRun sess hs (ev :: evs))
      with (call hs' <- handshakeStep sess hs ev; handshakeRun sess hs' evs).
    unfold bind.
    destruct (handshakeStep sess hs ev st) as [[e|hs1] st1] eqn:Estep.
    { by apply (faultless_handshakeStep sess (fun _ => False)) in Estep. }
    assert (Hcase : ev = missing \/ ev <> missing).
    { destruct Hwhich as [[-> _]|[-> _]], ev; auto; by right. }
    destruct Hcase as [->|Hev]; [left; left|].
    assert (Hwaits :
      (ev <> CountdownElapsed /\ hs_countdownTimer hs <> resolved)
      \/ (ev <> GameLoaded /\ hs_gameLoaded hs <> resolved)).
    { destruct Hwhich as [[-> ->]|[-> ->]]; [left|right]; done. }
    destruct (handshakeStep_waits sess hs ev Hwaits _ _ _ Estep)
      as [(new1 & E1 & H1) Hpost].
    destruct (Hpost hs1 eq_refl) as [Htimer Hloader].
    intros Hrun. destruct (IH hs1 st1 r st') as [Hin|(new2 & E2 & H2)];
      try done.
    + destruct Hwhich as [[-> ->]|[-> ->]]; intros Hres.
      * by destruct (Htimer Hres).
      * by destruct (Hloader Hres).
    + left. by right.
    + right. exists (new1 ++ new2). split.
      * by rewrite E2, E1, app_assoc.
      * by apply Forall_app.
Qed.

Lemma existsb_Forall_false {A} (f : A -> bool) (l : list A) :
  Forall (fun x => f x = false) l -> existsb f l = false.
Proof.
  induction 1 as [|x l Hx _ IH]; [done|]. simpl. by rewrite Hx, IH.
Qed.

(** X15.  A handshake whose countdown and load are not yet resolved
    publishes [gameStarted] only in a run where both the 5000 ms timeout
    has fired and the promise of the loader has resolved: whatever else
    happens, and in whatever order, the game of a lobby is not started
    before its countdown is over and its players have loaded. *)
Theorem game_starts_after_countdown_and_load
    (sess : Sessions) (hs : Handshake) (evs : list HandshakeEvent)
    (st : Registry) (r : Error + Handshake) (st' : Registry) :
  hs_countdownTimer hs <> resolved ->
  hs_gameLoaded hs <> resolved ->
  handshakeRun sess hs evs st = (r, st') ->
  existsb isGameStarted (added st st') = true ->
  CountdownElapsed ∈ evs /\ GameLoaded ∈ evs.
Proof.
  intros Htimer Hloader Hrun Hstarted.
  assert (Hquiet : forall new,
    effects st' = effects st ++ new ->
    Forall (fun e => isGameStarted e = false) new -> False).
  { intros new E Hnew. rewrite (added_app _ _ _ E) in Hstarted.
    by rewrite (existsb_Forall_false _ _ Hnew) in Hstarted. }
  split.
  - destruct (handshakeRun_waits sess CountdownElapsed hs_countdownTimer
                (or_introl (conj eq_refl eq_refl)) evs hs st r st'
                Htimer Hrun) as [Hin|(new & E & Hnew)]; [done|].
    by destruct (Hquiet new).
  - destruct (handshakeRun_waits sess GameLoaded hs_gameLoaded
                (or_intror (conj eq_refl eq_refl)) evs hs st r st'
                Hloader Hrun) as [Hin|(new & E & Hnew)]; [done|].
    by destruct (Hquiet new).
Qed.

Lemma game_starts_witness :
  existsb isGameStarted
    (added Scenario.inCountdown
           (Scenario.run [GameLoaded; CountdownElapsed]).2) = true
  /\ CountdownElapsed ∈ [GameLoaded; CountdownElapsed]
  /\ GameLoaded ∈ [GameLoaded; CountdownElapsed].
Proof.
  assert (Hstarted :
    existsb isGameStarted
      (added Scenario.inCountdown
             (Scenario.run [GameLoaded; CountdownElapsed]).2) = true)
    by (vm_compute; reflexivity).
  split; [exact Hstarted|].
  apply (game_starts_after_countdown_and_load
           Scenario.sessions Scenario.handshake
           [GameLoaded; CountdownElapsed] Scenario.inCountdown
           (Scenario.run [GameLoaded; CountdownElapsed]).1
           (Scenario.run [GameLoaded; CountdownElapsed]).2);
    [discriminate | discriminate | apply surjective_pairing
    | exact Hstarted].
Defined.

(** *** [allowStart] is sent at most once *)

Lemma finished_spent thrown hs :
  armedInTurn (finished thrown hs) /\ mayAllowStart (finished thrown hs) = 0%nat.
Proof.
  unfold armedInTurn, mayAllowStart, finished. simpl.
  assert (Hcleared : forall h, clearedHandle h <> waiting)
    by (by intros []).
  split; [by intros ?%Hcleared|].
  rewrite decide_False by apply Hcleared.
  rewrite decide_False; [done|]. by intros [?%Hcleared _].
Qed.

Lemma filter_Forall_false {A} (f : A -> bool) (l : list A) :
  Forall (fun x => f x = false) l -> List.filter f l = [].
Proof.
  induction 1 as [|x l Hx _ IH]; [done|]. simpl. by rewrite Hx.
Qed.

(** A step sends [allowStart] only by spending the one the handshake
    may send. *)
Lemma handshakeStep_allows sess hs ev st r st' :
  armedInTurn hs ->
  handshakeStep sess hs ev st = (r, st') ->
  exists hs' new,
    r = inr hs'
    /\ effects st' = effects st ++ new
    /\ armedInTurn hs'
    /\ (length (List.filter isAllowStart new) + mayAllowStart hs'
        <= mayAllowStart hs)%nat.
Proof.
  intros Hturn Hrun.
  assert (Hquiet : forall post : Handshake -> Prop,
    logs (fun e => isAllowStart e = false) post
         (handshakeStep sess hs ev) ->
    (forall hs', post hs' ->
       armedInTurn hs' /\ (mayAllowStart hs' <= mayAllowStart hs)%nat) ->
    exists hs' new,
      r = inr hs' /\ effects st' = effects st ++ new /\ armedInTurn hs'
      /\ (length (List.filter isAllowStart new) + mayAllowStart hs'
          <= mayAllowStart hs)%nat).
  { intros post Hlogs Hpost.
    destruct (Hlogs _ _ _ Hrun) as [(new & E & Hnew) Hres].
    destruct r as [e|hs'].
    { by apply (faultless_handshakeStep sess (fun _ => False)) in Hrun. }
    destruct (Hpost hs' (Hres hs' eq_refl)) as [Hturn' Hmay].
    exists hs', new. split_all; try done.
    by rewrite (filter_Forall_false _ _ Hnew). }
  pose proof (logs_failed _ notAllowed_routine) as Hfailed.
  pose proof (logs_loaded sess _ notAllowed_routine
                (fun path => eq_refl)) as Hloaded.
  pose proof (logs_onGameSetup _ notAllowed_routine) as Hsetup.
  pose proof (logs_onRoutesSet _ notAllowed_routine) as Hroutes.
  pose proof (logs_callback (fun e => isAllowStart e = false)) as Hcallback.
  assert (Hspent : forall hs0 hs',
    (exists hs1, (hs1 = hs0 \/ hs1 = set_countdownTimer rejected hs0)
                 /\ hs' = finished None hs1) ->
    armedInTurn hs' /\ (mayAllowStart hs' <= mayAllowStart hs)%nat).
  { intros hs0 hs' (hs1 & _ & ->).
    destruct (finished_spent None hs1) as [? ->]. split; [done|lia]. }
  destruct ev.
  - (* the 5000 ms timeout *)
    apply (Hquiet (fun hs' =>
             armedInTurn hs'
             /\ (mayAllowStart hs' <= mayAllowStart hs)%nat)); [|done].
    simpl. destruct (hs_countdownTimerId hs) eqn:Eid;
      try (by apply logs_ret).
    simpl. destruct (hs_countdownTimer hs) eqn:Etimer.
    + eapply logs_bind; [by apply logs_emit|intros _ _].
      eapply logs_bind; [by apply logs_modify|intros _ _].
      destruct (_ && _).
      * eapply logs_weaken; [apply Hloaded|]. apply Hspent.
      * apply logs_ret. unfold armedInTurn, mayAllowStart. simpl.
        rewrite Eid, Etimer. split; [done|].
        destruct (decide (hs_allowStartTimerId hs = waiting)); [done|].
        by rewrite decide_True.
    + apply logs_ret. unfold armedInTurn, mayAllowStart in *. simpl.
      rewrite Eid, Etimer. split; [done|].
      destruct (decide (hs_allowStartTimerId hs = waiting)) as [Hw|];
        [by destruct (Hturn Hw)|].
      rewrite !decide_False; [done|by intros [? ?]..].
    + apply logs_ret. unfold armedInTurn, mayAllowStart in *. simpl.
      rewrite Eid, Etimer. split; [done|].
      destruct (decide (hs_allowStartTimerId hs = waiting)) as [Hw|];
        [by destruct (Hturn Hw)|].
      rewrite !decide_False; [done|by intros [? ?]..].
  - (* the countdown is cancelled *)
    apply (Hquiet (fun hs' =>
             armedInTurn hs'
             /\ (mayAllowStart hs' <= mayAllowStart hs)%nat)); [|done].
    simpl. destruct (hs_countdownTimer hs) eqn:Etimer;
      try (by apply logs_ret).
    destruct (awaiting _).
    + eapply logs_weaken; [apply Hfailed|]. apply Hspent.
    + apply logs_ret. unfold armedInTurn, mayAllowStart in *. simpl.
      split; [done|].
      destruct (decide (hs_allowStartTimerId hs = waiting)); [done|].
      rewrite decide_False by (by intros [? ?]). lia.
  - apply (Hquiet (fun hs' =>
             armedInTurn hs'
             /\ (mayAllowStart hs' <= mayAllowStart hs)%nat)); [|done].
    simpl. eapply logs_bind; [apply Hcallback, Hsetup|intros _ _].
    by apply logs_ret.
  - apply (Hquiet (fun hs' =>
             armedInTurn hs'
             /\ (mayAllowStart hs' <= mayAllowStart hs)%nat)); [|done].
    simpl. eapply logs_bind; [apply Hcallback, Hroutes|intros _ _].
    by apply logs_ret.
  - apply (Hquiet (fun hs' =>
             armedInTurn hs'
             /\ (mayAllowStart hs' <= mayAllowStart hs)%nat)); [|done].
    simpl. destruct (hs_gameLoaded hs) eqn:Eloaded;
      try (by apply logs_ret).
    destruct (_ && _).
    + eapply logs_weaken; [apply Hloaded|]. apply Hspent.
    + by apply logs_ret.
  - apply (Hquiet (fun hs' =>
             armedInTurn hs'
             /\ (mayAllowStart hs' <= mayAllowStart hs)%nat)); [|done].
    simpl. destruct (hs_gameLoaded hs) eqn:Eloaded;
      try (by apply logs_ret).
    destruct (awaiting _).
    + eapply logs_weaken; [apply Hfailed|]. apply Hspent.
    + by apply logs_ret.
  - (* the 2000 ms timeout *)
    simpl in Hrun.
    destruct (decide (hs_allowStartTimerId hs = waiting)) as [Hw|Hw].
    + rewrite Hw in Hrun. injection Hrun as <- <-.
      eexists _, [_]. split; [reflexivity|]. split; [reflexivity|].
      pose proof (Hturn Hw) as Hid.
      unfold armedInTurn, mayAllowStart. simpl. rewrite Hw.
      split; [done|]. clear Hspent. repeat case_decide; simpl; try lia; tauto.
    + exists hs, []. rewrite app_nil_r.
      destruct (hs_allowStartTimerId hs);
        first [done | injection Hrun as <- <-]; split_all; try done; lia.
Qed.

Lemma handshakeRun_allows sess evs : forall hs st r st',
  armedInTurn hs ->
  handshakeRun sess hs evs st = (r, st') ->
  exists new,
    effects st' = effects st ++ new
    /\ (length (List.filter isAllowStart new) <= mayAllowStart hs)%nat.
Proof.
  induction evs as [|ev evs IH]; intros hs st r st' Hturn.
  - intros [= <- <-]. exists []. rewrite app_nil_r. split; [done|simpl; lia].
  - change (handshakeRun sess hs (ev :: evs))
      with (call hs' <- handshakeStep sess hs ev; handshakeRun sess hs' evs).
    unfold bind.
    destruct (handshakeStep sess hs ev st) as [r1 st1] eqn:Estep.
    destruct (handshakeStep_allows sess hs ev st r1 st1 Hturn Estep)
      as (hs1 & new1 & -> & E1 & Hturn1 & Hmay1).
    intros Hrun.
    destruct (IH hs1 st1 r st' Hturn1 Hrun) as (new2 & E2 & Hmay2).
    exists (new1 ++ new2). split; [by rewrite E2, E1, app_assoc|].
    rewrite List.filter_app, length_app. lia.
Qed.

(** The handshake that [startCountdown] yields has no 2000 ms timeout
    waiting. *)
Lemma startCountdown_armedInTurn {ops : LobbyOps} sess deferred loaderThrows
    socket st hs st' :
  startCountdown sess deferred loaderThrows socket st = (inr hs, st') ->
  armedInTurn hs.
Proof.
  assert (Hcleared : forall h, clearedHandle h <> waiting)
    by (by intros []).
  assert (Hlogs : logs (fun _ => True)
                       (fun hs => hs_allowStartTimerId hs <> waiting)
                       (startCountdown sess deferred loaderThrows socket)).
  { unfold startCountdown, getClient, getLobbyForClient, ensureIsLobbyHost,
      ensureLobbyNotTransient, _publishTo, _publishListChange.
    eapply logs_bind; [logging|intros client _].
    eapply logs_bind; [logging|intros lobby _].
    eapply logs_bind; [logging|intros lobby' _].
    destruct (negb _); [apply logs_throw|].
    repeat (eapply logs_bind; [logging|intros ? _]).
    intros st0 r st1.
    destruct (bind _ _ st0) as [[e|hs0] st2] eqn:E.
    - intros Hsettle.
      assert (Hlog0 : exists new,
                effects st2 = effects st0 ++ new
                /\ Forall (fun _ => True) new).
      { revert E. cbv [bind defined emit modify ret throw throwE].
        destruct (lobby_map lobby'); [|intros [= <- <-]; exists [];
                                        by rewrite app_nil_r].
        destruct loaderThrows; intros [= <- <-].
        eexists [_]. split; [reflexivity|]. by repeat constructor. }
      destruct (logs_settle (fun _ => True) (fun _ _ => I) (throwE e) _
                  (fun _ => False) (logs_throwE _ e _) _ _ _ Hsettle)
        as [(new2 & E2 & _) Hpost].
      destruct Hlog0 as (new1 & E1 & _).
      split.
      + exists (new1 ++ new2). split; [by rewrite E2, E1, app_assoc|].
        by apply Forall_forall.
      + intros hs' ->.
        destruct (Hpost hs' eq_refl) as (hs1 & _ & ->). apply Hcleared.
    - intros [= <- <-]. revert E.
      cbv [bind defined emit modify ret throw throwE].
      destruct (lobby_map lobby'); [|done].
      destruct loaderThrows; [done|]. intros [= <- <-]. split.
      + eexists [_]. split; [reflexivity|]. by repeat constructor.
      + by intros hs' [= <-]. }
  intros Hrun Hw. by destruct (proj2 (Hlogs _ _ _ Hrun) hs eq_refl).
Qed.

(** X16.  A handshake sends [allowStart] at most once, whatever events
    reach it and in whatever order, as long as its two timeouts are not
    both waiting when the run begins. *)
Theorem allowStart_at_most_once
    (sess : Sessions) (hs : Handshake) (evs : list HandshakeEvent)
    (st : Registry) (r : Error + Handshake) (st' : Registry) :
  armedInTurn hs ->
  handshakeRun sess hs evs st = (r, st') ->
  (length (List.filter isAllowStart (added st st')) <= 1)%nat.
Proof.
  intros Hturn Hrun.
  destruct (handshakeRun_allows sess evs hs st r st' Hturn Hrun)
    as (new & E & Hmay).
  rewrite (added_app _ _ _ E).
  etransitivity; [exact Hmay|].
  unfold mayAllowStart. repeat destruct (decide _); lia.
Qed.

Lemma allowStart_at_most_once_witness :
  (length (List.filter isAllowStart
            (added Scenario.inCountdown
                   (Scenario.run [CountdownElapsed; AllowStartElapsed;
                                   AllowStartElapsed; GameLoaded]).2))
   <= 1)%nat.
Proof.
  apply (allowStart_at_most_once
           Scenario.sessions Scenario.handshake
           [CountdownElapsed; AllowStartElapsed; AllowStartElapsed;
            GameLoaded]
           Scenario.inCountdown
           (Scenario.run [CountdownElapsed; AllowStartElapsed;
                           AllowStartElapsed; GameLoaded]).1);
    [discriminate | apply surjective_pairing].
Defined.

(** ** Only [banPlayer] bans *)

Section Bans.
Context {A B : Type}.

Lemma bansNobody_preserves (m : M A) :
  preserves lobbyBannedUsers m -> bansNobody m.
Proof. intros Hm st r st' Hrun. by rewrite (Hm _ _ _ Hrun). Qed.

Lemma bansNobody_bind (m : M A) (k : A -> M B) :
  bansNobody m -> (forall a, bansNobody (k a)) -> bansNobody (bind m k).
Proof.
  intros Hm Hk st r st'. unfold bind.
  destruct (m st) as [[e|a] st1] eqn:Em.
  - intros [= <- <-]. apply (Hm _ _ _ Em).
  - intros Hrun. etransitivity; [apply (Hk _ _ _ _ Hrun)|].
    apply (Hm _ _ _ Em).
Qed.

End Bans.

Lemma bansNobody_drop name :
  bansNobody (modify (set_lobbyBannedUsers (delete name))).
Proof. intros st r st' [= <- <-]. apply delete_subseteq. Qed.

Lemma bansNobody_when b m : bansNobody m -> bansNobody (when b m).
Proof.
  intros Hm. destruct b; [done|]. apply bansNobody_preserves, preserves_ret.
Qed.

Create HintDb bans.

(** Solves [bansNobody] goals: the parts that leave the ban lists alone,
    and the rest by the structure of the program. *)
Ltac unbanned :=
  repeat first
    [ solve [auto 1 with bans nocore]
    | apply bansNobody_preserves; solve [frame]
    | progress cbv zeta
    | apply bansNobody_when
    | apply bansNobody_bind; [|intros]
    | match goal with
      | |- bansNobody (match ?x with _ => _ end) => destruct x
      | |- bansNobody (if ?b then _ else _) => destruct b
      end ].

#[global] Hint Resolve bansNobody_drop : bans.

Section BanFrame.
Context {ops : LobbyOps} (sess : Sessions).
Context (getMapInfo : string -> option N -> option MapInfo).

(** Removing a player drops the ban list of a lobby that closes and
    touches no other. *)
Lemma bansNobody_removeClientFromLobby seed lobby userName removalType :
  bansNobody (_removeClientFromLobby sess seed lobby userName removalType).
Proof.
  unfold _removeClientFromLobby, commit, unregisterClientForUser,
    _publishToUser, _publishTo, _publishListChange, emit.
  unbanned.
Qed.

#[local] Hint Resolve bansNobody_removeClientFromLobby : bans.

Lemma bansNobody_kickPlayerFromLobby seed lobby teamIndex slotIndex player :
  bansNobody (_kickPlayerFromLobby sess seed lobby teamIndex slotIndex player).
Proof. unfold _kickPlayerFromLobby, commit. unbanned. Qed.

#[local] Hint Resolve bansNobody_kickPlayerFromLobby : bans.

Lemma bansNobody_perform c :
  isBanPlayer c = false -> bansNobody (perform sess getMapInfo c).
Proof.
  destruct c; intros Hc; try discriminate Hc; clear Hc; simpl.
  - unfold subscribe, emit. unbanned.
  - unfold unsubscribe, emit. unbanned.
  - unfold onClose, emit. unbanned.
  - unfold create, _publishListChange, emit. unbanned.
  - unfold join. unbanned.
  - unfold sendChat, _publishTo, emit. unbanned.
  - unfold addComputer, commit. unbanned.
  - unfold changeSlot, commit. unbanned.
  - unfold setRaceCommand, commit. unbanned.
  - unfold openSlotCommand, commit. unbanned.
  - unfold closeSlotCommand, commit. unbanned.
  - unfold kickPlayer. unbanned.
  - unfold makeObserverCommand, commit. unbanned.
  - unfold removeObserverCommand, commit. unbanned.
  - unfold leave. unbanned.
  - unfold clientGone. unbanned.
  - unfold ignore. unbanned.
  - unfold ignore. unbanned.
  - unfold ignore. unbanned.
  - unbanned.
Qed.

End BanFrame.

(** X17.  A ban list that a lobby has after a call other than
    [banPlayer], whether the call returned or threw, is the list it had
    before: no other call bans a user or lifts a single ban; a list is
    only ever dropped whole. *)
Theorem only_banPlayer_bans
    {ops : LobbyOps} (sess : Sessions)
    (getMapInfo : string -> option N -> option MapInfo) (c : Command)
    (st : Registry) (r : Error + unit) (st' : Registry)
    (name : string) (banned : list string) :
  isBanPlayer c = false ->
  perform sess getMapInfo c st = (r, st') ->
  lobbyBannedUsers st' !! name = Some banned ->
  lobbyBannedUsers st !! name = Some banned.
Proof.
  intros Hc Hrun.
  pose proof (bansNobody_perform sess getMapInfo c Hc _ _ _ Hrun) as Hsub.
  intros Hbanned. exact (lookup_weaken _ _ _ _ Hbanned Hsub).
Qed.

Lemma only_banPlayer_bans_witness :
  lobbyBannedUsers
    (perform (ops := SampleLobbies.ops) Scenario.sessions Scenario.maps
       (Leave 5 "sock-bob")
       (set_lobbyBannedUsers (insert "A" ["carol"]) Scenario.formed)).2
    !! "A" = Some ["carol"]
  /\ lobbyBannedUsers
       (set_lobbyBannedUsers (insert "A" ["carol"]) Scenario.formed)
       !! "A" = Some ["carol"].
Proof.
  assert (Hafter :
    lobbyBannedUsers
      (perform (ops := SampleLobbies.ops) Scenario.sessions Scenario.maps
         (Leave 5 "sock-bob")
         (set_lobbyBannedUsers (insert "A" ["carol"]) Scenario.formed)).2
      !! "A" = Some ["carol"]) by (vm_compute; reflexivity).
  split; [exact Hafter|].
  exact (only_banPlayer_bans
           (ops := SampleLobbies.ops) Scenario.sessions Scenario.maps
           (Leave 5 "sock-bob")
           (set_lobbyBannedUsers (insert "A" ["carol"]) Scenario.formed)
           (perform (ops := SampleLobbies.ops) Scenario.sessions
              Scenario.maps (Leave 5 "sock-bob")
              (set_lobbyBannedUsers (insert "A" ["carol"])
                 Scenario.formed)).1
           _ "A" ["carol"] eq_refl (surjective_pairing _) Hafter).
Defined.
